(** * Prompt Flow Designer: list model, graph validator, importer, layout
      engine and sequencer.

    A shallow embedding of the graph algorithms of [App.jsx] and of the list
    editor of [components/PromptNode.jsx], followed by the properties proved
    about them.

    Conventions of the embedding.
    - A JavaScript string is a [string]; a character stands for one code unit
      in the Latin-1 range (U+0000 to U+00FF), so the white space of [trim]
      and of the regular expression class [\s] is TAB, LF, VT, FF, CR, SPACE
      and NBSP, and the line terminators excluded by [.] are LF and CR.  The
      white space and the two line terminators (U+2028, U+2029) that
      JavaScript knows beyond that range cannot occur in a [string]: every
      property below is about texts of Latin-1 characters.
    - Integer valued numbers (levels, counters, in-degrees, canvas
      coordinates) are [Z] or, where the code only counts upwards from zero,
      [nat].
    - [Map] and [Set] objects keyed by node id are [gmap string _] and
      [gset string].
    - A [while] loop is iterated under a step budget; for every such loop a
      lemma shows that the budget used by the embedding empties the queue.
    - An operation that can raise an exception returns an [outcome]. *)

From Stdlib Require Import ZArith Lia String Ascii List DecimalString DecimalNat.
From stdpp Require Import gmap strings list fin_maps relations.

Set Warnings "-register-all,-clear-no-such-hyp".
#[global] Arguments Ascii.eqb : simpl never.
#[global] Arguments String.eqb : simpl never.

Open Scope string_scope.
Open Scope list_scope.
Open Scope Z_scope.

(** ** JavaScript strings *)

Module Js.

(** The white space that [trim] strips and [\s] matches, as far as it lies
    in the Latin-1 range: TAB, LF, VT, FF, CR, SPACE and NBSP. *)
Definition is_whitespace (c : ascii) : bool :=
  let n := nat_of_ascii c in
  ((9 <=? n)%nat && (n <=? 13)%nat) || (n =? 32)%nat || (n =? 160)%nat.

(** The line terminators, which [.] does not match.  JavaScript has four:
    LF, CR, U+2028 and U+2029; only the first two lie in the Latin-1 range. *)
Definition is_line_terminator (c : ascii) : bool :=
  let n := nat_of_ascii c in (n =? 10)%nat || (n =? 13)%nat.

Definition is_digit (c : ascii) : bool :=
  let n := nat_of_ascii c in (48 <=? n)%nat && (n <=? 57)%nat.

Definition newline : ascii := ascii_of_nat 10.
Definition nl : string := String newline "".

Definition is_empty (s : string) : bool :=
  match s with "" => true | String _ _ => false end.

(** Truthiness of a string, as used by [filter(Boolean)] and [!text]. *)
Definition truthy (s : string) : bool := negb (is_empty s).

Fixpoint all_chars (p : ascii → bool) (s : string) : bool :=
  match s with
  | "" => true
  | String c s' => p c && all_chars p s'
  end.

Fixpoint trimStart (s : string) : string :=
  match s with
  | "" => ""
  | String c s' => if is_whitespace c then trimStart s' else s
  end.

Fixpoint trimEnd (s : string) : string :=
  match s with
  | "" => ""
  | String c s' =>
      let r := trimEnd s' in
      if is_whitespace c && is_empty r then "" else String c r
  end.

Definition trim (s : string) : string := trimStart (trimEnd s).

(** [s.split("\n")]. *)
Fixpoint split_lines (s : string) : list string :=
  match s with
  | "" => [""]
  | String c s' =>
      if Ascii.eqb c newline then "" :: split_lines s'
      else match split_lines s' with
           | [] => [String c ""]
           | l :: ls => String c l :: ls
           end
  end.

(** [ls.join(sep)]. *)
Fixpoint join (sep : string) (ls : list string) : string :=
  match ls with
  | [] => ""
  | [x] => x
  | x :: xs => x +:+ sep +:+ join sep xs
  end.

(** Decimal rendering of a non-negative integer, as in [`${n}`]. *)
Definition of_nat (n : nat) : string := NilZero.string_of_uint (Nat.to_uint n).

(** [toLowerCase] on one character.  The capital letters of Latin-1 are A
    to Z and U+00C0 to U+00DE without the multiplication sign U+00D7; the
    small letter of each stands 32 places after it. *)
Definition lower_char (c : ascii) : ascii :=
  let n := nat_of_ascii c in
  if ((65 <=? n)%nat && (n <=? 90)%nat)
     || ((192 <=? n)%nat && (n <=? 222)%nat && negb (n =? 215)%nat)
  then ascii_of_nat (n + 32) else c.

(** [toUpperCase] on one character.  The small letters a to z and U+00E0 to
    U+00FE without the division sign U+00F7 have their capital 32 places
    before them, and the sharp s U+00DF becomes SS.  The capitals of the
    micro sign U+00B5 and of U+00FF lie outside Latin-1 (U+039C, U+0178);
    these two characters are left as they are. *)
Definition upper_char (c : ascii) : string :=
  let n := nat_of_ascii c in
  if ((97 <=? n)%nat && (n <=? 122)%nat)
     || ((224 <=? n)%nat && (n <=? 254)%nat && negb (n =? 247)%nat)
  then String (ascii_of_nat (n - 32)) ""
  else if (n =? 223)%nat then "SS"
  else String c "".

Fixpoint toLowerCase (s : string) : string :=
  match s with
  | "" => ""
  | String c s' => String (lower_char c) (toLowerCase s')
  end.

Fixpoint toUpperCase (s : string) : string :=
  match s with
  | "" => ""
  | String c s' => upper_char c +:+ toUpperCase s'
  end.

(** Longest prefix of characters satisfying [p], and the rest. *)
Fixpoint span (p : ascii → bool) (s : string) : string * string :=
  match s with
  | "" => ("", "")
  | String c s' =>
      if p c then let '(a, b) := span p s' in (String c a, b) else ("", s)
  end.

(** [strip_prefix p s] is the rest of [s] after the literal prefix [p]. *)
Fixpoint strip_prefix (p s : string) : option string :=
  match p, s with
  | "", _ => Some s
  | String a p', String b s' => if Ascii.eqb a b then strip_prefix p' s' else None
  | String _ _, "" => None
  end.

(** The same under the [i] flag: two characters match when they are the
    same letter in either case. *)
Fixpoint strip_prefix_ci (p s : string) : option string :=
  match p, s with
  | "", _ => Some s
  | String a p', String b s' =>
      if Ascii.eqb (lower_char a) (lower_char b) then strip_prefix_ci p' s' else None
  | String _ _, "" => None
  end.

Fixpoint last_char (s : string) : option ascii :=
  match s with
  | "" => None
  | String c "" => Some c
  | String _ s' => last_char s'
  end.

Fixpoint count_char (c : ascii) (s : string) : nat :=
  match s with
  | "" => 0%nat
  | String d s' => ((if Ascii.eqb c d then 1 else 0) + count_char c s')%nat
  end.

(** The tail [\s+(.+)$] (with [min_ws = 1]) or [\s*(.+)$] (with
    [min_ws = 0]) of a pattern: white space is taken greedily; the capture
    is what follows, which must be non-empty and free of line terminators.
    When nothing follows the white space, the engine gives one white space
    character back to the capture. *)
Definition ws_then_rest (min_ws : nat) (s : string) : option string :=
  let '(w, r) := span is_whitespace s in
  if is_empty r then
    match last_char w with
    | Some c =>
        if (S min_ws <=? String.length w)%nat && negb (is_line_terminator c)
        then Some (String c "") else None
    | None => None
    end
  else if (min_ws <=? String.length w)%nat && all_chars (λ c, negb (is_line_terminator c)) r
  then Some r else None.

(** The dotted number (digits, then any number of groups of a dot and
    digits) at the start of [s], taken greedily: the text of the number and
    the rest.  After a first digit the number goes on with a digit, or with
    a dot that a digit follows. *)
Fixpoint dotted_rest (s : string) : string * string :=
  match s with
  | "" => ("", "")
  | String c s' =>
      if is_digit c then
        let '(a, b) := dotted_rest s' in (String c a, b)
      else if Ascii.eqb c "." then
        match s' with
        | String d _ =>
            if is_digit d then let '(a, b) := dotted_rest s' in (String c a, b)
            else ("", s)
        | "" => ("", s)
        end
      else ("", s)
  end.

Definition dotted_number (s : string) : option (string * string) :=
  match s with
  | String c s' =>
      if is_digit c then let '(a, b) := dotted_rest s' in Some (String c a, b)
      else None
  | "" => None
  end.

(** The pattern of a numbered line, anchored at both ends: a dotted number
    (first capture), optionally one character out of [closers], white
    space, and the rest of the line (second capture).  [closers] is ["."]
    for the list pattern and [".)"] for the outline pattern. *)
Definition match_numbered (closers : string) (line : string) : option (string * string) :=
  match dotted_number line with
  | None => None
  | Some (num, r) =>
      let r1 :=
        match r with
        | String c r' => if (0 <? count_char c closers)%nat then r' else r
        | "" => r
        end in
      match ws_then_rest 1 r1 with
      | Some text => Some (num, text)
      | None => None
      end
  end.

(** Index of the first occurrence of [pat] in [s] (compared with [pre],
    a prefix test): the text before it and the text after it. *)
Fixpoint find_with (pre : string → option string) (s : string) : option (string * string) :=
  match pre s with
  | Some rest => Some ("", rest)
  | None =>
      match s with
      | "" => None
      | String c s' =>
          match find_with pre s' with
          | Some (before, rest) => Some (String c before, rest)
          | None => None
          end
      end
  end.

(** [s] up to and including its last occurrence of the character [c]. *)
Fixpoint upto_last (c : ascii) (s : string) : option string :=
  match s with
  | "" => None
  | String d s' =>
      match upto_last c s' with
      | Some r => Some (String d r)
      | None => if Ascii.eqb c d then Some (String d "") else None
      end
  end.

End Js.

(** ** Effects *)

(** The list model draws item ids from the clock and the random number
    generator.  [Entropy] is what those two will answer from now on: the
    [k]-th element is the text [`${Date.now()}-${Math.random()...}`] of the
    [k]-th draw.  [Gen A] is a computation that draws from it. *)
Definition Entropy : Type := nat → string.
Definition Gen (A : Type) : Type := Entropy → A * Entropy.

Definition gen_ret {A} (a : A) : Gen A := λ w, (a, w).
Definition gen_bind {A B} (m : Gen A) (f : A → Gen B) : Gen B :=
  λ w, let '(a, w') := m w in f a w'.
Definition draw : Gen string := λ w, (w 0%nat, λ k, w (S k)).

Notation "'let*' x ':=' m 'in' k" := (gen_bind m (λ x, k))
  (at level 10, x name, m at level 100, k at level 200).

Fixpoint gen_map {A B} (f : A → Gen B) (l : list A) : Gen (list B) :=
  match l with
  | [] => gen_ret []
  | a :: l' =>
      let* b := f a in
      let* bs := gen_map f l' in
      gen_ret (b :: bs)
  end.

(** A call either returns or throws. *)
Inductive outcome (A : Type) : Type :=
| Returned (a : A)
| Threw (error : string).
Arguments Returned {A} a.
Arguments Threw {A} error.

Definition out_bind {A B} (m : outcome A) (f : A → outcome B) : outcome B :=
  match m with
  | Returned a => f a
  | Threw e => Threw e
  end.

Fixpoint out_map {A B} (f : A → outcome B) (l : list A) : outcome (list B) :=
  match l with
  | [] => Returned []
  | a :: l' =>
      out_bind (f a) (λ b, out_bind (out_map f l') (λ bs, Returned (b :: bs)))
  end.

(** ** List model *)

Record ListItem : Type := mkListItem {
  li_id : string;
  li_text : string;
  li_level : Z
}.

(** What callers hand to [normalizeListItems]: a plain string, or a record
    any field of which may be missing.  A missing or non-numeric [level] is
    [None] (JavaScript's [NaN]). *)
Inductive RawItem : Type :=
| RawString (s : string)
| RawRecord (id : option string) (text : option string) (level : option Z).

Definition raw_of_item (it : ListItem) : RawItem :=
  RawRecord (Some (li_id it)) (Some (li_text it)) (Some (li_level it)).

(** [Math.max(1, Math.min(3, Number(level) || 1))]. *)
Definition clamp_level (level : option Z) : Z :=
  let n := match level with
           | Some 0 | None => 1
           | Some n => n
           end in
  Z.max 1 (Z.min 3 n).

Definition fresh_item_id : Gen string :=
  let* e := draw in gen_ret ("li-" +:+ e).

Definition createListItem (text : string) (level : option Z) : Gen ListItem :=
  let* id := fresh_item_id in
  gen_ret {| li_id := id; li_text := text; li_level := clamp_level level |}.

Definition normalize_raw (item : RawItem) : Gen ListItem :=
  match item with
  | RawString s => createListItem s (Some 1)
  | RawRecord id text level =>
      let fresh := (let* it := createListItem "" (Some 1) in gen_ret (li_id it)) in
      let* id' := match id with
                  | Some i => if Js.truthy i then gen_ret i else fresh
                  | None => fresh
                  end in
      gen_ret {| li_id := id';
                 li_text := default "" text;
                 li_level := clamp_level level |}
  end.

(** One line of fallback text becomes one item: a leading dotted number
    gives the level (its number of segments), the rest is the text. *)
Definition item_of_line (line : string) : Gen ListItem :=
  match Js.match_numbered "." line with
  | Some (num, text) =>
      createListItem text (Some (Z.of_nat (S (Js.count_char "." num))))
  | None => createListItem line (Some 1)
  end.

Definition content_lines (content : string) : list string :=
  filter (λ l, Js.truthy l = true) (map Js.trim (Js.split_lines content)).

Definition normalizeListItems (items : list RawItem) (fallbackContent : string)
  : Gen (list ListItem) :=
  match items with
  | _ :: _ => gen_map normalize_raw items
  | [] =>
      match content_lines fallbackContent with
      | (_ :: _) as lines => gen_map item_of_line lines
      | [] => let* it := createListItem "" (Some 1) in gen_ret [it]
      end
  end.

(** The three counters of [formatNumberedList] and what one item does to
    them: bump the counter of its level, clear the deeper ones. *)
Definition bump_counters (level : nat) (counters : list nat) : list nat :=
  let c1 := <[pred level := S (default 0%nat (counters !! pred level))]> counters in
  foldl (λ c index, <[index := 0%nat]> c) c1 (seq level (length c1 - level)).

Definition level_of (it : ListItem) : nat :=
  Z.to_nat (Z.max 1 (Z.min 3 (li_level it))).

Definition token_of (level : nat) (counters : list nat) : string :=
  Js.join "." (map Js.of_nat (take level counters)).

Fixpoint render_items (counters : list nat) (items : list ListItem) : list string :=
  match items with
  | [] => []
  | item :: rest =>
      let level := level_of item in
      let counters' := bump_counters level counters in
      let token := token_of level counters' in
      let text := Js.trim (li_text item) in
      (if Js.truthy text then token +:+ " " +:+ text else "")
        :: render_items counters' rest
  end.

Definition formatNumberedList (items : list RawItem) : Gen string :=
  let* normalized := normalizeListItems items "" in
  gen_ret (Js.join Js.nl
             (filter (λ l, Js.truthy l = true)
                (render_items [0; 0; 0]%nat normalized))).

(** ** JSON values and graphs *)

(** A value as [JSON.parse] returns it; [JUndefined] is what reading a
    missing property gives.  Numbers are kept as integers: the code looks at
    a number only through its type and its truthiness. *)
Inductive jsval : Type :=
| JUndefined
| JNull
| JBool (b : bool)
| JNum (n : Z)
| JStr (s : string)
| JArr (items : list jsval)
| JObj (fields : list (string * jsval)).

Fixpoint assoc (k : string) (fields : list (string * jsval)) : jsval :=
  match fields with
  | [] => JUndefined
  | (k', v) :: rest => if String.eqb k k' then v else assoc k rest
  end.

(** [v.k], for the property names the code reads ([nodes], [edges], [id],
    [role], [label], [content], [from], [to]): none of them is a built-in
    property of a string, a number or an array.  Every read of the code is
    either optional ([?.]) or made after a truthiness test, so [null] and
    [undefined] answer [undefined] here as well. *)
Definition prop (v : jsval) (k : string) : jsval :=
  match v with
  | JObj fields => assoc k fields
  | _ => JUndefined
  end.

Definition js_truthy (v : jsval) : bool :=
  match v with
  | JUndefined | JNull => false
  | JBool b => b
  | JNum n => negb (n =? 0)
  | JStr s => Js.truthy s
  | JArr _ | JObj _ => true
  end.

(** [typeof v === "object"]. *)
Definition is_object_type (v : jsval) : bool :=
  match v with
  | JNull | JArr _ | JObj _ => true
  | _ => false
  end.

Definition is_string_type (v : jsval) : bool :=
  match v with JStr _ => true | _ => false end.

(** The canonical graph: what the importer builds and the layout reads. *)
Record GraphNode : Type := mkGraphNode {
  gn_id : string;
  gn_role : string;
  gn_label : string;
  gn_content : string
}.

Record GraphEdge : Type := mkGraphEdge {
  ge_from : string;
  ge_to : string
}.

Record Graph : Type := mkGraph {
  g_nodes : list GraphNode;
  g_edges : list GraphEdge
}.

Definition js_of_node (n : GraphNode) : jsval :=
  JObj [("id", JStr (gn_id n)); ("role", JStr (gn_role n));
        ("label", JStr (gn_label n)); ("content", JStr (gn_content n))].

Definition js_of_edge (e : GraphEdge) : jsval :=
  JObj [("from", JStr (ge_from e)); ("to", JStr (ge_to e))].

Definition js_of_graph (g : Graph) : jsval :=
  JObj [("nodes", JArr (map js_of_node (g_nodes g)));
        ("edges", JArr (map js_of_edge (g_edges g)))].

(** ** The queue loop shared by the validator and the two layouts *)

(** The three functions run the same loop: shift an id off the queue, then
    for every target of its outgoing edges decrement the target's remaining
    in-degree and enqueue the target when that reaches zero.  What differs
    is the bookkeeping [X] done when an id is shifted ([on_shift]) and when
    an edge is followed ([on_target]). *)
Section QueueLoop.
Context {X : Type}.
Variable outgoing : gmap string (list string).
Variable on_shift : string → X → X.
Variable on_target : string → string → X → X.

Definition follow_edge (current : string)
    (st : list string * gmap string Z * X) (target : string)
  : list string * gmap string Z * X :=
  let '(queue, indegree, x) := st in
  let x' := on_target current target x in
  let indegree' := <[target := default 0 (indegree !! target) - 1]> indegree in
  let queue' :=
    if default 0 (indegree' !! target) =? 0 then queue ++ [target] else queue in
  (queue', indegree', x').

Definition shift_one (current : string)
    (st : list string * gmap string Z * X) : list string * gmap string Z * X :=
  let '(queue, indegree, x) := st in
  foldl (follow_edge current) (queue, indegree, on_shift current x)
    (default [] (outgoing !! current)).

Fixpoint queue_loop (budget : nat) (st : list string * gmap string Z * X)
  : list string * gmap string Z * X :=
  match budget with
  | O => st
  | S budget' =>
      match st with
      | ([], _, _) => st
      | (current :: queue, indegree, x) =>
          queue_loop budget' (shift_one current (queue, indegree, x))
      end
  end.

(** Every turn of the loop takes one id off the queue, and an id is put on
    it only when a positive in-degree drops to zero: this many turns empty
    the queue (lemma [queue_loop_empties]). *)
Definition loop_budget (queue : list string) (indegree : gmap string Z) : nat :=
  (length queue + size indegree)%nat.

Definition run_queue (queue : list string) (indegree : gmap string Z) (x : X)
  : list string * gmap string Z * X :=
  queue_loop (loop_budget queue indegree) (queue, indegree, x).
End QueueLoop.

(** ** Graph validator *)

Record Tally : Type := mkTally {
  t_nodeIds : gset string;
  t_degree : gmap string Z;
  t_indegree : gmap string Z;
  t_outgoing : gmap string (list string)
}.

Definition empty_tally : Tally :=
  {| t_nodeIds := ∅; t_degree := ∅; t_indegree := ∅; t_outgoing := ∅ |}.

Definition validRoles : list string := ["system"; "user"; "assistant"].

Definition role_ok (v : jsval) : bool :=
  match v with
  | JStr r => bool_decide (r ∈ validRoles)
  | _ => false
  end.

Definition content_ok (v : jsval) : bool :=
  match v with
  | JStr c => Js.truthy (Js.trim c)
  | _ => false
  end.

(** The first loop of the validator: [inl] is the message it returns. *)
Fixpoint check_nodes (nodes : list jsval) (t : Tally) : string + Tally :=
  match nodes with
  | [] => inr t
  | node :: rest =>
      match prop node "id" with
      | JStr id =>
          if negb (Js.truthy id) then
            inl "Invalid node: every node must have a string `id`."
          else if bool_decide (id ∈ t_nodeIds t) then
            inl ("Invalid flow: duplicate node id '" +:+ id +:+ "'.")
          else if negb (role_ok (prop node "role")) then
            inl ("Invalid node '" +:+ id +:+ "': role must be system, user, or assistant.")
          else if negb (is_string_type (prop node "label")) then
            inl ("Invalid node '" +:+ id +:+ "': label must be a string.")
          else if negb (content_ok (prop node "content")) then
            inl ("Invalid node '" +:+ id +:+ "': content cannot be empty.")
          else
            check_nodes rest
              {| t_nodeIds := {[id]} ∪ t_nodeIds t;
                 t_degree := <[id := 0]> (t_degree t);
                 t_indegree := <[id := 0]> (t_indegree t);
                 t_outgoing := <[id := []]> (t_outgoing t) |}
      | _ => inl "Invalid node: every node must have a string `id`."
      end
  end.

Definition bump (k : string) (m : gmap string Z) : gmap string Z :=
  <[k := default 0 (m !! k) + 1]> m.

(** The second loop. *)
Fixpoint check_edges (edges : list jsval) (t : Tally) : string + Tally :=
  match edges with
  | [] => inr t
  | edge :: rest =>
      match prop edge "from", prop edge "to" with
      | JStr from, JStr to =>
          if negb (Js.truthy from) || negb (Js.truthy to) then
            inl "Invalid edge: each edge must include string `from` and `to`."
          else if negb (bool_decide (from ∈ t_nodeIds t))
                  || negb (bool_decide (to ∈ t_nodeIds t)) then
            inl ("Invalid edge: '" +:+ from +:+ "' -> '" +:+ to
                 +:+ "' references missing node ids.")
          else if String.eqb from to then
            inl ("Invalid edge: self-loop found on '" +:+ from +:+ "'.")
          else
            check_edges rest
              {| t_nodeIds := t_nodeIds t;
                 t_degree := bump to (bump from (t_degree t));
                 t_indegree := bump to (t_indegree t);
                 t_outgoing :=
                   <[from := default [] (t_outgoing t !! from) ++ [to]]> (t_outgoing t) |}
      | _, _ => inl "Invalid edge: each edge must include string `from` and `to`."
      end
  end.

Definition id_of (node : jsval) : string :=
  match prop node "id" with JStr id => id | _ => "" end.

Definition visited_count (t : Tally) (nodes : list jsval) : nat :=
  let queue :=
    filter (λ id, default 0 (t_indegree t !! id) = 0) (map id_of nodes) in
  snd (run_queue (t_outgoing t) (λ _ visited, S visited) (λ _ _ visited, visited)
         queue (t_indegree t) 0%nat).

Definition validateGeneratedGraph (graph : jsval) : option string :=
  if negb (js_truthy graph) || negb (is_object_type graph) then
    Some "Invalid JSON: root must be an object."
  else
    match prop graph "nodes", prop graph "edges" with
    | JArr nodes, JArr edges =>
        if bool_decide (nodes = []) then
          Some "Invalid flow: at least one node is required."
        else
          match check_nodes nodes empty_tally with
          | inl message => Some message
          | inr t1 =>
              match check_edges edges t1 with
              | inl message => Some message
              | inr t =>
                  let orphan :=
                    if (1 <? length nodes)%nat then
                      find (λ n, bool_decide (default 0 (t_degree t !! id_of n) = 0)) nodes
                    else None in
                  match orphan with
                  | Some n =>
                      Some ("Invalid flow: orphan node '" +:+ id_of n +:+ "' has no edges.")
                  | None =>
                      if bool_decide (visited_count t nodes = length nodes) then None
                      else Some "Invalid flow: graph must be directed and acyclic."
                  end
              end
          end
    | _, _ => Some "Invalid JSON: `nodes` and `edges` must be arrays."
    end.

(** ** React Flow nodes and edges *)

Record Position : Type := mkPosition { pos_x : Z; pos_y : Z }.

Record NodeData : Type := mkNodeData {
  d_role : string;
  d_label : string;
  d_content : string;
  d_listItems : list ListItem
}.

Record FlowNode : Type := mkFlowNode {
  n_id : string;
  n_type : string;
  n_position : Position;
  n_data : NodeData
}.

Record FlowEdge : Type := mkFlowEdge {
  e_id : string;
  e_source : string;
  e_target : string;
  e_type : string;
  e_markerEnd : string
}.

(** [array.sort(compare)]: the sort is stable, and [compare a b < 0] puts
    [a] first.  For a comparator that is a consistent ordering this is the
    result in every engine.  [sortByCanvas] answers 0 as soon as one of the
    two ids has no node, which is not a consistent ordering when such ids
    are mixed with others; ECMAScript then leaves the order to the engine,
    and the order computed here is one of those it allows.  No property
    below depends on the order in that case. *)
Fixpoint sort_insert {A} (compare : A → A → Z) (x : A) (l : list A) : list A :=
  match l with
  | [] => [x]
  | y :: l' =>
      if compare x y <=? 0 then x :: l else y :: sort_insert compare x l'
  end.

Definition js_sort {A} (compare : A → A → Z) (l : list A) : list A :=
  foldr (sort_insert compare) [] l.

(** [a - b || c - d]. *)
Definition or_else (a b : Z) : Z := if a =? 0 then b else a.

Definition by_canvas (a b : FlowNode) : Z :=
  or_else (pos_y (n_position a) - pos_y (n_position b))
          (pos_x (n_position a) - pos_x (n_position b)).

(** [new Map(entries)]: a later entry for a key replaces an earlier one. *)
Definition map_of {V} (entries : list (string * V)) : gmap string V :=
  foldl (λ m kv, <[kv.1 := kv.2]> m) ∅ entries.

(** [grouped]: the ids of each level, levels in order of first appearance. *)
Fixpoint group_push (l : Z) (id : string) (grouped : list (Z * list string))
  : list (Z * list string) :=
  match grouped with
  | [] => [(l, [id])]
  | (l', ids) :: rest =>
      if l =? l' then (l', ids ++ [id]) :: rest
      else (l', ids) :: group_push l id rest
  end.

Definition group_by_level (level : gmap string Z) (ids : list string)
  : list (Z * list string) :=
  foldl (λ grouped id, group_push (default 0 (level !! id)) id grouped) [] ids.

Definition sorted_groups (grouped : list (Z * list string)) : list (Z * list string) :=
  js_sort (λ a b, a.1 - b.1) grouped.

(** The level update of both layouts: the target takes the level after the
    current one unless it already has a greater one. *)
Definition raise_level (target : string) (nextLevel : Z) (level : gmap string Z)
  : gmap string Z :=
  match level !! target with
  | Some l => if l <? nextLevel then <[target := nextLevel]> level else level
  | None => <[target := nextLevel]> level
  end.

(** [queue.forEach((id) => level.set(id, 0))]. *)
Definition seed_levels (queue : list string) : gmap string Z :=
  foldl (λ level id, <[id := 0]> level) ∅ queue.

(** ** Import layout *)

(** [outgoing.get(edge.from).push(edge.to)] throws when [edge.from] is not
    the id of a node. *)
Fixpoint layout_edges (edges : list GraphEdge)
    (st : gmap string Z * gmap string (list string))
  : outcome (gmap string Z * gmap string (list string)) :=
  match edges with
  | [] => Returned st
  | edge :: rest =>
      let '(indegree, outgoing) := st in
      let indegree' := bump (ge_to edge) indegree in
      match outgoing !! ge_from edge with
      | Some targets =>
          layout_edges rest
            (indegree', <[ge_from edge := targets ++ [ge_to edge]]> outgoing)
      | None => Threw "TypeError: Cannot read properties of undefined (reading 'push')"
      end
  end.

(** The bookkeeping of the import layout: the level of the current id is
    read again for every edge. *)
Definition layout_follow (current target : string) (level : gmap string Z)
  : gmap string Z :=
  raise_level target (default 0 (level !! current) + 1) level.

(** The levels [layoutGraph] computes: ids of in-degree zero start at level
    0 and the queue loop raises the level of every target. *)
Definition layout_levels (graph : Graph) : outcome (gmap string Z) :=
  let ids := map gn_id (g_nodes graph) in
  let indegree0 := map_of (map (λ id, (id, 0)) ids) in
  let outgoing0 := map_of (map (λ id, (id, [])) ids) in
  out_bind (layout_edges (g_edges graph) (indegree0, outgoing0))
    (λ '(indegree, outgoing),
       let queue := filter (λ id, default 0 (indegree !! id) = 0) ids in
       Returned
         (snd (run_queue outgoing (λ _ level, level) layout_follow
                 queue indegree (seed_levels queue)))).

Definition smoothstep : string := "smoothstep".
Definition arrowClosed : string := "arrowclosed".

Definition layout_node (nodesById : gmap string GraphNode) (l : Z)
    (lane : nat) (id : string) : Entropy → outcome FlowNode * Entropy :=
  λ w,
    match nodesById !! id with
    | None =>
        (Threw "TypeError: Cannot read properties of undefined (reading 'content')", w)
    | Some node =>
        let '(listItems, w') := normalizeListItems [] (gn_content node) w in
        (Returned
           {| n_id := gn_id node;
              n_type := "promptNode";
              n_position := {| pos_x := 120 + Z.of_nat lane * 320;
                               pos_y := 100 + l * 220 |};
              n_data := {| d_role := gn_role node;
                           d_label := gn_label node;
                           d_content := gn_content node;
                           d_listItems := listItems |} |}, w')
    end.

(** The nodes of one level and then of the following ones, stopping at the
    first exception. *)
Fixpoint layout_lane (nodesById : gmap string GraphNode) (l : Z) (lane : nat)
    (ids : list string) : Entropy → outcome (list FlowNode) * Entropy :=
  λ w,
    match ids with
    | [] => (Returned [], w)
    | id :: rest =>
        match layout_node nodesById l lane id w with
        | (Returned n, w') =>
            match layout_lane nodesById l (S lane) rest w' with
            | (Returned ns, w'') => (Returned (n :: ns), w'')
            | (Threw e, w'') => (Threw e, w'')
            end
        | (Threw e, w') => (Threw e, w')
        end
    end.

Fixpoint layout_lanes (nodesById : gmap string GraphNode)
    (grouped : list (Z * list string)) : Entropy → outcome (list FlowNode) * Entropy :=
  λ w,
    match grouped with
    | [] => (Returned [], w)
    | (l, ids) :: rest =>
        match layout_lane nodesById l 0 ids w with
        | (Returned ns, w') =>
            match layout_lanes nodesById rest w' with
            | (Returned ms, w'') => (Returned (ns ++ ms), w'')
            | (Threw e, w'') => (Threw e, w'')
            end
        | (Threw e, w') => (Threw e, w')
        end
    end.

Definition layout_edge (index : nat) (edge : GraphEdge) : FlowEdge :=
  {| e_id := "e-" +:+ ge_from edge +:+ "-" +:+ ge_to edge +:+ "-" +:+ Js.of_nat index;
     e_source := ge_from edge;
     e_target := ge_to edge;
     e_type := smoothstep;
     e_markerEnd := arrowClosed |}.

Definition layoutGraph (graph : Graph)
  : Entropy → outcome (list FlowNode * list FlowEdge) * Entropy :=
  λ w,
    let nodesById := map_of (map (λ n, (gn_id n, n)) (g_nodes graph)) in
    match layout_levels graph with
    | Threw e => (Threw e, w)
    | Returned level =>
        let grouped := group_by_level level (map gn_id (g_nodes graph)) in
        match layout_lanes nodesById (sorted_groups grouped) w with
        | (Returned rfNodes, w') =>
            (Returned (rfNodes, imap layout_edge (g_edges graph)), w')
        | (Threw e, w') => (Threw e, w')
        end
    end.

(** ** Re-layout *)

Definition node_ids (nodes : list FlowNode) : list string := map n_id nodes.

(** The edges both ends of which are nodes: the others are skipped. *)
Definition known_edges (nodesById : gmap string FlowNode) (edges : list FlowEdge)
  : list FlowEdge :=
  filter (λ e, is_Some (nodesById !! e_source e) ∧ is_Some (nodesById !! e_target e)) edges.

Definition relayout_maps (nodes : list FlowNode) (edges : list FlowEdge)
  : gmap string (list string) * gmap string Z :=
  let nodesById := map_of (map (λ n, (n_id n, n)) nodes) in
  foldl (λ '(outgoing, indegree) e,
           (<[e_source e := default [] (outgoing !! e_source e) ++ [e_target e]]> outgoing,
            bump (e_target e) indegree))
        (map_of (map (λ n, (n_id n, [])) nodes), map_of (map (λ n, (n_id n, 0)) nodes))
        (known_edges nodesById edges).

Definition sortByCanvas (nodesById : gmap string FlowNode) (a b : string) : Z :=
  match nodesById !! a, nodesById !! b with
  | Some nodeA, Some nodeB => by_canvas nodeA nodeB
  | _, _ => 0
  end.

(** The bookkeeping of the re-layout loop: the level map, [maxLevel], and
    [currentLevel], read once when the id is shifted. *)
Definition relayout_shift (current : string) (x : gmap string Z * Z * Z)
  : gmap string Z * Z * Z :=
  let '(level, maxLevel, _) := x in
  let currentLevel := default 0 (level !! current) in
  (level, Z.max maxLevel currentLevel, currentLevel).

Definition relayout_follow (_ target : string) (x : gmap string Z * Z * Z)
  : gmap string Z * Z * Z :=
  let '(level, maxLevel, currentLevel) := x in
  (raise_level target (currentLevel + 1) level, maxLevel, currentLevel).

Definition relayout_queue (nodes : list FlowNode) (edges : list FlowEdge)
  : list string :=
  let nodesById := map_of (map (λ n, (n_id n, n)) nodes) in
  js_sort (sortByCanvas nodesById)
    (filter (λ id, default 0 ((relayout_maps nodes edges).2 !! id) = 0)
            (node_ids nodes)).

(** The level map, [maxLevel] and [currentLevel] when the loop is over. *)
Definition relayout_loop (nodes : list FlowNode) (edges : list FlowEdge)
  : gmap string Z * Z * Z :=
  let queue := relayout_queue nodes edges in
  snd (run_queue (relayout_maps nodes edges).1 relayout_shift relayout_follow
         queue (relayout_maps nodes edges).2 (seed_levels queue, 0, 0)).

(** The levels of the re-layout: those of the loop, and after them one level
    for every id the loop has not reached, in canvas order. *)
Definition relayout_levels (nodes : list FlowNode) (edges : list FlowEdge)
  : gmap string Z :=
  let nodesById := map_of (map (λ n, (n_id n, n)) nodes) in
  let '(level, maxLevel, _) := relayout_loop nodes edges in
  let unresolved :=
    js_sort (sortByCanvas nodesById)
      (filter (λ id, level !! id = None) (node_ids nodes)) in
  foldl (λ lv '(index, id), <[id := maxLevel + 1 + Z.of_nat index]> lv) level
        (imap (λ index id, (index, id)) unresolved).

(** [Math.ceil(Math.sqrt(n))], exact for every array length. *)
Definition ceil_sqrt (n : Z) : Z :=
  let r := Z.sqrt n in if r * r =? n then r else r + 1.

Definition with_position (positionById : gmap string Position) (node : FlowNode)
  : FlowNode :=
  {| n_id := n_id node;
     n_type := n_type node;
     n_position := default (n_position node) (positionById !! n_id node);
     n_data := n_data node |}.

Definition autoLayoutNodes (currentNodes : list FlowNode)
    (currentEdges : list FlowEdge) (mode : string) : list FlowNode :=
  match currentNodes with
  | [] => currentNodes
  | _ :: _ =>
      let nodesById := map_of (map (λ n, (n_id n, n)) currentNodes) in
      let level := relayout_levels currentNodes currentEdges in
      let startX := 100 in
      let startY := 100 in
      let gapX := 320 in
      let gapY := 220 in
      if String.eqb mode "grid" then
        let sorted :=
          js_sort (λ a b,
                     or_else (default 0 (level !! n_id a) - default 0 (level !! n_id b))
                             (by_canvas a b))
                  currentNodes in
        let columns := Z.max 1 (ceil_sqrt (Z.of_nat (length sorted))) in
        let positionById :=
          map_of (imap (λ index node,
                          (n_id node,
                           {| pos_x := startX + (Z.of_nat index mod columns) * gapX;
                              pos_y := startY + (Z.of_nat index / columns) * gapY |}))
                       sorted) in
        map (with_position positionById) currentNodes
      else
        let grouped :=
          map (λ '(l, ids), (l, js_sort (sortByCanvas nodesById) ids))
              (group_by_level level (node_ids currentNodes)) in
        let place (l : Z) (lane : nat) : Position :=
          if String.eqb mode "horizontal"
          then {| pos_x := startX + l * gapX; pos_y := startY + Z.of_nat lane * gapY |}
          else {| pos_x := startX + Z.of_nat lane * gapX; pos_y := startY + l * gapY |} in
        let positionById :=
          foldl (λ positions '(l, ids),
                   foldl (λ ps '(lane, id), <[id := place l lane]> ps) positions
                         (imap (λ lane id, (lane, id)) ids))
                ∅ (sorted_groups grouped) in
        map (with_position positionById) currentNodes
  end.

(** [applyLayout], on the nodes and edges of the editor state: it replaces
    the nodes and leaves the edges alone. *)
Definition applyLayout (state : list FlowNode * list FlowEdge) (layoutMode : string)
  : list FlowNode * list FlowEdge :=
  (autoLayoutNodes state.1 state.2 layoutMode, state.2).

(** ** Sequencer *)

Record Step : Type := mkStep {
  s_step : nat;
  s_id : string;
  s_role : string;
  s_label : string;
  s_content : string
}.

Record PromptOutput : Type := mkPromptOutput {
  sequence : list Step;
  structuredPrompt : string;
  graph : Graph
}.

Section Walk.
Variable nodeMap : gmap string FlowNode.
Variable outgoing : gmap string (list string).

(** The recursive [walk], with its two mutable locals [visited] and
    [ordered] passed along.  [depth] bounds the nesting of the calls;
    [None] means the bound was hit (lemma [walk_all_returns]: it is not). *)
Fixpoint walk (depth : nat) (id : string) (st : gset string * list FlowNode)
  : option (gset string * list FlowNode) :=
  match depth with
  | O => None
  | S depth' =>
      let '(visited, ordered) := st in
      if bool_decide (id ∈ visited) then Some st
      else
        let visited' := {[id]} ∪ visited in
        match nodeMap !! id with
        | None => Some (visited', ordered)
        | Some node =>
            let targets :=
              js_sort (sortByCanvas nodeMap) (default [] (outgoing !! id)) in
            foldl (λ acc target, acc ≫= walk depth' target)
                  (Some (visited', ordered ++ [node])) targets
        end
  end.

Definition walk_all (depth : nat) (ids : list string)
    (st : gset string * list FlowNode) : option (gset string * list FlowNode) :=
  foldl (λ acc id, acc ≫= walk depth id) (Some st) ids.
End Walk.

Definition sequencer_maps (nodes : list FlowNode) (edges : list FlowEdge)
  : gmap string (list string) * gmap string Z :=
  foldl (λ '(outgoing, indegree) e,
           (<[e_source e := default [] (outgoing !! e_source e) ++ [e_target e]]> outgoing,
            bump (e_target e) indegree))
        (∅, map_of (map (λ n, (n_id n, 0)) nodes)) edges.

(** The nodes in visiting order. *)
Definition visit_order (nodes : list FlowNode) (edges : list FlowEdge) : list FlowNode :=
  let nodeMap := map_of (map (λ n, (n_id n, n)) nodes) in
  let '(outgoing, indegree) := sequencer_maps nodes edges in
  let starts :=
    js_sort by_canvas
      (filter (λ n, default 0 (indegree !! n_id n) = 0) nodes) in
  let depth := S (length nodes + length edges) in
  match walk_all nodeMap outgoing depth (node_ids starts ++ node_ids nodes) (∅, []) with
  | Some (_, ordered) => ordered
  | None => []
  end.

Definition step_text (item : Step) : string :=
  "[" +:+ Js.of_nat (s_step item) +:+ "] " +:+ Js.toUpperCase (s_role item) +:+ Js.nl
  +:+ (if Js.truthy (s_content item) then s_content item else "(empty)").

Definition buildPromptOutput (nodes : list FlowNode) (edges : list FlowEdge)
  : PromptOutput :=
  match nodes with
  | [] => {| sequence := []; structuredPrompt := "";
             graph := {| g_nodes := []; g_edges := [] |} |}
  | _ :: _ =>
      let sequence :=
        imap (λ index node,
                {| s_step := S index;
                   s_id := n_id node;
                   s_role := d_role (n_data node);
                   s_label := d_label (n_data node);
                   s_content := d_content (n_data node) |})
             (visit_order nodes edges) in
      {| sequence := sequence;
         structuredPrompt := Js.join (Js.nl +:+ Js.nl) (map step_text sequence);
         graph :=
           {| g_nodes :=
                map (λ node, {| gn_id := n_id node;
                                gn_role := d_role (n_data node);
                                gn_label := d_label (n_data node);
                                gn_content := d_content (n_data node) |}) nodes;
              g_edges :=
                map (λ edge, {| ge_from := e_source edge; ge_to := e_target edge |}) edges |} |}
  end.

(** ** Editing a node's list *)

(** A patch of [updateNodeData]: the fields of [data] it replaces. *)
Record DataPatch : Type := mkDataPatch {
  patch_role : option string;
  patch_label : option string;
  patch_content : option string;
  patch_listItems : option (list ListItem)
}.

Definition apply_patch (patch : DataPatch) (data : NodeData) : NodeData :=
  {| d_role := default (d_role data) (patch_role patch);
     d_label := default (d_label data) (patch_label patch);
     d_content := default (d_content data) (patch_content patch);
     d_listItems := default (d_listItems data) (patch_listItems patch) |}.

Definition updateNodeData (nodeId : string) (patch : DataPatch)
    (current : list FlowNode) : list FlowNode :=
  map (λ node,
         if String.eqb (n_id node) nodeId
         then {| n_id := n_id node; n_type := n_type node;
                 n_position := n_position node;
                 n_data := apply_patch patch (n_data node) |}
         else node) current.

Definition updateNodeList (nodeId : string) (listItems : list RawItem)
    (current : list FlowNode) : Gen (list FlowNode) :=
  let* safeItems := normalizeListItems listItems "" in
  let* content := formatNumberedList (map raw_of_item safeItems) in
  gen_ret (updateNodeData nodeId
             {| patch_role := None; patch_label := None;
                patch_content := Some content;
                patch_listItems := Some safeItems |} current).

(** ** Text importer *)

Inductive ParseResult : Type :=
| ParseError (error : string)
| ParseGraph (graph : jsval).

Record ParentBlock : Type := mkParentBlock {
  parentNo : string;
  pb_role : string;
  children : list string
}.

(** A role name out of [names] at the start of [s], in any case: the text
    as written and the rest. *)
Fixpoint role_prefix (names : list string) (s : string) : option (string * string) :=
  match names with
  | [] => None
  | name :: more =>
      match Js.strip_prefix_ci name s with
      | Some rest =>
          Some (String.substring 0 (String.length name) s, rest)
      | None => role_prefix more s
      end
  end.

Definition parent_roles : list string := ["SYSTEM"; "USER"; "ASSISTANT"].
Definition block_roles : list string := ["SYSTEM"; "USER"; "ASSISTANT"; "CONDITION"].
Definition line_roles : list string := ["system"; "user"; "assistant"; "condition"].

(** The pattern of a parent line, anchored at both ends and ignoring case:
    an integer in square brackets, optional white space, one of SYSTEM,
    USER and ASSISTANT, optional white space.  The captures are the integer
    and the role as written. *)
Definition match_parent (line : string) : option (string * string) :=
  match line with
  | String c r =>
      if Ascii.eqb c "[" then
        let '(digits, r1) := Js.span Js.is_digit r in
        if Js.is_empty digits then None
        else
          match r1 with
          | String d r2 =>
              if Ascii.eqb d "]" then
                match role_prefix parent_roles (Js.trimStart r2) with
                | Some (role, rest) =>
                    if Js.is_empty (Js.trimStart rest) then Some (digits, role) else None
                | None => None
                end
              else None
          | "" => None
          end
      else None
  | "" => None
  end.

(** The pattern of a child line of parent [no], anchored at both ends: [no],
    a dot, digits, white space, and the text (the capture). *)
Definition match_child (no : string) (line : string) : option string :=
  match Js.strip_prefix no line with
  | Some (String c r) =>
      if Ascii.eqb c "." then
        let '(digits, r1) := Js.span Js.is_digit r in
        if Js.is_empty digits then None else Js.ws_then_rest 1 r1
      else None
  | _ => None
  end.

(** [children[lastIndex] = ...]: the last element replaced. *)
Definition set_last (x : string) (l : list string) : list string :=
  <[pred (length l) := x]> l.

(** One turn of the loop over the raw lines: the parents closed so far and
    the open one. *)
Definition parent_child_line
    (st : list ParentBlock * option ParentBlock) (line : string)
  : list ParentBlock * option ParentBlock :=
  let '(parentChildNodes, currentParent) := st in
  let trimmed := Js.trim line in
  if negb (Js.truthy trimmed) then st
  else
    match match_parent trimmed with
    | Some (no, role) =>
        (match currentParent with
         | Some p => parentChildNodes ++ [p]
         | None => parentChildNodes
         end,
         Some {| parentNo := no; pb_role := Js.toLowerCase role; children := [] |})
    | None =>
        match currentParent with
        | None => st
        | Some p =>
            match match_child (parentNo p) trimmed with
            | Some text =>
                (parentChildNodes,
                 Some {| parentNo := parentNo p; pb_role := pb_role p;
                         children := children p ++ [Js.trim text] |})
            | None =>
                match last (children p) with
                | Some lastChild =>
                    (parentChildNodes,
                     Some {| parentNo := parentNo p; pb_role := pb_role p;
                             children :=
                               set_last (Js.trim (lastChild +:+ " " +:+ trimmed))
                                        (children p) |})
                | None => st
                end
            end
        end
    end.

Definition parent_child_blocks (rawLines : list string) : list ParentBlock :=
  let '(parentChildNodes, currentParent) :=
    foldl parent_child_line ([], None) rawLines in
  match currentParent with
  | Some p => parentChildNodes ++ [p]
  | None => parentChildNodes
  end.

(** [role[0].toUpperCase() + role.slice(1)] throws on the empty string. *)
Definition capitalize (role : string) : outcome string :=
  match role with
  | String c rest => Returned (Js.upper_char c +:+ rest)
  | "" => Threw "TypeError: Cannot read properties of undefined (reading 'toUpperCase')"
  end.

Definition import_id (index : nat) : string := "import-" +:+ Js.of_nat (S index).

(** [nodes.slice(0, -1).map((node, index) => ({from: node.id, to: nodes[index + 1].id}))]. *)
Fixpoint chain_edges (nodes : list GraphNode) : list GraphEdge :=
  match nodes with
  | a :: ((b :: _) as rest) =>
      {| ge_from := gn_id a; ge_to := gn_id b |} :: chain_edges rest
  | _ => []
  end.

Definition chained (nodes : list GraphNode) : ParseResult :=
  ParseGraph (js_of_graph {| g_nodes := nodes; g_edges := chain_edges nodes |}).

Fixpoint out_imap {A B} (f : nat → A → outcome B) (index : nat) (l : list A)
  : outcome (list B) :=
  match l with
  | [] => Returned []
  | a :: l' =>
      out_bind (f index a)
        (λ b, out_bind (out_imap f (S index) l') (λ bs, Returned (b :: bs)))
  end.

Definition parent_node (index : nat) (item : ParentBlock) : outcome GraphNode :=
  let content :=
    match children item with
    | [] => "No content"
    | _ :: _ =>
        Js.join Js.nl
          (imap (λ childIndex child, Js.of_nat (S childIndex) +:+ ". " +:+ child)
                (children item))
    end in
  out_bind (capitalize (pb_role item))
    (λ label, Returned {| gn_id := import_id index; gn_role := pb_role item;
                          gn_label := label; gn_content := content |}).

(** The outline dialect: a numbered line becomes a step under the section
    named by the last line that was not numbered. *)
Record OutlineNode : Type := mkOutlineNode {
  on_role : string;
  on_label : string;
  on_content : string
}.

Definition outline_line (st : list OutlineNode * string) (line : string)
  : list OutlineNode * string :=
  let '(outlineNodes, currentSection) := st in
  match Js.match_numbered ".)" line with
  | Some (stepNo, text) =>
      let stepText := Js.trim text in
      if negb (Js.truthy stepText) then st
      else
        (outlineNodes ++
           [{| on_role := "user";
               on_label := if Js.truthy currentSection
                           then currentSection +:+ " (" +:+ stepNo +:+ ")"
                           else "Step " +:+ stepNo;
               on_content := if Js.truthy currentSection
                             then currentSection +:+ ": " +:+ stepText
                             else stepText |}],
         currentSection)
  | None => (outlineNodes, line)
  end.

(** A block header at the start of [s]: an integer in square brackets,
    optional white space, a role name, and white space up to a line feed.
    The white space is taken greedily, so the header ends after the last
    line feed of the white space that follows the role.  Answers the role
    as written and the text after the header. *)
Fixpoint after_last_newline (w : string) : option string :=
  match w with
  | "" => None
  | String c w' =>
      match after_last_newline w' with
      | Some r => Some r
      | None => if Ascii.eqb c Js.newline then Some w' else None
      end
  end.

Definition block_header (s : string) : option (string * string) :=
  match s with
  | String c r =>
      if Ascii.eqb c "[" then
        let '(digits, r1) := Js.span Js.is_digit r in
        if Js.is_empty digits then None
        else
          match r1 with
          | String d r2 =>
              if Ascii.eqb d "]" then
                match role_prefix block_roles (Js.trimStart r2) with
                | Some (role, rest) =>
                    let '(w, r3) := Js.span Js.is_whitespace rest in
                    match after_last_newline w with
                    | Some w' => Some (role, w' +:+ r3)
                    | None => None
                    end
                | None => None
                end
              else None
          | "" => None
          end
      else None
  | "" => None
  end.

(** The look-ahead that ends a block body: a line feed and a block header,
    or the end of the text. *)
Definition body_ends (s : string) : bool :=
  match s with
  | "" => true
  | String c r =>
      Ascii.eqb c Js.newline && bool_decide (is_Some (block_header r))
  end.

(** The body, taken lazily: the shortest text after which [body_ends]. *)
Fixpoint lazy_body (s : string) : string :=
  if body_ends s then ""
  else match s with
       | "" => ""
       | String c s' => String c (lazy_body s')
       end.

(** One match of the block pattern at the start of [s]: the role, the body
    and the number of characters matched. *)
Definition block_at (s : string) : option (string * string * nat) :=
  match block_header s with
  | Some (role, rest) =>
      let body := lazy_body rest in
      Some (role, body,
            (String.length s - String.length rest + String.length body)%nat)
  | None => None
  end.

(** The [exec] loop of the global pattern: the matches from left to right,
    each search starting where the previous match ended ([skip] characters
    further). *)
Fixpoint scan_blocks (skip : nat) (s : string) : list (string * string) :=
  match skip with
  | S skip' =>
      match s with
      | "" => []
      | String _ s' => scan_blocks skip' s'
      end
  | O =>
      match block_at s with
      | Some (role, body, matched) =>
          (Js.toLowerCase role, Js.trim body)
            :: match s with
               | "" => []
               | String _ s' => scan_blocks (pred matched) s'
               end
      | None =>
          match s with
          | "" => []
          | String _ s' => scan_blocks 0 s'
          end
      end
  end.

(** The pattern of a role line, anchored at both ends and ignoring case: a
    role name, optional white space, a colon, optional white space, and the
    text. *)
Definition match_role_line (line : string) : option (string * string) :=
  match role_prefix line_roles line with
  | Some (role, rest) =>
      match Js.trimStart rest with
      | String c r =>
          if Ascii.eqb c ":" then
            match Js.ws_then_rest 0 r with
            | Some text => Some (Js.toLowerCase role, Js.trim text)
            | None => None
            end
          else None
      | "" => None
      end
  | None => None
  end.

Definition role_node (index : nat) (item : string * string) : outcome GraphNode :=
  out_bind (capitalize item.1)
    (λ label, Returned {| gn_id := import_id index; gn_role := item.1;
                          gn_label := label; gn_content := item.2 |}).

Definition is_array (v : jsval) : bool :=
  match v with JArr _ => true | _ => false end.

Section Importer.
(** [JSON.parse]: [None] when it throws a [SyntaxError]. *)
Variable JSON_parse : string → option jsval.

(** The fenced block tagged json (in any case): the text between the tag
    and the next fence, without the white space around it. *)
Definition fenced_json (s : string) : option string :=
  match Js.find_with (Js.strip_prefix_ci "```json") s with
  | Some (_, rest) =>
      match Js.find_with (Js.strip_prefix "```") rest with
      | Some (body, _) => Some (Js.trim body)
      | None => None
      end
  | None => None
  end.

(** From the first opening brace to the last closing brace. *)
Definition braced (s : string) : option string :=
  match Js.find_with (Js.strip_prefix "{") s with
  | Some (_, rest) =>
      match Js.upto_last "}" rest with
      | Some r => Some ("{" +:+ r)
      | None => None
      end
  | None => None
  end.

(** [JNull] is the [null] the function returns. *)
Definition extractJsonObject (text : string) : jsval :=
  if negb (Js.truthy text) then JNull
  else
    let trimmed := Js.trim text in
    match JSON_parse trimmed with
    | Some v => v
    | None =>
        let found :=
          match fenced_json trimmed with
          | Some captured => Some captured
          | None => braced trimmed
          end in
        match found with
        | None => JNull
        | Some captured => default JNull (JSON_parse captured)
        end
    end.

Definition parsePromptTextToGraph (text : string) : outcome ParseResult :=
  let raw := Js.trim text in
  if negb (Js.truthy raw) then Returned (ParseError "Prompt text is empty.")
  else
    let directJson := extractJsonObject raw in
    if js_truthy directJson && is_array (prop directJson "nodes")
       && is_array (prop directJson "edges")
    then Returned (ParseGraph directJson)
    else
      let parentChildNodes := parent_child_blocks (Js.split_lines raw) in
      if bool_decide (parentChildNodes ≠ []) then
        out_bind (out_imap parent_node 0 parentChildNodes)
          (λ nodes, Returned (chained nodes))
      else
        let lines := content_lines raw in
        let outlineNodes := fst (foldl outline_line ([], "") lines) in
        if bool_decide (outlineNodes ≠ []) then
          Returned
            (chained
               (imap (λ index item,
                        {| gn_id := import_id index; gn_role := on_role item;
                           gn_label := on_label item; gn_content := on_content item |})
                     outlineNodes))
        else
          let blocks := scan_blocks 0 raw in
          let parsedNodes := filter (λ b, Js.truthy b.2 = true) blocks in
          let parsedNodes :=
            if bool_decide (parsedNodes ≠ []) then parsedNodes
            else omap match_role_line lines in
          let parsedNodes :=
            if bool_decide (parsedNodes ≠ []) then parsedNodes
            else [("user", raw)] in
          out_bind (out_imap role_node 0 parsedNodes)
            (λ nodes, Returned (chained nodes)).
End Importer.

(** ** The list editor of a node ([components/PromptNode.jsx]) *)

Module PromptNode.

Definition makeItemId : Gen string :=
  let* e := draw in gen_ret ("li-" +:+ e).

Definition blank_item : Gen ListItem :=
  let* id := makeItemId in
  gen_ret {| li_id := id; li_text := ""; li_level := 1 |}.

(** The component's own [normalizeListItems].  [items] is [None] when
    [data.listItems] is not an array. *)
Definition normalizeListItems (items : option (list RawItem)) (fallbackContent : string)
  : Gen (list ListItem) :=
  let last_resort := (let* it := blank_item in gen_ret [it]) in
  match items with
  | Some ((_ :: _) as items) =>
      gen_map (λ item,
                 match item with
                 | RawString s =>
                     let* id := makeItemId in
                     gen_ret {| li_id := id; li_text := s; li_level := 1 |}
                 | RawRecord id text level =>
                     let* id' := match id with
                                 | Some i => if Js.truthy i then gen_ret i else makeItemId
                                 | None => makeItemId
                                 end in
                     gen_ret {| li_id := id';
                                li_text := default "" text;
                                li_level := clamp_level level |}
                 end)
              items
  | _ =>
      if Js.truthy fallbackContent then
        match content_lines fallbackContent with
        | (_ :: _) as lines =>
            gen_map (λ line,
                       match Js.match_numbered "." line with
                       | Some (num, text) =>
                           let* id := makeItemId in
                           gen_ret {| li_id := id;
                                      li_text := text;
                                      li_level :=
                                        Z.max 1 (Z.min 3 (Z.of_nat (S (Js.count_char "." num)))) |}
                       | None =>
                           let* id := makeItemId in
                           gen_ret {| li_id := id; li_text := line; li_level := 1 |}
                       end)
                    lines
        | [] => last_resort
        end
      else last_resort
  end.

(** The numbers shown beside the rows. *)
Fixpoint display_tokens (counters : list nat) (items : list ListItem) : list string :=
  match items with
  | [] => []
  | item :: rest =>
      let level := Z.to_nat (clamp_level (Some (li_level item))) in
      let counters' := bump_counters level counters in
      token_of level counters' :: display_tokens counters' rest
  end.

Definition buildDisplayTokens (items : list ListItem) : list string :=
  display_tokens [0; 0; 0]%nat items.

(** What the controls of row [index] hand to [onListChange].  A row exists
    for every index below the length of the list and for no other. *)
Definition edit_text (index : nat) (value : string) (listItems : list ListItem)
  : list ListItem :=
  alter (λ it, {| li_id := li_id it; li_text := value; li_level := li_level it |})
        index listItems.

Definition outdent (index : nat) (listItems : list ListItem) : list ListItem :=
  alter (λ it, {| li_id := li_id it; li_text := li_text it;
                  li_level := Z.max 1 (li_level it - 1) |})
        index listItems.

Definition indent (index : nat) (listItems : list ListItem) : list ListItem :=
  alter (λ it, {| li_id := li_id it; li_text := li_text it;
                  li_level := Z.min 3 (li_level it + 1) |})
        index listItems.

Definition remove_item (index : nat) (listItems : list ListItem) : Gen (list ListItem) :=
  match delete index listItems with
  | [] => let* it := blank_item in gen_ret [it]
  | (_ :: _) as next => gen_ret next
  end.

Definition add_item (listItems : list ListItem) : Gen (list ListItem) :=
  let* it := blank_item in gen_ret (listItems ++ [it]).

End PromptNode.

(** ** The canvas *)

(** [promptOutput.structuredPrompt?.trim() ? ... : "No prompt steps yet."]. *)
Definition getPromptContent (promptOutput : PromptOutput) : string :=
  if Js.truthy (Js.trim (structuredPrompt promptOutput))
  then structuredPrompt promptOutput
  else "No prompt steps yet.".

(** The state of the designer that the graph operations read and write;
    [None] is a [selectedNodeId] of [null]. *)
Record Canvas : Type := mkCanvas {
  c_nodes : list FlowNode;
  c_edges : list FlowEdge;
  c_selectedNodeId : option string
}.

Definition removeSelectedNode (st : Canvas) : Canvas :=
  match c_selectedNodeId st with
  | Some selectedNodeId =>
      if negb (Js.truthy selectedNodeId) then st
      else
        {| c_nodes := filter (λ n, n_id n ≠ selectedNodeId) (c_nodes st);
           c_edges := filter (λ e, e_source e ≠ selectedNodeId
                                   ∧ e_target e ≠ selectedNodeId) (c_edges st);
           c_selectedNodeId := None |}
  | None => st
  end.

(** * Properties *)

(** ** Strings *)

Module JsFacts.
Import Js.

Lemma app_cons c s t : String c s +:+ t = String c (s +:+ t).
Proof. reflexivity. Qed.

Lemma app_nil_l s : "" +:+ s = s.
Proof. reflexivity. Qed.

Lemma app_nil_r s : s +:+ "" = s.
Proof. induction s as [|c s IH]; [done|]. by rewrite app_cons, IH. Qed.

Lemma app_assoc s t u : (s +:+ t) +:+ u = s +:+ (t +:+ u).
Proof. induction s as [|c s IH]; [done|]. by rewrite !app_cons, IH. Qed.

Lemma is_empty_true s : is_empty s = true ↔ s = "".
Proof. destruct s; simpl; split; congruence. Qed.

Lemma is_empty_false s : is_empty s = false ↔ s ≠ "".
Proof. destruct s; simpl; split; congruence. Qed.

Lemma truthy_true s : truthy s = true ↔ s ≠ "".
Proof. unfold truthy. destruct s; simpl; split; congruence. Qed.

Ltac norm_app := repeat (rewrite app_cons || rewrite app_nil_l).
Ltac norm_app_in H := repeat (rewrite app_cons in H || rewrite app_nil_l in H).

Lemma app_eq_nil s t : s +:+ t = "" → s = "" ∧ t = "".
Proof. destruct s; [done|]. rewrite app_cons. discriminate. Qed.

Lemma all_chars_app p s t :
  all_chars p (s +:+ t) = all_chars p s && all_chars p t.
Proof.
  induction s as [|c s IH]; [done|].
  rewrite app_cons. simpl. rewrite IH. by rewrite andb_assoc.
Qed.

(** *** Trimming *)

(** [starts_clean s]: [s] does not start with white space. *)
Definition starts_clean (s : string) : Prop :=
  match s with
  | "" => True
  | String c _ => is_whitespace c = false
  end.

(** [tidy s]: [s] is not empty and [trim] leaves it alone. *)
Definition tidy (s : string) : Prop :=
  s ≠ "" ∧ starts_clean s ∧ trimEnd s = s.

Lemma trimStart_clean s : starts_clean s → trimStart s = s.
Proof. destruct s as [|c s]; [done|]. simpl. by intros ->. Qed.

Lemma trimStart_starts_clean s : starts_clean (trimStart s).
Proof.
  induction s as [|c s IH]; [done|]. simpl.
  destruct (is_whitespace c) eqn:E; [done|]. simpl. done.
Qed.

Lemma trimEnd_idem s : trimEnd (trimEnd s) = trimEnd s.
Proof.
  induction s as [|c s IH]; [done|]. simpl.
  destruct (is_whitespace c && is_empty (trimEnd s)) eqn:E; [done|].
  simpl. rewrite IH, E. done.
Qed.

Lemma trimEnd_cons_fixed c s :
  trimEnd (String c s) = String c s → trimEnd s = s.
Proof.
  simpl. destruct (is_whitespace c && is_empty (trimEnd s)); [done|].
  congruence.
Qed.

Lemma trimEnd_trimStart s : trimEnd s = s → trimEnd (trimStart s) = trimStart s.
Proof.
  induction s as [|c s IH]; [done|]. intros H. simpl.
  destruct (is_whitespace c); [|done].
  apply IH. by eapply trimEnd_cons_fixed.
Qed.

Lemma trim_fixed s : starts_clean s → trimEnd s = s → trim s = s.
Proof. intros H1 H2. unfold trim. rewrite H2. by apply trimStart_clean. Qed.

Lemma trim_tidy s : tidy s → trim s = s.
Proof. intros (_ & H1 & H2). by apply trim_fixed. Qed.

Lemma trim_trimEnd s : trimEnd (trim s) = trim s.
Proof. unfold trim. apply trimEnd_trimStart, trimEnd_idem. Qed.

Lemma trim_idem s : trim (trim s) = trim s.
Proof.
  apply trim_fixed; [apply trimStart_starts_clean | apply trim_trimEnd].
Qed.

Lemma tidy_trim s : trim s ≠ "" → tidy (trim s).
Proof.
  intros H. split; [done|]. split; [apply trimStart_starts_clean | apply trim_trimEnd].
Qed.

Lemma trimEnd_app a b : b ≠ "" → trimEnd b = b → trimEnd (a +:+ b) = a +:+ b.
Proof.
  intros Hb Hf. induction a as [|c a IH]; [done|].
  rewrite app_cons. simpl. rewrite IH.
  destruct (a +:+ b) eqn:E.
  - apply app_eq_nil in E as [_ ?]. done.
  - simpl. by rewrite andb_false_r.
Qed.

Lemma tidy_app a b :
  a ≠ "" → starts_clean a → tidy b → tidy (a +:+ b).
Proof.
  intros Ha Hc (Hb & _ & Hf). split; [|split].
  - intros E. by apply app_eq_nil in E as [? _].
  - destruct a; [done|]. done.
  - by apply trimEnd_app.
Qed.

(** *** Lines *)

Definition no_newline (s : string) : Prop :=
  all_chars (λ c, negb (Ascii.eqb c newline)) s = true.

Lemma split_lines_single s : no_newline s → split_lines s = [s].
Proof.
  unfold no_newline. induction s as [|c s IH]; [done|]. simpl.
  intros [Hc Hs]%andb_true_iff.
  destruct (Ascii.eqb c newline); [done|]. by rewrite IH.
Qed.

Lemma split_lines_app s rest :
  no_newline s → split_lines (s +:+ nl +:+ rest) = s :: split_lines rest.
Proof.
  unfold no_newline. induction s as [|c s IH]; [done|]. simpl.
  intros [Hc Hs]%andb_true_iff.
  destruct (Ascii.eqb c newline); [done|]. by rewrite IH.
Qed.

Lemma join_cons sep x y l :
  join sep (x :: y :: l) = x +:+ sep +:+ join sep (y :: l).
Proof. reflexivity. Qed.

Lemma split_lines_join (lines : list string) :
  lines ≠ [] → Forall no_newline lines → split_lines (join nl lines) = lines.
Proof.
  induction lines as [|x [|y l] IH]; [done| |].
  - intros _ H. simpl. apply split_lines_single. by inversion H.
  - intros _ H. rewrite join_cons. inversion H; subst.
    rewrite split_lines_app by done. f_equal. by apply IH.
Qed.
End JsFacts.

(** ** List model *)

Module ListFacts.
Import Js JsFacts.

(** *** Decimal numbers and tokens *)

Definition digits (s : string) : Prop :=
  s ≠ "" ∧ all_chars is_digit s = true.

Lemma string_of_uint_digits d :
  all_chars is_digit (NilEmpty.string_of_uint d) = true.
Proof. induction d; simpl; auto. Qed.

Lemma of_nat_digits n : digits (of_nat n).
Proof.
  unfold of_nat, NilZero.string_of_uint. split.
  - destruct (Nat.to_uint n); simpl; discriminate.
  - destruct (Nat.to_uint n) eqn:E; try done;
      rewrite <- E; apply string_of_uint_digits.
Qed.

Lemma digits_head s : digits s → ∃ c r, s = String c r ∧ is_digit c = true.
Proof.
  intros [Hne Hd]. destruct s as [|c r]; [done|].
  simpl in Hd. apply andb_true_iff in Hd as [? _]. eauto.
Qed.

Lemma digit_not_space c : is_digit c = true → is_whitespace c = false.
Proof.
  unfold is_digit, is_whitespace. intros H.
  apply andb_true_iff in H as [H1 H2].
  apply Nat.leb_le in H1, H2.
  repeat (apply orb_false_iff; split);
    try apply andb_false_iff; try (apply Nat.eqb_neq; lia).
  right. apply Nat.leb_gt. lia.
Qed.

Lemma digit_not_dot c : is_digit c = true → Ascii.eqb c "." = false.
Proof.
  intros H. destruct (Ascii.eqb_spec c "."); [subst; discriminate H | done].
Qed.

Lemma digit_not_terminator c : is_digit c = true → is_line_terminator c = false.
Proof.
  unfold is_digit, is_line_terminator. intros H.
  apply andb_true_iff in H as [H1 H2]. apply Nat.leb_le in H1, H2.
  apply orb_false_iff; split; apply Nat.eqb_neq; lia.
Qed.

Lemma digit_not_newline c : is_digit c = true → Ascii.eqb c newline = false.
Proof.
  intros H. destruct (Ascii.eqb_spec c newline); [subst; discriminate H | done].
Qed.

Lemma dotted_rest_digits d t :
  all_chars is_digit d = true →
  dotted_rest (d +:+ t) = (d +:+ (dotted_rest t).1, (dotted_rest t).2).
Proof.
  induction d as [|c d IH]; norm_app; simpl.
  - intros _. by destruct (dotted_rest t).
  - intros [Hc Hd]%andb_true_iff. rewrite Hc, IH by done. done.
Qed.

Lemma dotted_rest_dot c r :
  is_digit c = true →
  dotted_rest ("." +:+ String c r)
  = ("." +:+ (dotted_rest (String c r)).1, (dotted_rest (String c r)).2).
Proof.
  intros Hc. change ("." +:+ String c r) with (String "." (String c r)).
  cbn [dotted_rest]. rewrite Hc.
  change (is_digit ".") with false. cbn [Ascii.eqb Bool.eqb].
  destruct (dotted_rest r). done.
Qed.

Lemma dotted_rest_space t : dotted_rest (" " +:+ t) = ("", " " +:+ t).
Proof. reflexivity. Qed.

Lemma join_head_digit segs :
  segs ≠ [] → Forall digits segs →
  ∃ c r, join "." segs = String c r ∧ is_digit c = true.
Proof.
  destruct segs as [|x [|y l]]; [done| |]; intros _ H; inversion H; subst.
  - simpl. by apply digits_head.
  - rewrite join_cons. destruct (digits_head x) as (c & r & -> & Hc); [done|].
    simpl. eauto.
Qed.

Lemma dotted_rest_join segs t :
  segs ≠ [] → Forall digits segs →
  dotted_rest (join "." segs +:+ " " +:+ t) = (join "." segs, " " +:+ t).
Proof.
  induction segs as [|x [|y l] IH]; [done| |]; intros _ H; inversion H; subst.
  - simpl join. rewrite dotted_rest_digits by apply H2.
    rewrite dotted_rest_space. simpl. by rewrite app_nil_r.
  - rewrite join_cons, !app_assoc.
    rewrite dotted_rest_digits by apply H2.
    destruct (join_head_digit (y :: l)) as (c & r & E & Hc); [done..|].
    specialize (IH ltac:(done) H3). rewrite E in IH |- *.
    change ((String c r) +:+ " " +:+ t) with (String c (r +:+ " " +:+ t)) in *.
    rewrite dotted_rest_dot by done. rewrite IH. simpl. done.
Qed.

Lemma dotted_number_join segs t :
  segs ≠ [] → Forall digits segs →
  dotted_number (join "." segs +:+ " " +:+ t) = Some (join "." segs, " " +:+ t).
Proof.
  intros Hne H. pose proof (dotted_rest_join segs t Hne H) as E.
  destruct (join_head_digit segs) as (c & r & Ej & Hc); [done..|].
  rewrite Ej in E |- *. simpl in E |- *. rewrite Hc in E |- *.
  destruct (dotted_rest (r +:+ " " +:+ t)). by inversion E.
Qed.

Lemma count_char_app c s t :
  count_char c (s +:+ t) = (count_char c s + count_char c t)%nat.
Proof. induction s as [|d s IH]; [done|]. simpl. rewrite IH. lia. Qed.

Lemma count_dot_digits s : all_chars is_digit s = true → count_char "." s = 0%nat.
Proof.
  induction s as [|c s IH]; [done|]. simpl.
  intros [Hc Hs]%andb_true_iff. rewrite IH by done.
  destruct (Ascii.eqb_spec "." c); [subst; discriminate Hc | done].
Qed.

Lemma count_dot_join segs :
  Forall digits segs → count_char "." (join "." segs) = pred (length segs).
Proof.
  induction segs as [|x [|y l] IH]; [done| |]; intros H; inversion H; subst.
  - simpl. apply count_dot_digits, H2.
  - rewrite join_cons, !count_char_app, IH by done.
    rewrite count_dot_digits by apply H2. simpl. lia.
Qed.

Lemma join_all_chars p sep segs :
  all_chars p sep = true → Forall (λ s, all_chars p s = true) segs →
  all_chars p (join sep segs) = true.
Proof.
  intros Hsep. induction segs as [|x [|y l] IH]; [done| |]; intros H; inversion H; subst.
  - done.
  - rewrite join_cons, !all_chars_app, Hsep, IH by done.
    rewrite H2. done.
Qed.
Definition key (it : ListItem) : string * nat := (trim (li_text it), level_of it).

Lemma render_items_key l1 : ∀ l2 c,
  map key l1 = map key l2 → render_items c l1 = render_items c l2.
Proof.
  induction l1 as [|a l1 IH]; intros [|b l2] c E; try done.
  simpl in E. injection E as E1 E2 E3.
  unfold key in *. simpl. rewrite E1, E2. f_equal. by apply IH.
Qed.

Lemma level_of_clamp n :
  Z.to_nat (Z.max 1 (Z.min 3 (clamp_level (Some n)))) = Z.to_nat (Z.max 1 (Z.min 3 n)).
Proof. unfold clamp_level. destruct n; lia. Qed.

Lemma level_of_range it : (1 ≤ level_of it ≤ 3)%nat.
Proof. unfold level_of. lia. Qed.

Lemma normalize_raw_key it w : key (normalize_raw (raw_of_item it) w).1 = key it.
Proof.
  unfold normalize_raw, raw_of_item, key, level_of, gen_bind, gen_ret.
  destruct (truthy (li_id it)); simpl; by rewrite level_of_clamp.
Qed.

Lemma gen_map_keys {A} (f : A → Gen ListItem) (g : A → string * nat) :
  (∀ a w, key (f a w).1 = g a) →
  ∀ l w, map key (gen_map f l w).1 = map g l.
Proof.
  intros Hf. induction l as [|a l IH]; intros w; [done|].
  simpl. unfold gen_bind, gen_ret.
  specialize (Hf a w). destruct (f a w) as [b w1].
  specialize (IH w1). destruct (gen_map f l w1) as [bs w2].
  simpl in *. by rewrite Hf, IH.
Qed.

(** What [formatNumberedList] returns for a list of items, whatever ids
    are drawn on the way. *)
Definition rendered (items : list ListItem) : string :=
  join nl (filter (λ l, truthy l = true) (render_items [0; 0; 0]%nat items)).

Lemma formatNumberedList_rendered items w :
  (formatNumberedList (map raw_of_item items) w).1 = rendered items.
Proof.
  destruct items as [|a items]; [reflexivity|].
  unfold formatNumberedList, gen_bind, gen_ret, rendered.
  change (normalizeListItems (map raw_of_item (a :: items)) "")
    with (gen_map normalize_raw (map raw_of_item (a :: items))).
  assert (map key (gen_map normalize_raw (map raw_of_item (a :: items)) w).1
          = map key (a :: items)) as E.
  { generalize (a :: items) w. clear. intros l.
    induction l as [|b l IH]; intros w; [done|].
    cbn [map gen_map]. unfold gen_bind, gen_ret.
    pose proof (normalize_raw_key b w) as Hb.
    destruct (normalize_raw (raw_of_item b) w) as [b' w1].
    specialize (IH w1). destruct (gen_map normalize_raw (map raw_of_item l) w1).
    simpl in *. by rewrite Hb, IH. }
  destruct (gen_map normalize_raw (map raw_of_item (a :: items)) w) as [norm w'].
  simpl in *. by rewrite (render_items_key norm (a :: items) _ E).
Qed.

(** *** Lines of a rendering *)

Definition no_terminator (s : string) : Prop :=
  all_chars (λ c, negb (is_line_terminator c)) s = true.

(** An item that shows in the rendering on a line of its own: its text is
    not blank and, trimmed, holds neither LF nor CR. *)
Definition printable (it : ListItem) : Prop :=
  trim (li_text it) ≠ "" ∧ no_terminator (trim (li_text it)).

Lemma all_chars_impl (p q : ascii → bool) s :
  (∀ c, p c = true → q c = true) → all_chars p s = true → all_chars q s = true.
Proof.
  intros Hpq. induction s as [|c s IH]; [done|]. simpl.
  intros [Hc Hs]%andb_true_iff. by rewrite (Hpq c Hc), IH.
Qed.

Lemma no_terminator_no_newline s : no_terminator s → no_newline s.
Proof.
  apply all_chars_impl. intros c H.
  destruct (Ascii.eqb_spec c newline); [subst; discriminate H | done].
Qed.

Lemma bump_counters_length level c : length (bump_counters level c) = length c.
Proof.
  unfold bump_counters.
  generalize (seq level (length (<[pred level:=S (default 0%nat (c !! pred level))]> c) - level)).
  intros l. rewrite <- (length_insert c (pred level) (S (default 0%nat (c !! pred level)))).
  generalize (<[pred level:=S (default 0%nat (c !! pred level))]> c). intros c1.
  revert c1. induction l as [|i l IH]; intros c1; [done|].
  simpl. rewrite IH. apply length_insert.
Qed.

Section Line.
Variables (level : nat) (c : list nat) (t : string).
Hypothesis Hlevel : (1 ≤ level ≤ 3)%nat.
Hypothesis Hc : length c = 3%nat.
Hypothesis Ht : t ≠ "" ∧ starts_clean t ∧ trimEnd t = t.
Hypothesis Hnt : no_terminator t.

Let segs := map of_nat (take level c).
Let token := token_of level c.
Let line := token +:+ " " +:+ t.

Lemma segs_digits : Forall digits segs.
Proof. apply Forall_forall. intros s (n & -> & _)%list_elem_of_fmap. apply of_nat_digits. Qed.

Lemma segs_length : length segs = level.
Proof. unfold segs. rewrite length_map, length_take. lia. Qed.

Lemma segs_nonempty : segs ≠ [].
Proof. intros E. pose proof segs_length as H. rewrite E in H. simpl in H. lia. Qed.

Lemma line_match : match_numbered "." line = Some (token, t).
Proof.
  unfold match_numbered, line, token, token_of. fold segs.
  rewrite dotted_number_join by (apply segs_nonempty || apply segs_digits).
  change (" " +:+ t) with (String " " t). cbn [count_char]. 
  change (0 <? _)%nat with false. cbn iota.
  unfold ws_then_rest. cbn [span]. change (is_whitespace " ") with true. cbn iota.
  destruct Ht as (Hne & Hs & _). destruct t as [|c0 r]; [done|].
  simpl in Hs. cbn [span]. rewrite Hs. cbn [is_empty]. cbn iota.
  unfold no_terminator in Hnt. rewrite Hnt. done.
Qed.

Lemma line_token_dots : count_char "." token = pred level.
Proof.
  unfold token, token_of. fold segs.
  rewrite count_dot_join by apply segs_digits. by rewrite segs_length.
Qed.

Lemma line_tidy : tidy line.
Proof.
  destruct (join_head_digit segs segs_nonempty segs_digits) as (c0 & r & E & Hd).
  unfold line, token, token_of. fold segs. rewrite E.
  split; [|split].
  - done.
  - simpl. by apply digit_not_space.
  - destruct Ht as (? & ? & ?).
    apply trimEnd_app; [done|]. by apply trimEnd_app.
Qed.

Lemma line_no_newline : no_newline line.
Proof.
  unfold no_newline, line, token, token_of. fold segs.
  rewrite !all_chars_app. apply andb_true_iff. split.
  - apply join_all_chars; [done|]. apply Forall_forall. intros s Hs.
    pose proof segs_digits as Hd. rewrite Forall_forall in Hd.
    destruct (Hd s Hs) as [_ Hds]. revert Hds. apply all_chars_impl.
    intros ch Hch. by rewrite digit_not_newline.
  - apply andb_true_iff. split; [done|]. by apply no_terminator_no_newline.
Qed.
End Line.

Lemma filter_all {A} (P : A → Prop) `{∀ x, Decision (P x)} (l : list A) :
  Forall P l → filter P l = l.
Proof.
  induction 1 as [|x l Hx Hl IH]; [done|].
  rewrite filter_cons_True by done. by rewrite IH.
Qed.

Lemma item_of_line_key level c t w :
  (1 ≤ level ≤ 3)%nat → length c = 3%nat → tidy t → no_terminator t →
  key (item_of_line (token_of level c +:+ " " +:+ t) w).1 = (t, level).
Proof.
  intros Hl Hc Ht Hnt. unfold item_of_line.
  rewrite line_match by done.
  unfold createListItem, fresh_item_id, gen_bind, gen_ret, draw, key, level_of.
  cbn [fst li_text li_level]. rewrite trim_tidy by done. f_equal.
  rewrite level_of_clamp, line_token_dots by done. lia.
Qed.

Lemma render_printable items : ∀ c,
  length c = 3%nat → Forall printable items →
  Forall tidy (render_items c items)
  ∧ Forall no_newline (render_items c items)
  ∧ (render_items c items = [] → items = [])
  ∧ ∀ w, map key (gen_map item_of_line (render_items c items) w).1 = map key items.
Proof.
  induction items as [|a items IH]; intros c Hc Hp; [by repeat split|].
  inversion Hp as [|? ? [Hne Hnt] Hp']; subst.
  pose proof (level_of_range a) as Hl.
  pose proof (bump_counters_length (level_of a) c) as Hc'. rewrite Hc in Hc'.
  pose proof (tidy_trim _ Hne) as Ht.
  destruct (IH _ Hc' Hp') as (IH1 & IH2 & IH3 & IH4).
  cbn [render_items]. rewrite (proj2 (truthy_true _) Hne).
  repeat split.
  - constructor; [by apply line_tidy | done].
  - constructor; [by apply line_no_newline | done].
  - discriminate.
  - intros w. cbn [gen_map map]. unfold gen_bind, gen_ret.
    pose proof (item_of_line_key (level_of a) (bump_counters (level_of a) c)
                  (trim (li_text a)) w Hl Hc' Ht Hnt) as Hk.
    destruct (item_of_line _ w) as [b w1].
    specialize (IH4 w1). destruct (gen_map item_of_line _ w1) as [bs w2].
    simpl in *. by rewrite Hk, IH4.
Qed.

Lemma content_lines_rendered items :
  items ≠ [] → Forall printable items →
  content_lines (rendered items) = render_items [0; 0; 0]%nat items.
Proof.
  intros Hne Hp.
  destruct (render_printable items [0; 0; 0]%nat eq_refl Hp) as (H1 & H2 & H3 & _).
  unfold content_lines, rendered.
  assert (Forall (λ l, truthy l = true) (render_items [0; 0; 0]%nat items)) as Htr.
  { eapply Forall_impl; [exact H1|]. intros l (? & _). by apply truthy_true. }
  rewrite (filter_all _ _ Htr).
  rewrite split_lines_join by (done || tauto).
  assert (map trim (render_items [0; 0; 0]%nat items)
          = render_items [0; 0; 0]%nat items) as ->.
  { clear -H1. induction H1 as [|x l Hx Hl IH]; [done|].
    simpl. by rewrite trim_tidy, IH. }
  by apply filter_all.
Qed.

(** Rendering, reading the text back and rendering again. *)
Lemma rendered_reread items w :
  Forall printable items →
  rendered (normalizeListItems [] (rendered items) w).1 = rendered items.
Proof.
  intros Hp. destruct items as [|a items]; [reflexivity|].
  unfold normalizeListItems.
  rewrite content_lines_rendered by done.
  destruct (render_printable (a :: items) [0; 0; 0]%nat eq_refl Hp)
    as (_ & _ & H3 & H4).
  destruct (render_items [0; 0; 0]%nat (a :: items)) as [|l ls] eqn:E.
  { by specialize (H3 eq_refl). }
  unfold rendered. f_equal. f_equal.
  apply render_items_key, H4.
Qed.
End ListFacts.

Definition round_trip (items : list ListItem) (w : Entropy) : Prop :=
  let '(text1, w1) := formatNumberedList (map raw_of_item items) w in
  let '(items', w2) := normalizeListItems [] text1 w1 in
  let '(text2, _) := formatNumberedList (map raw_of_item items') w2 in
  text2 = text1.

Definition well_formed_item (it : ListItem) : Prop := 1 ≤ li_level it ≤ 3.




(** C10: an item whose trimmed text is empty still counts.  Three level-1
    items with texts a, (empty), b render as the lines [1 a] and [3 b], not
    [1 a] and [2 b]; and in general an item whose text is empty or holds
    only white space gives no line of its own, while the lines after it are
    numbered from the counters that the item has advanced. *)
Theorem formatNumberedList_blank_item_counts :
  (∀ w, (formatNumberedList [RawString "a"; RawString ""; RawString "b"] w).1
        = "1 a" +:+ Js.nl +:+ "3 b")
  ∧ (∀ w, (formatNumberedList [RawString "a"; RawString ""; RawString "b"] w).1
          ≠ "1 a" +:+ Js.nl +:+ "2 b")
  ∧ (∀ counters item rest,
       Js.trim (li_text item) = "" →
       filter (λ l, Js.truthy l = true) (render_items counters (item :: rest))
       = filter (λ l, Js.truthy l = true)
                (render_items (bump_counters (level_of item) counters) rest)).
Proof.
  split; [|split].
  - intros w. reflexivity.
  - intros w. vm_compute. discriminate.
  - intros counters item rest Hblank. cbn [render_items]. rewrite Hblank.
    cbn [Js.truthy Js.is_empty negb]. by rewrite filter_cons_False.
Qed.

Lemma formatNumberedList_blank_item_counts_witness :
  let blank := mkListItem "i2" "   " 1 in
  let last := mkListItem "i3" "b" 1 in
  filter (λ l, Js.truthy l = true) (render_items [1; 0; 0]%nat [blank; last])
  = ["3 b"].
Proof.
  intros blank last.
  refine (eq_trans
            (proj2 (proj2 formatNumberedList_blank_item_counts)
               [1; 0; 0]%nat blank [last] _) _).
  - vm_compute. reflexivity.
  - vm_compute. reflexivity.
Defined.

(** ** The queue loop *)

Module QueueFacts.

(** *** The queue and the in-degrees do not depend on the bookkeeping *)

Definition drop_edge (st : list string * gmap string Z) (target : string)
  : list string * gmap string Z :=
  let '(queue, indegree) := st in
  let indegree' := <[target := default 0 (indegree !! target) - 1]> indegree in
  (if default 0 (indegree' !! target) =? 0 then queue ++ [target] else queue,
   indegree').

Section Bare.
Variable outgoing : gmap string (list string).

Definition targets_of (u : string) : list string := default [] (outgoing !! u).

Definition shift_bare (u : string) (st : list string * gmap string Z)
  : list string * gmap string Z :=
  foldl drop_edge st (targets_of u).

(** The ids in the order in which the loop shifts them. *)
Fixpoint trace (budget : nat) (st : list string * gmap string Z) : list string :=
  match budget with
  | O => []
  | S budget' =>
      match st with
      | ([], _) => []
      | (u :: queue, indegree) => u :: trace budget' (shift_bare u (queue, indegree))
      end
  end.

Fixpoint final (budget : nat) (st : list string * gmap string Z)
  : list string * gmap string Z :=
  match budget with
  | O => st
  | S budget' =>
      match st with
      | ([], _) => st
      | (u :: queue, indegree) => final budget' (shift_bare u (queue, indegree))
      end
  end.

Context {X : Type}.
Variable on_shift : string → X → X.
Variable on_target : string → string → X → X.

Definition visit (x : X) (u : string) : X :=
  foldl (λ x t, on_target u t x) (on_shift u x) (targets_of u).

Lemma follow_edges_split u targets : ∀ st x,
  foldl (follow_edge on_target u) (st, x) targets
  = (foldl drop_edge st targets, foldl (λ x t, on_target u t x) x targets).
Proof.
  induction targets as [|t targets IH]; intros [queue indegree] x; [done|].
  cbn [foldl]. rewrite <- IH. done.
Qed.

Lemma shift_one_split u queue indegree x :
  shift_one outgoing on_shift on_target u (queue, indegree, x)
  = (shift_bare u (queue, indegree), visit x u).
Proof. unfold shift_one. apply follow_edges_split. Qed.

Lemma queue_loop_split budget : ∀ st x,
  queue_loop outgoing on_shift on_target budget (st, x)
  = (final budget st, foldl visit x (trace budget st)).
Proof.
  induction budget as [|budget IH]; intros [queue indegree] x; [done|].
  destruct queue as [|u queue]; [done|].
  cbn [queue_loop trace final foldl].
  rewrite shift_one_split. apply IH.
Qed.
End Bare.

(** *** The budget empties the queue *)

Definition positive (m : gmap string Z) : gmap string Z :=
  filter (λ kv, 0 < kv.2) m.

Definition measure (st : list string * gmap string Z) : nat :=
  (length st.1 + size (positive st.2))%nat.

Lemma drop_edge_measure st t : measure (drop_edge st t) = measure st.
Proof.
  destruct st as [queue indegree]. unfold drop_edge, measure, positive.
  cbn [fst snd]. rewrite lookup_insert_eq. cbn [from_option]; unfold id.
  destruct (indegree !! t) as [v|] eqn:E; cbn [from_option]; unfold id.
  - destruct (Z.eqb_spec (v - 1) 0) as [E0|N0].
    + rewrite map_filter_insert_False by (simpl; lia).
      rewrite map_filter_delete, map_size_delete_Some.
      * rewrite length_app. simpl.
        assert (size (filter (λ kv : string * Z, 0 < kv.2) indegree) ≠ 0%nat).
        { intros Hz. apply map_size_empty_inv in Hz.
          assert (filter (λ kv : string * Z, 0 < kv.2) indegree !! t = Some v) as Hl.
          { apply map_lookup_filter_Some. split; [done|]. simpl. lia. }
          rewrite Hz in Hl. by rewrite lookup_empty in Hl. }
        lia.
      * exists v. apply map_lookup_filter_Some. split; [done|]. simpl. lia.
    + destruct (decide (0 < v - 1)) as [Hp|Hn].
      * rewrite map_filter_insert_True by done.
        rewrite map_size_insert_Some; [done|].
        exists v. apply map_lookup_filter_Some. split; [done|]. simpl. lia.
      * rewrite map_filter_insert_not'; [done|simpl; lia|].
        intros y Hy. simpl. rewrite E in Hy. inversion Hy; subst. lia.
  - change (0 - 1 =? 0) with false. cbn iota.
    rewrite map_filter_insert_not'; [done|simpl; lia|].
    intros y Hy. by rewrite E in Hy.
Qed.

Lemma shift_bare_measure outgoing u st :
  measure (shift_bare outgoing u st) = measure st.
Proof.
  unfold shift_bare. generalize (targets_of outgoing u). intros l. revert st.
  induction l as [|t l IH]; intros st; [done|].
  cbn [foldl]. by rewrite IH, drop_edge_measure.
Qed.

Lemma final_empty outgoing budget : ∀ st,
  (measure st ≤ budget)%nat → (final outgoing budget st).1 = [].
Proof.
  induction budget as [|budget IH]; intros [queue indegree] H.
  - unfold measure in H. simpl in *. destruct queue; [done|simpl in H; lia].
  - destruct queue as [|u queue]; [done|].
    cbn [final]. apply IH. rewrite shift_bare_measure.
    unfold measure in *. simpl in *. lia.
Qed.

Lemma measure_budget queue indegree :
  (measure (queue, indegree) ≤ loop_budget queue indegree)%nat.
Proof.
  unfold measure, loop_budget, positive. simpl.
  pose proof (map_size_filter (λ kv : string * Z, 0 < kv.2) indegree). lia.
Qed.

(** The loop of the embedding stops because its queue is empty, not because
    its budget is spent. *)
Lemma queue_loop_empties {X} outgoing (on_shift : string → X → X) on_target
    queue indegree x :
  (run_queue outgoing on_shift on_target queue indegree x).1.1 = [].
Proof.
  unfold run_queue. rewrite (queue_loop_split outgoing on_shift on_target).
  cbn [fst]. apply final_empty, measure_budget.
Qed.

Lemma run_queue_trace {X} outgoing (on_shift : string → X → X) on_target
    queue indegree x :
  (run_queue outgoing on_shift on_target queue indegree x).2
  = foldl (visit outgoing on_shift on_target) x
          (trace outgoing (loop_budget queue indegree) (queue, indegree)).
Proof.
  unfold run_queue. by rewrite (queue_loop_split outgoing on_shift on_target).
Qed.
End QueueFacts.

(** ** Correctness of the queue loop on a graph *)

Module Kahn.
Import QueueFacts.

Fixpoint dec (indegree : gmap string Z) (targets : list string) : gmap string Z :=
  match targets with
  | [] => indegree
  | t :: targets' => dec (<[t := default 0 (indegree !! t) - 1]> indegree) targets'
  end.

Fixpoint pushed (indegree : gmap string Z) (targets : list string) : list string :=
  match targets with
  | [] => []
  | t :: targets' =>
      (if default 0 (indegree !! t) - 1 =? 0 then [t] else [])
        ++ pushed (<[t := default 0 (indegree !! t) - 1]> indegree) targets'
  end.

Definition occ (v : string) (targets : list string) : nat :=
  length (filter (λ t, t = v) targets).

Lemma default_some {A} (d x : A) : default d (Some x) = x.
Proof. done. Qed.

Lemma foldl_drop_edge targets : ∀ queue indegree,
  foldl drop_edge (queue, indegree) targets
  = (queue ++ pushed indegree targets, dec indegree targets).
Proof.
  induction targets as [|t targets IH]; intros queue indegree.
  - simpl. by rewrite app_nil_r.
  - cbn [foldl pushed dec]. unfold drop_edge at 2.
    rewrite lookup_insert_eq, default_some.
    destruct (default 0 (indegree !! t) - 1 =? 0); rewrite IH.
    + by rewrite <- app_assoc.
    + done.
Qed.

Lemma occ_cons_eq v targets : occ v (v :: targets) = S (occ v targets).
Proof. unfold occ. by rewrite filter_cons_True. Qed.

Lemma occ_cons_ne v t targets : t ≠ v → occ v (t :: targets) = occ v targets.
Proof. intros. unfold occ. by rewrite filter_cons_False. Qed.

Lemma dec_lookup targets : ∀ indegree v,
  default 0 (dec indegree targets !! v)
  = default 0 (indegree !! v) - Z.of_nat (occ v targets).
Proof.
  induction targets as [|t targets IH]; intros indegree v.
  - simpl. unfold occ. simpl. lia.
  - cbn [dec]. rewrite IH. destruct (decide (t = v)) as [->|Hne].
    + rewrite lookup_insert_eq, default_some, occ_cons_eq. lia.
    + rewrite lookup_insert_ne, occ_cons_ne by done. done.
Qed.

Lemma pushed_spec targets : ∀ indegree v,
  v ∈ pushed indegree targets
  ↔ 1 ≤ default 0 (indegree !! v) ≤ Z.of_nat (occ v targets).
Proof.
  induction targets as [|t targets IH]; intros indegree v.
  - simpl. unfold occ. simpl. rewrite elem_of_nil. lia.
  - cbn [pushed]. rewrite elem_of_app, IH.
    destruct (decide (t = v)) as [->|Hne].
    + rewrite lookup_insert_eq, default_some, occ_cons_eq, Nat2Z.inj_succ.
      destruct (Z.eqb_spec (default 0 (indegree !! v) - 1) 0).
      * rewrite list_elem_of_singleton. split; [intros _; lia | intros _; by left].
      * rewrite elem_of_nil. split; [intros [[]|?]; lia | intros ?; right; lia].
    + rewrite lookup_insert_ne, occ_cons_ne by done.
      destruct (default 0 (indegree !! t) - 1 =? 0).
      * rewrite list_elem_of_singleton. naive_solver.
      * rewrite elem_of_nil. naive_solver.
Qed.

Lemma pushed_nodup targets : ∀ indegree, NoDup (pushed indegree targets).
Proof.
  induction targets as [|t targets IH]; intros indegree; [constructor|].
  cbn [pushed].
  destruct (Z.eqb_spec (default 0 (indegree !! t) - 1) 0) as [E0|N0]; [|apply IH].
  simpl. constructor; [|apply IH].
  rewrite pushed_spec, lookup_insert_eq, default_some. lia.
Qed.

Section Graph.
Variable V : list string.
Variable E : list (string * string).
Variable outgoing : gmap string (list string).

Hypothesis V_nodup : NoDup V.
Hypothesis E_closed : ∀ e, e ∈ E → e.1 ∈ V ∧ e.2 ∈ V.
Hypothesis outgoing_spec :
  ∀ u, targets_of outgoing u = map snd (filter (λ e, e.1 = u) E).

(** The edges into [v] from ids that are not in [P]. *)
Definition cnt (P : list string) (v : string) : nat :=
  length (filter (λ e, e.2 = v ∧ e.1 ∉ P) E).

Definition mult (u v : string) : nat :=
  length (filter (λ e, e.1 = u ∧ e.2 = v) E).

Lemma occ_targets u v : occ v (targets_of outgoing u) = mult u v.
Proof.
  rewrite outgoing_spec. unfold occ, mult. clear.
  induction E as [|e l IH]; [done|].
  rewrite !filter_cons. repeat case_decide; simpl;
    rewrite ?filter_cons; repeat case_decide; simpl; rewrite ?IH; naive_solver.
Qed.

Lemma cnt_snoc P u v : u ∉ P → cnt P v = (cnt (P ++ [u]) v + mult u v)%nat.
Proof.
  intros Hu. unfold cnt, mult. clear -Hu.
  induction E as [|e l IH]; [done|].
  assert ((e.2 = v ∧ e.1 ∉ P ++ [u]) → (e.2 = v ∧ e.1 ∉ P)) as F1.
  { rewrite elem_of_app. tauto. }
  assert ((e.1 = u ∧ e.2 = v) → (e.2 = v ∧ e.1 ∉ P)) as F2.
  { intros [-> ->]. done. }
  assert ((e.2 = v ∧ e.1 ∉ P ++ [u]) → (e.1 = u ∧ e.2 = v) → False) as F3.
  { rewrite elem_of_app, list_elem_of_singleton. tauto. }
  assert ((e.2 = v ∧ e.1 ∉ P) → (e.2 = v ∧ e.1 ∉ P ++ [u]) ∨ (e.1 = u ∧ e.2 = v)) as F4.
  { rewrite elem_of_app, list_elem_of_singleton.
    destruct (decide (e.1 = u)); tauto. }
  rewrite !filter_cons.
  destruct (decide (e.2 = v ∧ e.1 ∉ P)), (decide (e.2 = v ∧ e.1 ∉ P ++ [u])),
    (decide (e.1 = u ∧ e.2 = v)); simpl; rewrite ?IH; try lia; exfalso; tauto.
Qed.

Lemma cnt_zero P v : cnt P v = 0%nat ↔ ∀ u, (u, v) ∈ E → u ∈ P.
Proof.
  unfold cnt. split.
  - intros H u Hu. destruct (decide (u ∈ P)) as [|Hn]; [done|].
    assert ((u, v) ∈ filter (λ e, e.2 = v ∧ e.1 ∉ P) E) as Hin.
    { apply list_elem_of_filter. by repeat split. }
    destruct (filter _ E); [by apply elem_of_nil in Hin | done].
  - intros H. destruct (filter _ E) as [|e l] eqn:Ef; [done|].
    assert (e ∈ filter (λ e, e.2 = v ∧ e.1 ∉ P) E) as Hin
      by (rewrite Ef; left).
    apply list_elem_of_filter in Hin as [[He1 He2] Hin].
    destruct e as [a b]. simpl in *. subst b. by specialize (H a Hin).
Qed.

Lemma mult_pos u v : (0 < mult u v)%nat → (u, v) ∈ E.
Proof.
  unfold mult. destruct (filter _ E) as [|e l] eqn:Ef; [simpl; lia|].
  intros _.
  assert (e ∈ filter (λ e, e.1 = u ∧ e.2 = v) E) as Hin by (rewrite Ef; left).
  apply list_elem_of_filter in Hin as [[He1 He2] Hin].
  destruct e; simpl in *; by subst.
Qed.

Record Inv (P Q : list string) (indegree : gmap string Z) : Prop := mkInv {
  inv_nodup : NoDup (P ++ Q);
  inv_sub : ∀ x, x ∈ P ++ Q → x ∈ V;
  inv_indeg : ∀ v, default 0 (indegree !! v) = Z.of_nat (cnt P v);
  inv_zero : ∀ v, v ∈ V → (v ∈ P ++ Q ↔ cnt P v = 0%nat);
  inv_topo : ∀ P1 v P2, P = P1 ++ v :: P2 → cnt P1 v = 0%nat
}.

Lemma inv_step P u Q indegree :
  Inv P (u :: Q) indegree →
  Inv (P ++ [u]) (shift_bare outgoing u (Q, indegree)).1
      (shift_bare outgoing u (Q, indegree)).2.
Proof.
  intros [Hnd Hsub Hind Hzero Htopo].
  unfold shift_bare. rewrite foldl_drop_edge. cbn [fst snd].
  set (T := targets_of outgoing u).
  assert (u ∉ P) as HuP.
  { apply NoDup_app in Hnd as (_ & Hd & _). intros Hin.
    apply (Hd u Hin). left. }
  assert (u ∈ V) as HuV by (apply Hsub, elem_of_app; right; left).
  assert (∀ v, v ∈ pushed indegree T ↔
               cnt (P ++ [u]) v = 0%nat ∧ (0 < mult u v)%nat) as HN.
  { intros v. rewrite pushed_spec, Hind. unfold T. rewrite occ_targets.
    pose proof (cnt_snoc P u v HuP). lia. }
  assert (∀ v, v ∈ pushed indegree T → v ∈ V ∧ v ∉ P ++ u :: Q) as HNV.
  { intros v [Hz Hm]%HN. pose proof (mult_pos _ _ Hm) as He.
    destruct (E_closed _ He) as [_ HvV]. simpl in HvV. split; [done|].
    rewrite (Hzero v HvV). pose proof (cnt_snoc P u v HuP). lia. }
  assert ((P ++ [u]) ++ Q ++ pushed indegree T
          = (P ++ u :: Q) ++ pushed indegree T) as EL.
  { by rewrite <- !app_assoc. }
  split.
  - rewrite EL. apply NoDup_app. split; [done|]. split; [|apply pushed_nodup].
    intros x Hx Hp. by apply HNV in Hp as [_ ?].
  - intros x. rewrite EL, elem_of_app. intros [Hx|Hx]; [by apply Hsub|].
    by apply HNV in Hx as [? _].
  - intros v. rewrite dec_lookup, Hind. unfold T. rewrite occ_targets.
    pose proof (cnt_snoc P u v HuP). lia.
  - intros v HvV. rewrite EL, elem_of_app, (Hzero v HvV), HN.
    pose proof (cnt_snoc P u v HuP). lia.
  - intros P1 v P2 Hsplit.
    destruct (decide (P2 = [])) as [->|Hne].
    + apply app_inj_tail in Hsplit as [<- <-].
      apply (Hzero u HuV). apply elem_of_app. right. left.
    + destruct (exists_last Hne) as (P2' & x & ->). clear Hne.
      rename P2' into P2.
      change (P1 ++ v :: P2 ++ [x]) with (P1 ++ (v :: P2) ++ [x]) in Hsplit.
      rewrite app_assoc in Hsplit.
      apply app_inj_tail in Hsplit as [-> ->].
      by eapply Htopo.
Qed.

Lemma inv_loop budget : ∀ P Q indegree,
  Inv P Q indegree → (measure (Q, indegree) ≤ budget)%nat →
  Inv (P ++ trace outgoing budget (Q, indegree)) []
      (final outgoing budget (Q, indegree)).2.
Proof.
  induction budget as [|budget IH]; intros P Q indegree HI Hm.
  - unfold measure in Hm. simpl in Hm. destruct Q; [|simpl in Hm; lia].
    simpl. by rewrite app_nil_r.
  - destruct Q as [|u Q]; [simpl; by rewrite app_nil_r|].
    cbn [trace final].
    pose proof (inv_step _ _ _ _ HI) as HI'.
    pose proof (shift_bare_measure outgoing u (Q, indegree)) as Hm'.
    destruct (shift_bare outgoing u (Q, indegree)) as [Q' indegree'].
    replace (P ++ u :: trace outgoing budget (Q', indegree'))
      with ((P ++ [u]) ++ trace outgoing budget (Q', indegree'))
      by (by rewrite <- app_assoc).
    apply IH; [done|]. unfold measure in *. simpl in *. lia.
Qed.

Variable queue0 : list string.
Variable indegree0 : gmap string Z.

Hypothesis indegree0_spec :
  ∀ v, default 0 (indegree0 !! v) = Z.of_nat (cnt [] v).
Hypothesis queue0_nodup : NoDup queue0.
Hypothesis queue0_spec :
  ∀ v, v ∈ queue0 ↔ v ∈ V ∧ default 0 (indegree0 !! v) = 0.

(** The ids in the order in which the loop of the embedding shifts them. *)
Definition order : list string :=
  trace outgoing (loop_budget queue0 indegree0) (queue0, indegree0).

Lemma inv_order :
  Inv order [] (final outgoing (loop_budget queue0 indegree0) (queue0, indegree0)).2.
Proof.
  apply (inv_loop _ [] queue0 indegree0); [|apply measure_budget].
  split.
  - done.
  - intros x Hx. by apply queue0_spec in Hx as [? _].
  - done.
  - intros v Hv. simpl. rewrite queue0_spec, indegree0_spec. split; [lia|].
    intros ->. done.
  - intros P1 v P2 H. by destruct P1.
Qed.

Lemma order_nodup : NoDup order.
Proof. pose proof (inv_nodup _ _ _ inv_order) as H. by rewrite app_nil_r in H. Qed.

Lemma order_sub x : x ∈ order → x ∈ V.
Proof. intros H. apply (inv_sub _ _ _ inv_order). by rewrite app_nil_r. Qed.

(** Every id is shifted after all the sources of its incoming edges. *)
Lemma order_topo P1 v P2 u :
  order = P1 ++ v :: P2 → (u, v) ∈ E → u ∈ P1.
Proof.
  intros Hs He. pose proof (inv_topo _ _ _ inv_order _ _ _ Hs) as Hz.
  by apply cnt_zero with (u := u) in Hz.
Qed.

(** An id that is never shifted has an incoming edge from another such id. *)
Lemma order_stuck v :
  v ∈ V → v ∉ order → ∃ u, (u, v) ∈ E ∧ u ∈ V ∧ u ∉ order.
Proof.
  intros HvV Hv.
  pose proof (inv_zero _ _ _ inv_order v HvV) as Hz. rewrite app_nil_r in Hz.
  destruct (decide (cnt order v = 0%nat)) as [Ez|Nz]; [by apply Hz in Ez|].
  unfold cnt in Nz.
  destruct (filter (λ e, e.2 = v ∧ e.1 ∉ order) E) as [|e l] eqn:Ef; [done|].
  assert (e ∈ filter (λ e, e.2 = v ∧ e.1 ∉ order) E) as Hin by (rewrite Ef; left).
  apply list_elem_of_filter in Hin as [[He1 He2] Hin].
  destruct e as [a b]. simpl in *. subst b.
  exists a. repeat split; try done. by apply (E_closed _ Hin).
Qed.

Lemma order_length : (length order ≤ length V)%nat.
Proof.
  apply submseteq_length, NoDup_submseteq; [apply order_nodup|apply order_sub].
Qed.

Lemma order_full : length order = length V → ∀ v, v ∈ V → v ∈ order.
Proof.
  intros Hlen v Hv.
  assert (order ≡ₚ V) as Hp.
  { apply submseteq_length_Permutation; [|lia].
    apply NoDup_submseteq; [apply order_nodup|apply order_sub]. }
  by rewrite Hp.
Qed.

(** *** Cycles *)

Definition edge (a b : string) : Prop := (a, b) ∈ E.
Definition acyclic : Prop := ∀ x, ¬ tc edge x x.

Inductive chain : list string → Prop :=
| chain_one x : chain [x]
| chain_cons x y l : edge x y → chain (y :: l) → chain (x :: y :: l).

Lemma chain_reach x l y : chain (x :: l) → y ∈ l → tc edge x y.
Proof.
  revert x. induction l as [|z l IH]; intros x Hc Hy; [by apply elem_of_nil in Hy|].
  inversion Hc; subst.
  apply elem_of_cons in Hy as [->|Hy]; [by apply tc_once|].
  eapply tc_l; [done|]. by apply IH.
Qed.

Lemma chain_repeat l : chain l → ¬ NoDup l → ∃ x, tc edge x x.
Proof.
  induction l as [|a l IH]; intros Hc Hn; [destruct Hn; constructor|].
  destruct (decide (a ∈ l)) as [Ha|Ha].
  - exists a. by eapply chain_reach.
  - apply IH.
    + inversion Hc; subst; [destruct Hn; repeat constructor; set_solver|done].
    + intros Hnd. apply Hn. by constructor.
Qed.

Lemma stuck_chain n :
  (∃ v, v ∈ V ∧ v ∉ order) →
  ∃ l, length l = S n ∧ chain l ∧ ∀ x, x ∈ l → x ∈ V ∧ x ∉ order.
Proof.
  intros (v & Hv & Hn). induction n as [|n (l & Hlen & Hc & Hl)].
  - exists [v]. repeat split; [constructor|set_solver..].
  - destruct l as [|y l]; [done|].
    destruct (Hl y ltac:(left)) as [HyV Hyn].
    destruct (order_stuck y HyV Hyn) as (u & He & HuV & Hun).
    exists (u :: y :: l). split; [simpl in *; lia|]. split; [by constructor|].
    intros x [->|Hx]%elem_of_cons; [done|by apply Hl].
Qed.

Lemma acyclic_order_full : acyclic → length order = length V.
Proof.
  intros Hac. pose proof order_length as Hle.
  destruct (decide (length order = length V)) as [|Hne]; [done|]. exfalso.
  assert (∃ v, v ∈ V ∧ v ∉ order) as Hex.
  { destruct (decide (Forall (λ v, v ∈ order) V)) as [Hall|Hnall].
    - rewrite Forall_forall in Hall.
      assert (length V ≤ length order)%nat; [|lia].
      by apply submseteq_length, NoDup_submseteq.
    - apply not_Forall_Exists in Hnall; [|apply _].
      apply Exists_exists in Hnall as (v & ? & ?). eauto. }
  destruct (stuck_chain (length V) Hex) as (l & Hlen & Hc & Hl).
  destruct (chain_repeat l Hc) as [x Hx]; [|by apply (Hac x)].
  intros Hnd.
  assert (length l ≤ length V)%nat; [|lia].
  apply submseteq_length, NoDup_submseteq; [done|]. intros x Hx. by apply Hl.
Qed.

Lemma tc_before x y :
  tc edge x y → ∀ P1 P2, order = P1 ++ y :: P2 → x ∈ P1.
Proof.
  induction 1 as [x y He|x z y He Htc IH]; intros P1 P2 Hs.
  - by eapply order_topo.
  - specialize (IH P1 P2 Hs).
    apply list_elem_of_split in IH as (A & B & ->).
    rewrite <- app_assoc in Hs. simpl in Hs.
    apply elem_of_app. left. by eapply order_topo.
Qed.

Lemma order_full_acyclic : length order = length V → acyclic.
Proof.
  intros Hlen x Htc.
  assert (x ∈ V) as HxV.
  { inversion Htc; subst;
      match goal with He : edge x _ |- _ => by apply (E_closed _ He) end. }
  pose proof (order_full Hlen x HxV) as Hx.
  apply list_elem_of_split in Hx as (P1 & P2 & Hs).
  pose proof (tc_before x x Htc P1 P2 Hs) as Hin.
  pose proof order_nodup as Hnd. rewrite Hs in Hnd.
  apply NoDup_app in Hnd as (_ & Hd & _). apply (Hd x Hin). left.
Qed.

Theorem order_length_acyclic : length order = length V ↔ acyclic.
Proof. split; [apply order_full_acyclic | apply acyclic_order_full]. Qed.
End Graph.
End Kahn.

(** ** Graph validator *)

Module ValidatorFacts.
Import QueueFacts.

Definition str_of (v : jsval) : string :=
  match v with JStr s => s | _ => "" end.

Definition pair_of (edge : jsval) : string * string :=
  (str_of (prop edge "from"), str_of (prop edge "to")).

(** What the first loop demands of a node, and what it records. *)
Definition node_okb (node : jsval) : bool :=
  match prop node "id" with
  | JStr id =>
      Js.truthy id && role_ok (prop node "role")
      && is_string_type (prop node "label") && content_ok (prop node "content")
  | _ => false
  end.

Definition add_node (t : Tally) (id : string) : Tally :=
  {| t_nodeIds := {[id]} ∪ t_nodeIds t;
     t_degree := <[id := 0]> (t_degree t);
     t_indegree := <[id := 0]> (t_indegree t);
     t_outgoing := <[id := []]> (t_outgoing t) |}.

Lemma check_nodes_inr nodes : ∀ t0 t,
  check_nodes nodes t0 = inr t ↔
    Forall (λ n, node_okb n = true) nodes
    ∧ NoDup (map id_of nodes)
    ∧ (∀ id, id ∈ map id_of nodes → id ∉ t_nodeIds t0)
    ∧ t = foldl add_node t0 (map id_of nodes).
Proof.
  induction nodes as [|node nodes IH]; intros t0 t.
  - simpl. split.
    + intros [= <-]. repeat split; [constructor..|]. intros id Hid. by apply elem_of_nil in Hid.
    + intros (_ & _ & _ & ->). done.
  - cbn [check_nodes map foldl].
    destruct (prop node "id") as [| | | |id| |] eqn:Eid;
      try (split; [discriminate | intros (Hf & _); inversion Hf as [|? ? Hn ?]; subst;
                     unfold node_okb in Hn; rewrite Eid in Hn; discriminate]).
    assert (id_of node = id) as -> by (unfold id_of; by rewrite Eid).
    destruct (Js.truthy id) eqn:Et; cbn [negb];
      [|split; [discriminate | intros (Hf & _); inversion Hf as [|? ? Hn ?]; subst;
                  unfold node_okb in Hn; rewrite Eid, Et in Hn; discriminate]].
    destruct (bool_decide_reflect (id ∈ t_nodeIds t0)) as [Hin|Hnin].
    { split; [discriminate|]. intros (_ & _ & Hd & _). exfalso.
      apply (Hd id); [left|done]. }
    destruct (role_ok (prop node "role")) eqn:Er; cbn [negb];
      [|split; [discriminate | intros (Hf & _); inversion Hf as [|? ? Hn ?]; subst;
                  unfold node_okb in Hn; rewrite Eid, Et, Er in Hn; discriminate]].
    destruct (is_string_type (prop node "label")) eqn:El; cbn [negb];
      [|split; [discriminate | intros (Hf & _); inversion Hf as [|? ? Hn ?]; subst;
                  unfold node_okb in Hn; rewrite Eid, Et, Er, El in Hn; discriminate]].
    destruct (content_ok (prop node "content")) eqn:Ec; cbn [negb];
      [|split; [discriminate | intros (Hf & _); inversion Hf as [|? ? Hn ?]; subst;
                  unfold node_okb in Hn; rewrite Eid, Et, Er, El, Ec in Hn; discriminate]].
    fold (add_node t0 id). rewrite IH. split.
    + intros (Hf & Hnd & Hd & ->). repeat split.
      * constructor; [|done]. unfold node_okb. by rewrite Eid, Et, Er, El, Ec.
      * constructor; [|done]. intros Hid. apply (Hd id Hid). simpl. set_solver.
      * intros x [->|Hx]%elem_of_cons; [done|].
        intros Hx0. apply (Hd x Hx). simpl. set_solver.
    + intros (Hf & Hnd & Hd & ->). inversion Hf; subst. inversion Hnd; subst.
      repeat split; try done.
      intros x Hx. simpl. intros [->%elem_of_singleton|Hx0]%elem_of_union; [done|].
      apply (Hd x); [by right|done].
Qed.

Lemma add_nodes_ids ids : ∀ t0 x,
  x ∈ t_nodeIds (foldl add_node t0 ids) ↔ x ∈ ids ∨ x ∈ t_nodeIds t0.
Proof.
  induction ids as [|id ids IH]; intros t0 x.
  - simpl. rewrite elem_of_nil. tauto.
  - cbn [foldl]. rewrite IH. simpl. rewrite elem_of_cons. set_solver.
Qed.

Definition zero_map (m : gmap string Z) : Prop := ∀ v, default 0 (m !! v) = 0.
Definition nil_map (m : gmap string (list string)) : Prop :=
  ∀ v, default [] (m !! v) = [].

Lemma add_nodes_zero ids : ∀ t0,
  zero_map (t_degree t0) → zero_map (t_indegree t0) → nil_map (t_outgoing t0) →
  zero_map (t_degree (foldl add_node t0 ids))
  ∧ zero_map (t_indegree (foldl add_node t0 ids))
  ∧ nil_map (t_outgoing (foldl add_node t0 ids)).
Proof.
  induction ids as [|id ids IH]; intros t0 H1 H2 H3; [done|].
  cbn [foldl]. apply IH; simpl; intros v;
    (destruct (decide (id = v)) as [->|?];
     [by rewrite lookup_insert_eq | by rewrite lookup_insert_ne]).
Qed.

(** What the second loop demands of an edge, and what it records. *)
Definition edge_okb (ids : gset string) (edge : jsval) : bool :=
  match prop edge "from", prop edge "to" with
  | JStr a, JStr b =>
      Js.truthy a && Js.truthy b && bool_decide (a ∈ ids) && bool_decide (b ∈ ids)
      && negb (String.eqb a b)
  | _, _ => false
  end.

Definition add_edge (t : Tally) (e : string * string) : Tally :=
  {| t_nodeIds := t_nodeIds t;
     t_degree := bump e.2 (bump e.1 (t_degree t));
     t_indegree := bump e.2 (t_indegree t);
     t_outgoing := <[e.1 := default [] (t_outgoing t !! e.1) ++ [e.2]]> (t_outgoing t) |}.

Lemma check_edges_inr edges : ∀ t0 t,
  check_edges edges t0 = inr t ↔
    Forall (λ e, edge_okb (t_nodeIds t0) e = true) edges
    ∧ t = foldl add_edge t0 (map pair_of edges).
Proof.
  induction edges as [|edge edges IH]; intros t0 t.
  - simpl. split; [intros [= <-]; by split | by intros [_ ->]].
  - cbn [check_edges map foldl]. unfold edge_okb at 1, pair_of at 1.
    destruct (prop edge "from") as [| | | |a| |] eqn:Ea;
      try (split; [discriminate | intros (Hf & _); inversion Hf as [|? ? Hn ?]; subst;
                     unfold edge_okb in Hn; rewrite Ea in Hn; discriminate]).
    destruct (prop edge "to") as [| | | |b| |] eqn:Eb;
      try (split; [discriminate | intros (Hf & _); inversion Hf as [|? ? Hn ?]; subst;
                     unfold edge_okb in Hn; rewrite Ea, Eb in Hn; discriminate]).
    cbn [str_of].
    destruct (Js.truthy a) eqn:Eta, (Js.truthy b) eqn:Etb; cbn [negb orb andb];
      try (split; [discriminate | intros (Hf & _); inversion Hf as [|? ? Hn ?]; subst;
                     unfold edge_okb in Hn; rewrite Ea, Eb, Eta, Etb in Hn; discriminate]).
    destruct (bool_decide (a ∈ t_nodeIds t0)) eqn:Eia,
             (bool_decide (b ∈ t_nodeIds t0)) eqn:Eib; cbn [negb orb andb];
      try (split; [discriminate | intros (Hf & _); inversion Hf as [|? ? Hn ?]; subst;
                     unfold edge_okb in Hn; rewrite Ea, Eb, Eta, Etb, Eia, Eib in Hn;
                     discriminate]).
    destruct (String.eqb a b) eqn:Eab; cbn [negb];
      [split; [discriminate | intros (Hf & _); inversion Hf as [|? ? Hn ?]; subst;
                  unfold edge_okb in Hn; rewrite Ea, Eb, Eta, Etb, Eia, Eib, Eab in Hn;
                  discriminate]|].
    change {| t_nodeIds := t_nodeIds t0;
              t_degree := bump b (bump a (t_degree t0));
              t_indegree := bump b (t_indegree t0);
              t_outgoing := <[a:=default [] (t_outgoing t0 !! a) ++ [b]]> (t_outgoing t0) |}
      with (add_edge t0 (a, b)).
    rewrite IH. cbn [t_nodeIds add_edge]. split.
    + intros (Hf & ->). split; [|done]. constructor; [|done].
      unfold edge_okb. by rewrite Ea, Eb, Eta, Etb, Eia, Eib, Eab.
    + intros (Hf & ->). inversion Hf; subst. by split.
Qed.

Lemma add_edges_ids pairs : ∀ t0, t_nodeIds (foldl add_edge t0 pairs) = t_nodeIds t0.
Proof. induction pairs as [|e pairs IH]; intros t0; [done|]. cbn [foldl]. by rewrite IH. Qed.

Lemma bump_lookup k m v :
  default 0 (bump k m !! v) = default 0 (m !! v) + (if decide (k = v) then 1 else 0).
Proof.
  unfold bump. destruct (decide (k = v)) as [->|?].
  - by rewrite lookup_insert_eq.
  - rewrite lookup_insert_ne by done. lia.
Qed.

Lemma add_edges_indegree pairs : ∀ t0 v,
  default 0 (t_indegree (foldl add_edge t0 pairs) !! v)
  = default 0 (t_indegree t0 !! v) + Z.of_nat (length (filter (λ e, e.2 = v) pairs)).
Proof.
  induction pairs as [|e pairs IH]; intros t0 v.
  - simpl. lia.
  - cbn [foldl]. rewrite IH. cbn [add_edge t_indegree]. rewrite bump_lookup.
    rewrite filter_cons. destruct (decide (e.2 = v)); simpl length; lia.
Qed.

Lemma add_edges_degree pairs : ∀ t0 v,
  default 0 (t_degree (foldl add_edge t0 pairs) !! v)
  = default 0 (t_degree t0 !! v)
    + Z.of_nat (length (filter (λ e, e.1 = v) pairs))
    + Z.of_nat (length (filter (λ e, e.2 = v) pairs)).
Proof.
  induction pairs as [|e pairs IH]; intros t0 v.
  - simpl. lia.
  - cbn [foldl]. rewrite IH. cbn [add_edge t_degree]. rewrite !bump_lookup.
    rewrite !filter_cons.
    destruct (decide (e.1 = v)), (decide (e.2 = v)); simpl length; lia.
Qed.

Lemma add_edges_outgoing pairs : ∀ t0 u,
  default [] (t_outgoing (foldl add_edge t0 pairs) !! u)
  = default [] (t_outgoing t0 !! u) ++ map snd (filter (λ e, e.1 = u) pairs).
Proof.
  induction pairs as [|e pairs IH]; intros t0 u.
  - simpl. by rewrite app_nil_r.
  - cbn [foldl]. rewrite IH. cbn [add_edge t_outgoing].
    rewrite filter_cons. destruct (decide (e.1 = u)) as [->|?].
    + rewrite lookup_insert_eq. simpl. by rewrite <- app_assoc.
    + by rewrite lookup_insert_ne.
Qed.
End ValidatorFacts.

(** The predicates of the claim, read on the nodes and the edges of a
    candidate graph. *)
Definition node_id_values (nodes : list jsval) : list jsval :=
  map (λ n, prop n "id") nodes.

Definition unique_ids (nodes : list jsval) : Prop := NoDup (node_id_values nodes).

Definition valid_roles (nodes : list jsval) : Prop :=
  ∀ n, n ∈ nodes → prop n "role" ∈ map JStr validRoles.

Definition referenced_edges (nodes edges : list jsval) : Prop :=
  ∀ e, e ∈ edges →
    prop e "from" ∈ node_id_values nodes ∧ prop e "to" ∈ node_id_values nodes.

Definition no_orphans (nodes edges : list jsval) : Prop :=
  ∀ n, n ∈ nodes →
    ∃ e, e ∈ edges ∧ (prop e "from" = prop n "id" ∨ prop e "to" = prop n "id").

Definition edge_rel (edges : list jsval) (a b : jsval) : Prop :=
  ∃ e, e ∈ edges ∧ prop e "from" = a ∧ prop e "to" = b.

Definition acyclic (edges : list jsval) : Prop := ∀ x, ¬ tc (edge_rel edges) x x.

(** The checks of the validator that the five predicates do not cover. *)
Definition node_schema (nodes : list jsval) : Prop :=
  ∀ n, n ∈ nodes →
    (∃ id, prop n "id" = JStr id ∧ id ≠ "")
    ∧ (∃ label, prop n "label" = JStr label)
    ∧ (∃ content, prop n "content" = JStr content ∧ Js.trim content ≠ "").

Module ValidatorProof.
Import QueueFacts ValidatorFacts.

Lemma node_okb_spec n :
  node_okb n = true ↔
    ((∃ id, prop n "id" = JStr id ∧ id ≠ "")
     ∧ (∃ label, prop n "label" = JStr label)
     ∧ (∃ content, prop n "content" = JStr content ∧ Js.trim content ≠ ""))
    ∧ prop n "role" ∈ map JStr validRoles.
Proof.
  unfold node_okb. split.
  - destruct (prop n "id") as [| | | |id| |]; try discriminate.
    rewrite !andb_true_iff. intros [[[Hi Hr] Hl] Hc].
    split; [split; [|split]|].
    + exists id. split; [done|]. by apply JsFacts.truthy_true.
    + destruct (prop n "label"); try discriminate. eauto.
    + destruct (prop n "content") as [| | | |c| |]; try discriminate.
      exists c. split; [done|]. by apply JsFacts.truthy_true.
    + destruct (prop n "role") as [| | | |r| |]; try discriminate.
      simpl in Hr. apply bool_decide_eq_true in Hr.
      apply list_elem_of_fmap. eauto.
  - intros [((id & -> & Hid) & (l & ->) & (c & -> & Hc)) Hr].
    apply list_elem_of_fmap in Hr as (r & -> & Hr).
    rewrite !andb_true_iff. repeat split.
    + by apply JsFacts.truthy_true.
    + simpl. by apply bool_decide_eq_true.
    + simpl. by apply JsFacts.truthy_true.
Qed.

Lemma nodes_ok_spec nodes :
  Forall (λ n, node_okb n = true) nodes ↔ node_schema nodes ∧ valid_roles nodes.
Proof.
  rewrite Forall_forall. unfold node_schema, valid_roles. split.
  - intros H. split; intros n Hn; by apply node_okb_spec, H.
  - intros [H1 H2] n Hn. apply node_okb_spec. split; [by apply H1|by apply H2].
Qed.

Lemma node_ok_id n : node_okb n = true → prop n "id" = JStr (id_of n) ∧ id_of n ≠ "".
Proof.
  intros (((id & E & Hid) & _) & _)%node_okb_spec.
  unfold id_of. rewrite E. done.
Qed.

Lemma id_values_map nodes :
  Forall (λ n, node_okb n = true) nodes →
  node_id_values nodes = map JStr (map id_of nodes).
Proof.
  unfold node_id_values. induction 1 as [|n l Hn Hl IH]; [done|].
  simpl. rewrite IH. f_equal. by apply node_ok_id.
Qed.

Section Nodes.
Variable nodes : list jsval.
Hypothesis nodes_ok : Forall (λ n, node_okb n = true) nodes.

Let ids := map id_of nodes.

Lemma id_values : node_id_values nodes = map JStr ids.
Proof. by apply id_values_map. Qed.

Lemma unique_ids_spec : unique_ids nodes ↔ NoDup ids.
Proof.
  unfold unique_ids. rewrite id_values. split.
  - apply NoDup_fmap_1.
  - apply NoDup_fmap_2. intros a b [=]. done.
Qed.

Lemma id_value_elem v : v ∈ node_id_values nodes ↔ ∃ a, v = JStr a ∧ a ∈ ids.
Proof. rewrite id_values, list_elem_of_fmap. done. Qed.

Lemma ids_nonempty a : a ∈ ids → a ≠ "".
Proof.
  unfold ids. intros (n & -> & Hn)%list_elem_of_fmap.
  rewrite Forall_forall in nodes_ok. by apply node_ok_id, nodes_ok.
Qed.

Variable S : gset string.
Hypothesis S_spec : ∀ a, a ∈ S ↔ a ∈ ids.

Lemma edges_ok_spec edges :
  Forall (λ e, edge_okb S e = true) edges ↔
    referenced_edges nodes edges ∧ (∀ e, e ∈ edges → prop e "from" ≠ prop e "to").
Proof.
  rewrite Forall_forall. unfold referenced_edges. split.
  - intros H. split; intros e He; specialize (H e He); unfold edge_okb in H;
      destruct (prop e "from") as [| | | |a| |]; try discriminate;
      destruct (prop e "to") as [| | | |b| |]; try discriminate;
      rewrite !andb_true_iff, !bool_decide_eq_true, !S_spec in H;
      destruct H as [[[[_ _] Ha] Hb] Hab].
    + rewrite !id_value_elem. split; eauto.
    + intros [= ->]. by rewrite String.eqb_refl in Hab.
  - intros [Href Hne] e He.
    destruct (Href e He) as [(a & Ea & Ha)%id_value_elem (b & Eb & Hb)%id_value_elem].
    unfold edge_okb. rewrite Ea, Eb.
    rewrite !andb_true_iff, !bool_decide_eq_true, !S_spec.
    repeat split; try done.
    + by apply JsFacts.truthy_true, ids_nonempty.
    + by apply JsFacts.truthy_true, ids_nonempty.
    + apply negb_true_iff, String.eqb_neq. intros ->.
      apply (Hne e He). by rewrite Ea, Eb.
Qed.

Variable edges : list jsval.
Hypothesis edges_ok : Forall (λ e, edge_okb S e = true) edges.

Let pairs := map pair_of edges.

Lemma edge_ok_pair e :
  e ∈ edges →
  prop e "from" = JStr (pair_of e).1 ∧ prop e "to" = JStr (pair_of e).2
  ∧ (pair_of e).1 ∈ ids ∧ (pair_of e).2 ∈ ids.
Proof.
  intros He. rewrite Forall_forall in edges_ok. specialize (edges_ok e He).
  unfold edge_okb, pair_of in *.
  destruct (prop e "from") as [| | | |a| |]; try discriminate.
  destruct (prop e "to") as [| | | |b| |]; try discriminate.
  rewrite !andb_true_iff, !bool_decide_eq_true, !S_spec in edges_ok.
  simpl. tauto.
Qed.

Lemma pairs_closed p : p ∈ pairs → p.1 ∈ ids ∧ p.2 ∈ ids.
Proof.
  unfold pairs. intros (e & -> & He)%list_elem_of_fmap.
  by apply edge_ok_pair in He as (_ & _ & ? & ?).
Qed.

Lemma edge_rel_spec x y :
  edge_rel edges x y ↔ ∃ a b, x = JStr a ∧ y = JStr b ∧ (a, b) ∈ pairs.
Proof.
  unfold edge_rel, pairs. split.
  - intros (e & He & <- & <-).
    destruct (edge_ok_pair e He) as (Ea & Eb & _).
    exists (pair_of e).1, (pair_of e).2. repeat split; try done.
    apply list_elem_of_fmap. exists e. split; [|done]. by destruct (pair_of e).
  - intros (a & b & -> & -> & (e & Ep & He)%list_elem_of_fmap).
    exists e. destruct (edge_ok_pair e He) as (Ea & Eb & _).
    rewrite Ea, Eb, <- Ep. done.
Qed.

Lemma tc_edge_rel x y :
  tc (edge_rel edges) x y →
  ∃ a b, x = JStr a ∧ y = JStr b ∧ tc (Kahn.edge pairs) a b.
Proof.
  induction 1 as [x y H|x y z H _ (b & c & -> & -> & IH)].
  - apply edge_rel_spec in H as (a & b & -> & -> & H).
    exists a, b. repeat split; try done. by apply tc_once.
  - apply edge_rel_spec in H as (a & b' & -> & [= <-] & H).
    exists a, c. repeat split; try done. by eapply tc_l.
Qed.

Lemma tc_pairs a b :
  tc (Kahn.edge pairs) a b → tc (edge_rel edges) (JStr a) (JStr b).
Proof.
  induction 1 as [a b H|a b c H _ IH].
  - apply tc_once, edge_rel_spec. eauto.
  - eapply tc_l; [|exact IH]. apply edge_rel_spec. eauto.
Qed.

Lemma acyclic_spec : acyclic edges ↔ Kahn.acyclic pairs.
Proof.
  unfold acyclic, Kahn.acyclic. split.
  - intros H a Ha. by apply (H (JStr a)), tc_pairs.
  - intros H x Hx. apply tc_edge_rel in Hx as (a & b & -> & [= <-] & Hx).
    by apply (H a).
Qed.

Lemma touches_spec n :
  n ∈ nodes →
  (∃ e, e ∈ edges ∧ (prop e "from" = prop n "id" ∨ prop e "to" = prop n "id"))
  ↔ (∃ p, p ∈ pairs ∧ (p.1 = id_of n ∨ p.2 = id_of n)).
Proof.
  intros Hn. rewrite Forall_forall in nodes_ok.
  destruct (node_ok_id n (nodes_ok n Hn)) as [En _]. rewrite En. split.
  - intros (e & He & H). exists (pair_of e). split.
    + apply list_elem_of_fmap. eauto.
    + destruct (edge_ok_pair e He) as (Ea & Eb & _). rewrite Ea, Eb in H.
      destruct H as [[= H]|[= H]]; auto.
  - intros (p & (e & -> & He)%list_elem_of_fmap & H). exists e. split; [done|].
    destruct (edge_ok_pair e He) as (Ea & Eb & _). rewrite Ea, Eb.
    destruct H as [<-|<-]; auto.
Qed.
End Nodes.
End ValidatorProof.
Module ValidatorProof2.
Import QueueFacts ValidatorFacts ValidatorProof.

Lemma visited_is_length t nodes :
  visited_count t nodes
  = length (Kahn.order (t_outgoing t)
              (filter (λ id, default 0 (t_indegree t !! id) = 0) (map id_of nodes))
              (t_indegree t)).
Proof.
  unfold visited_count, Kahn.order. rewrite run_queue_trace.
  generalize (trace (t_outgoing t)
    (loop_budget (filter (λ id, default 0 (t_indegree t !! id) = 0) (map id_of nodes))
       (t_indegree t))
    (filter (λ id, default 0 (t_indegree t !! id) = 0) (map id_of nodes), t_indegree t)).
  intros l.
  assert (∀ x u, visit (t_outgoing t) (λ _ visited, S visited)
                   (λ _ _ (visited : nat), visited) x u = S x) as Hv.
  { intros x u. unfold visit. generalize (targets_of (t_outgoing t) u). intros ts.
    generalize (S x). induction ts; intros; simpl; auto. }
  assert (∀ n, foldl (visit (t_outgoing t) (λ _ visited, S visited)
                        (λ _ _ (visited : nat), visited)) n l = (n + length l)%nat) as H.
  { induction l as [|u l IH]; intros n; simpl; [lia|]. rewrite Hv, IH. lia. }
  by rewrite H.
Qed.

Lemma filter_length_pos {A} (P : A → Prop) `{∀ x, Decision (P x)} (l : list A) :
  (0 < length (filter P l))%nat ↔ ∃ x, x ∈ l ∧ P x.
Proof.
  split.
  - destruct (filter P l) as [|x l'] eqn:E; [simpl; lia|]. intros _.
    assert (x ∈ filter P l) as Hx by (rewrite E; left).
    apply list_elem_of_filter in Hx as [? ?]. eauto.
  - intros (x & Hx & HP).
    assert (x ∈ filter P l) as Hf by (by apply list_elem_of_filter).
    destruct (filter P l); [by apply elem_of_nil in Hf|simpl; lia].
Qed.

Section Accept.
Variables nodes edges : list jsval.
Hypothesis nodes_ok : Forall (λ n, node_okb n = true) nodes.
Hypothesis ids_nodup : NoDup (map id_of nodes).

Let ids := map id_of nodes.
Let t1 := foldl add_node empty_tally ids.

Lemma t1_ids a : a ∈ t_nodeIds t1 ↔ a ∈ ids.
Proof. unfold t1. rewrite add_nodes_ids. simpl. set_solver. Qed.

Hypothesis edges_ok : Forall (λ e, edge_okb (t_nodeIds t1) e = true) edges.

Let pairs := map pair_of edges.
Let t := foldl add_edge t1 pairs.

Lemma t1_zero :
  zero_map (t_degree t1) ∧ zero_map (t_indegree t1) ∧ nil_map (t_outgoing t1).
Proof. apply add_nodes_zero; intros v; simpl; by rewrite lookup_empty. Qed.

Lemma t_degree_zero v :
  default 0 (t_degree t !! v) = 0 ↔ ¬ ∃ p, p ∈ pairs ∧ (p.1 = v ∨ p.2 = v).
Proof.
  unfold t. rewrite add_edges_degree. destruct t1_zero as (-> & _ & _).
  pose proof (filter_length_pos (λ e : string * string, e.1 = v) pairs) as H1.
  pose proof (filter_length_pos (λ e : string * string, e.2 = v) pairs) as H2.
  split.
  - intros Hz (p & Hp & [Hv|Hv]).
    + assert (0 < length (filter (λ e : string * string, e.1 = v) pairs))%nat
        by (apply H1; eauto). lia.
    + assert (0 < length (filter (λ e : string * string, e.2 = v) pairs))%nat
        by (apply H2; eauto). lia.
  - intros Hn.
    destruct (length (filter (λ e : string * string, e.1 = v) pairs)) eqn:E1.
    2:{ exfalso. apply Hn. destruct H1 as [H1 _].
        destruct H1 as (p & ? & ?); [lia|]. eauto. }
    destruct (length (filter (λ e : string * string, e.2 = v) pairs)) eqn:E2.
    2:{ exfalso. apply Hn. destruct H2 as [H2 _].
        destruct H2 as (p & ? & ?); [lia|]. eauto. }
    lia.
Qed.

Lemma t_degree_nonzero v :
  default 0 (t_degree t !! v) ≠ 0 → ∃ p, p ∈ pairs ∧ (p.1 = v ∨ p.2 = v).
Proof.
  unfold t. rewrite add_edges_degree. destruct t1_zero as (-> & _ & _).
  intros Hnz.
  destruct (decide (0 < length (filter (λ e : string * string, e.1 = v) pairs))%nat)
    as [H1|H1].
  { apply filter_length_pos in H1 as (p & ? & ?). eauto. }
  destruct (decide (0 < length (filter (λ e : string * string, e.2 = v) pairs))%nat)
    as [H2|H2].
  { apply filter_length_pos in H2 as (p & ? & ?). eauto. }
  lia.
Qed.

Lemma orphan_spec :
  find (λ n, bool_decide (default 0 (t_degree t !! id_of n) = 0)) nodes = None
  ↔ no_orphans nodes edges.
Proof.
  unfold no_orphans. split.
  - intros Hf n Hn.
    apply (touches_spec nodes nodes_ok _ t1_ids edges edges_ok n Hn).
    pose proof (find_none _ _ Hf n (proj1 (list_elem_of_In _ _) Hn)) as Hb.
    simpl in Hb. apply bool_decide_eq_false in Hb.
    by apply t_degree_nonzero.
  - intros Ho.
    destruct (find _ nodes) as [n|] eqn:Ef; [exfalso|done].
    apply find_some in Ef as [Hn Hb]. apply list_elem_of_In in Hn.
    apply bool_decide_eq_true in Hb. apply t_degree_zero in Hb. apply Hb.
    by apply (touches_spec nodes nodes_ok _ t1_ids edges edges_ok n Hn), Ho.
Qed.

Lemma visited_spec :
  visited_count t nodes = length nodes ↔ acyclic edges.
Proof.
  rewrite visited_is_length.
  rewrite (acyclic_spec nodes _ t1_ids edges edges_ok).
  replace (length nodes) with (length ids) by apply length_map.
  apply Kahn.order_length_acyclic.
  - done.
  - apply (pairs_closed nodes _ t1_ids edges edges_ok).
  - intros u. unfold targets_of, t. rewrite add_edges_outgoing.
    destruct t1_zero as (_ & _ & ->). done.
  - intros v. unfold t. rewrite add_edges_indegree.
    destruct t1_zero as (_ & -> & _). unfold Kahn.cnt.
    rewrite Z.add_0_l. do 2 f_equal.
    apply list_filter_iff. intros e. rewrite elem_of_nil. tauto.
  - by apply NoDup_filter.
  - intros v. rewrite list_elem_of_filter. tauto.
Qed.
End Accept.
End ValidatorProof2.

(** C1, as stated, fails: the validator also wants every node to have
    content that is not blank (and a string label and a non-empty string
    id).  Two nodes joined by one edge, the second with blank content,
    satisfy the five predicates and are rejected. *)
Lemma five_predicates_do_not_suffice :
  let nodes :=
    [JObj [("id", JStr "a"); ("role", JStr "system"); ("label", JStr "A");
           ("content", JStr "x")];
     JObj [("id", JStr "b"); ("role", JStr "user"); ("label", JStr "B");
           ("content", JStr " ")]] in
  let edges := [JObj [("from", JStr "a"); ("to", JStr "b")]] in
  let graph := JObj [("nodes", JArr nodes); ("edges", JArr edges)] in
  (1 < length nodes)%nat
  ∧ (acyclic edges ∧ no_orphans nodes edges ∧ unique_ids nodes
     ∧ valid_roles nodes ∧ referenced_edges nodes edges)
  ∧ validateGeneratedGraph graph ≠ None.
Proof.
  intros nodes edges graph. split; [simpl; lia|]. split; [|by vm_compute].
  assert (∀ x y, edge_rel edges x y → x = JStr "a" ∧ y = JStr "b") as Hrel.
  { intros x y (e & He & <- & <-).
    apply list_elem_of_singleton in He as ->. done. }
  repeat split.
  - intros x Hx. inversion Hx as [? ? H|? y ? H Hy]; subst.
    + apply Hrel in H as [-> [=]].
    + apply Hrel in H as [-> ->].
      inversion Hy as [? ? H|? z ? H _]; subst; by apply Hrel in H as [[=] _].
  - intros n Hn. exists (JObj [("from", JStr "a"); ("to", JStr "b")]).
    split; [left|].
    apply elem_of_cons in Hn as [->|Hn]; [by left|].
    apply list_elem_of_singleton in Hn as ->. by right.
  - unfold unique_ids. simpl.
    constructor; [|constructor; [|constructor]]; set_solver.
  - intros n Hn.
    apply elem_of_cons in Hn as [->|Hn]; [|apply list_elem_of_singleton in Hn as ->];
      simpl; set_solver.
  - apply list_elem_of_singleton in H as ->. simpl. set_solver.
  - apply list_elem_of_singleton in H as ->. simpl. set_solver.
Qed.

(** C1 (amended): for every candidate graph with more than one node, the
    validator returns null if and only if every node has a non-empty string
    id, a string label and content that is a string and not blank, and the
    graph is acyclic, has no orphan nodes, has unique node ids, has only
    roles out of system, user and assistant, and has only edges between ids
    of its nodes. *)
Theorem validateGeneratedGraph_accepts (graph : jsval) (nodes edges : list jsval) :
  prop graph "nodes" = JArr nodes →
  prop graph "edges" = JArr edges →
  (1 < length nodes)%nat →
  validateGeneratedGraph graph = None
  ↔ node_schema nodes
    ∧ acyclic edges ∧ no_orphans nodes edges ∧ unique_ids nodes
    ∧ valid_roles nodes ∧ referenced_edges nodes edges.
Proof.
  intros Hn He Hlen.
  destruct graph as [| | | | | |fields]; try discriminate Hn.
  unfold validateGeneratedGraph. cbn [js_truthy is_object_type negb orb].
  rewrite Hn, He.
  rewrite bool_decide_eq_false_2 by (intros ->; simpl in Hlen; lia).
  destruct (check_nodes nodes empty_tally) as [msg|t1] eqn:E1.
  { split; [discriminate|]. intros (Hs & _ & _ & Hu & Hr & _). exfalso.
    assert (Forall (λ n, ValidatorFacts.node_okb n = true) nodes) as Hok
      by (by apply ValidatorProof.nodes_ok_spec).
    assert (check_nodes nodes empty_tally
            = inr (foldl ValidatorFacts.add_node empty_tally (map id_of nodes))) as E.
    { apply ValidatorFacts.check_nodes_inr. repeat split; try done.
      by apply ValidatorProof.unique_ids_spec. }
    congruence. }
  apply ValidatorFacts.check_nodes_inr in E1 as (Hok & Hnd & _ & ->).
  pose proof (ValidatorProof2.t1_ids nodes Hok Hnd) as Hids.
  pose proof (ValidatorProof.nodes_ok_spec nodes) as Hns.
  pose proof (ValidatorProof.unique_ids_spec nodes Hok) as Hus.
  pose proof (ValidatorProof.edges_ok_spec nodes Hok _ Hids edges) as Hes.
  destruct (check_edges edges _) as [msg|t] eqn:E2.
  { split; [discriminate|]. intros (_ & Hac & _ & _ & _ & Href). exfalso.
    assert (Forall (λ e, ValidatorFacts.edge_okb
                           (t_nodeIds (foldl ValidatorFacts.add_node empty_tally
                                         (map id_of nodes))) e = true) edges) as Heok.
    { apply Hes. split; [done|]. intros e Hin Heq.
      apply (Hac (prop e "from")), tc_once. exists e. by rewrite <- Heq. }
    pose proof (proj2 (ValidatorFacts.check_edges_inr edges _ _) (conj Heok eq_refl)).
    congruence. }
  apply ValidatorFacts.check_edges_inr in E2 as (Heok & ->).
  rewrite (proj2 (Nat.ltb_lt _ _) Hlen).
  pose proof (ValidatorProof2.orphan_spec nodes edges Hok Hnd Heok) as Hos.
  pose proof (ValidatorProof2.visited_spec nodes edges Hok Hnd Heok) as Hvs.
  destruct (find _ nodes) as [n|] eqn:Ef.
  { split; [discriminate|]. intros (_ & _ & Ho & _). apply Hos in Ho. discriminate. }
  destruct (bool_decide_reflect
              (visited_count
                 (foldl ValidatorFacts.add_edge
                    (foldl ValidatorFacts.add_node empty_tally (map id_of nodes))
                    (map ValidatorFacts.pair_of edges)) nodes = length nodes)) as [Hv|Hv].
  - split; [intros _|done].
    destruct (proj1 Hns Hok) as [? ?]. destruct (proj1 Hes Heok) as [? _].
    split; [done|]. split; [by apply Hvs|]. split; [by apply Hos|].
    split; [by apply Hus|]. by split.
  - split; [discriminate|]. intros (_ & Hac & _). by apply Hvs in Hac.
Qed.

Lemma validateGeneratedGraph_accepts_witness :
  let nodes :=
    [JObj [("id", JStr "a"); ("role", JStr "system"); ("label", JStr "A");
           ("content", JStr "x")];
     JObj [("id", JStr "b"); ("role", JStr "user"); ("label", JStr "B");
           ("content", JStr "y")]] in
  let edges := [JObj [("from", JStr "a"); ("to", JStr "b")]] in
  node_schema nodes
  ∧ acyclic edges ∧ no_orphans nodes edges ∧ unique_ids nodes
  ∧ valid_roles nodes ∧ referenced_edges nodes edges.
Proof.
  intros nodes edges.
  apply (validateGeneratedGraph_accepts
           (JObj [("nodes", JArr nodes); ("edges", JArr edges)]) nodes edges).
  - reflexivity.
  - reflexivity.
  - simpl. lia.
  - vm_compute. reflexivity.
Defined.

(** ** Layout *)

Module LayoutFacts.
Import QueueFacts.

Lemma sort_insert_perm {A} (compare : A → A → Z) x l :
  sort_insert compare x l ≡ₚ x :: l.
Proof.
  induction l as [|y l IH]; [done|]. simpl.
  destruct (compare x y <=? 0); [done|].
  rewrite IH. apply perm_swap.
Qed.

Lemma js_sort_perm {A} (compare : A → A → Z) l : js_sort compare l ≡ₚ l.
Proof.
  unfold js_sort. induction l as [|x l IH]; [done|].
  simpl. by rewrite sort_insert_perm, IH.
Qed.

Lemma map_of_app {V} (l1 l2 : list (string * V)) (m : gmap string V) :
  foldl (λ m kv, <[kv.1 := kv.2]> m) m (l1 ++ l2)
  = foldl (λ m kv, <[kv.1 := kv.2]> m) (foldl (λ m kv, <[kv.1 := kv.2]> m) m l1) l2.
Proof. apply foldl_app. Qed.

(** A key of [new Map(entries)] is the key of an entry, and its value is
    the value of one of the entries with that key. *)
Lemma map_of_lookup {V} (entries : list (string * V)) k v :
  map_of entries !! k = Some v → (k, v) ∈ entries.
Proof.
  unfold map_of. assert (∀ m : gmap string V,
    foldl (λ m kv, <[kv.1 := kv.2]> m) m entries !! k = Some v →
    (k, v) ∈ entries ∨ m !! k = Some v) as H.
  { induction entries as [|[k' v'] entries IH]; intros m Hm; [by right|].
    simpl in Hm. apply IH in Hm as [Hm|Hm]; [left; by right|].
    destruct (decide (k' = k)) as [->|Hne].
    - rewrite lookup_insert_eq in Hm. inversion Hm; subst. left. left.
    - rewrite lookup_insert_ne in Hm by done. by right. }
  intros Hm. apply H in Hm as [?|Hm]; [done|]. by rewrite lookup_empty in Hm.
Qed.

Lemma map_of_is_Some {V} (entries : list (string * V)) k :
  is_Some (map_of entries !! k) ↔ k ∈ map fst entries.
Proof.
  unfold map_of. assert (∀ m : gmap string V,
    is_Some (foldl (λ m kv, <[kv.1 := kv.2]> m) m entries !! k)
    ↔ k ∈ map fst entries ∨ is_Some (m !! k)) as H.
  { induction entries as [|[k' v'] entries IH]; intros m.
    - simpl. rewrite elem_of_nil. tauto.
    - simpl. rewrite IH, elem_of_cons.
      destruct (decide (k' = k)) as [->|Hne].
      + rewrite lookup_insert_eq. split; [intros _; left; by left|].
        intros _. right. eauto.
      + rewrite lookup_insert_ne by done. split; [tauto|].
        intros [[?|?]|?]; [congruence|tauto..]. }
  rewrite H, lookup_empty. split; [intros [?|[? [=]]]; done | tauto].
Qed.

Lemma map_of_const {V} (f : string → V) (d : V) (ids : list string) k :
  (∀ id, f id = d) → default d (map_of (map (λ id, (id, f id)) ids) !! k) = d.
Proof.
  intros Hf. destruct (map_of _ !! k) as [v|] eqn:E; [|done].
  apply map_of_lookup, list_elem_of_fmap in E as (id & [= -> ->] & _). apply Hf.
Qed.
End LayoutFacts.

(** C9: re-layout returns the nodes of its input in the same order, each
    with the same id, type and data (role, label, content and list items);
    only positions change, and the edges are left as they are. *)
Theorem autoLayoutNodes_only_moves (nodes : list FlowNode) (edges : list FlowEdge)
    (mode : string) :
  Forall2 (λ before after,
             n_id after = n_id before ∧ n_type after = n_type before
             ∧ n_data after = n_data before)
          nodes (autoLayoutNodes nodes edges mode)
  ∧ (applyLayout (nodes, edges) mode).2 = edges.
Proof.
  split; [|done].
  assert (∀ positions l,
    Forall2 (λ before after,
               n_id after = n_id before ∧ n_type after = n_type before
               ∧ n_data after = n_data before)
            l (map (with_position positions) l)) as H.
  { intros positions l. induction l as [|n l IH]; constructor; [done|apply IH]. }
  unfold autoLayoutNodes. destruct nodes as [|n nodes]; [constructor|].
  destruct (String.eqb mode "grid"); apply H.
Qed.

(** ** Levels *)

Module Levels.
Import QueueFacts.

Definition lev (L : gmap string Z) (v : string) : Z := default 0 (L !! v).

Lemma raise_lookup_eq t n L :
  raise_level t n L !! t
  = Some (match L !! t with Some l => Z.max l n | None => n end).
Proof.
  unfold raise_level. destruct (L !! t) as [l|] eqn:E.
  - destruct (Z.ltb_spec l n).
    + rewrite lookup_insert_eq. f_equal. lia.
    + rewrite E. f_equal. lia.
  - by rewrite lookup_insert_eq.
Qed.

Lemma raise_lookup_ne t n L v : t ≠ v → raise_level t n L !! v = L !! v.
Proof.
  intros Hne. unfold raise_level. destruct (L !! t) as [l|].
  - destruct (l <? n); [by rewrite lookup_insert_ne|done].
  - by rewrite lookup_insert_ne.
Qed.

Lemma raise_mono t n L v l0 :
  L !! v = Some l0 → ∃ l, raise_level t n L !! v = Some l ∧ l0 ≤ l.
Proof.
  intros Hv. destruct (decide (t = v)) as [->|Hne].
  - rewrite raise_lookup_eq, Hv. eexists. split; [done|]. lia.
  - rewrite raise_lookup_ne by done. exists l0. split; [done|lia].
Qed.

(** Raising the targets [T] to level [n]. *)
Definition raise_all (n : Z) (L : gmap string Z) (T : list string) : gmap string Z :=
  foldl (λ L' t, raise_level t n L') L T.

Lemma raise_all_other n T : ∀ L v, v ∉ T → raise_all n L T !! v = L !! v.
Proof.
  induction T as [|t T IH]; intros L v Hv; [done|].
  apply not_elem_of_cons in Hv as [Hne Hv].
  unfold raise_all in *. cbn [foldl]. rewrite IH by done.
  by apply raise_lookup_ne.
Qed.

Lemma raise_all_mono n T : ∀ L v l0,
  L !! v = Some l0 → ∃ l, raise_all n L T !! v = Some l ∧ l0 ≤ l.
Proof.
  induction T as [|t T IH]; intros L v l0 Hv; [exists l0; split; [done|lia]|].
  unfold raise_all in *. cbn [foldl].
  destruct (raise_mono t n L v l0 Hv) as (l1 & H1 & Hle1).
  destruct (IH _ _ _ H1) as (l & H & Hle). exists l. split; [done|lia].
Qed.

Lemma raise_all_target n T : ∀ L v,
  v ∈ T → ∃ l, raise_all n L T !! v = Some l ∧ n ≤ l.
Proof.
  induction T as [|t T IH]; intros L v Hv; [by apply elem_of_nil in Hv|].
  unfold raise_all in *. cbn [foldl].
  destruct (decide (t = v)) as [->|Hne].
  - pose proof (raise_lookup_eq v n L) as H1.
    destruct (raise_all_mono n T _ _ _ H1) as (l & H & Hle).
    exists l. split; [done|]. unfold raise_all in H. destruct (L !! v); lia.
  - apply elem_of_cons in Hv as [->|Hv]; [done|]. by apply IH.
Qed.

Lemma raise_all_reading u T : ∀ L,
  u ∉ T →
  foldl (λ L' t, raise_level t (lev L' u + 1) L') L T = raise_all (lev L u + 1) L T.
Proof.
  induction T as [|t T IH]; intros L Hself; [done|].
  apply not_elem_of_cons in Hself as [Hne Hself].
  unfold raise_all. cbn [foldl]. rewrite IH by done.
  unfold raise_all, lev. by rewrite raise_lookup_ne.
Qed.

Lemma seed_levels_seed queue q : q ∈ queue → is_Some (seed_levels queue !! q).
Proof.
  unfold seed_levels. generalize (∅ : gmap string Z).
  assert (∀ l (m : gmap string Z), is_Some (m !! q) →
            is_Some (foldl (λ level id, <[id := 0]> level) m l !! q)) as Hkeep.
  { induction l as [|y l IH]; intros m Hm; [done|].
    cbn [foldl]. apply IH. destruct (decide (y = q)) as [->|?].
    - rewrite lookup_insert_eq. eauto.
    - by rewrite lookup_insert_ne. }
  induction queue as [|x l IH]; intros m Hq; [by apply elem_of_nil in Hq|].
  cbn [foldl]. apply elem_of_cons in Hq as [->|Hq].
  - apply Hkeep. rewrite lookup_insert_eq. eauto.
  - by apply IH.
Qed.

Section Core.
Variable V : list string.
Variable E : list (string * string).
Variable outgoing : gmap string (list string).
Hypothesis V_nodup : NoDup V.
Hypothesis E_closed : ∀ e, e ∈ E → e.1 ∈ V ∧ e.2 ∈ V.
Hypothesis outgoing_spec :
  ∀ u, targets_of outgoing u = map snd (filter (λ e, e.1 = u) E).
Variable queue0 : list string.
Variable indegree0 : gmap string Z.
Hypothesis indegree0_spec :
  ∀ v, default 0 (indegree0 !! v) = Z.of_nat (Kahn.cnt E [] v).
Hypothesis queue0_nodup : NoDup queue0.
Hypothesis queue0_spec :
  ∀ v, v ∈ queue0 ↔ v ∈ V ∧ default 0 (indegree0 !! v) = 0.
Hypothesis E_acyclic : Kahn.acyclic E.

Let order := Kahn.order outgoing queue0 indegree0.

Definition relax (L : gmap string Z) (u : string) : gmap string Z :=
  raise_all (lev L u + 1) L (targets_of outgoing u).

Lemma target_edge u t : t ∈ targets_of outgoing u ↔ (u, t) ∈ E.
Proof.
  rewrite outgoing_spec, list_elem_of_fmap. split.
  - intros ([a b] & -> & [He Hin]%list_elem_of_filter). simpl in *. by subst.
  - intros H. exists (u, t). split; [done|]. by apply list_elem_of_filter.
Qed.

Lemma relax_order_nodup : NoDup order.
Proof. exact (Kahn.order_nodup V E outgoing E_closed outgoing_spec queue0 indegree0 indegree0_spec queue0_nodup queue0_spec). Qed.

Lemma relax_order_topo P1 v P2 u : order = P1 ++ v :: P2 → (u, v) ∈ E → u ∈ P1.
Proof. exact (Kahn.order_topo V E outgoing E_closed outgoing_spec queue0 indegree0 indegree0_spec queue0_nodup queue0_spec P1 v P2 u). Qed.

Lemma relax_order_all v : v ∈ V → v ∈ order.
Proof.
  apply (Kahn.order_full V E outgoing E_closed outgoing_spec queue0 indegree0 indegree0_spec queue0_nodup queue0_spec).
  exact (Kahn.acyclic_order_full V E outgoing V_nodup E_closed outgoing_spec
           queue0 indegree0 indegree0_spec queue0_nodup queue0_spec E_acyclic).
Qed.

Lemma not_before P u rest a : order = P ++ u :: rest → a ∈ P → (u, a) ∉ E.
Proof.
  intros Hs Ha He. apply list_elem_of_split in Ha as (A & B & ->).
  assert (u ∈ A) as Hu.
  { eapply relax_order_topo; [|exact He]. rewrite Hs, <- app_assoc. done. }
  pose proof relax_order_nodup as Hnd. rewrite Hs in Hnd.
  apply NoDup_app in Hnd as (_ & Hd & _).
  apply (Hd u); [apply elem_of_app; by left | left].
Qed.

Lemma no_self_loop P u rest : order = P ++ u :: rest → (u, u) ∉ E.
Proof.
  intros Hs He. pose proof (relax_order_topo _ _ _ _ Hs He) as Hu.
  pose proof relax_order_nodup as Hnd. rewrite Hs in Hnd.
  apply NoDup_app in Hnd as (_ & Hd & _). apply (Hd u Hu). left.
Qed.

Lemma has_source P u rest :
  order = P ++ u :: rest → u ∉ queue0 → ∃ w, w ∈ P ∧ (w, u) ∈ E.
Proof.
  intros Hs Hq.
  assert (u ∈ V) as HuV.
  { apply (Kahn.order_sub V E outgoing E_closed outgoing_spec
             queue0 indegree0 indegree0_spec queue0_nodup queue0_spec).
    fold order. rewrite Hs. apply elem_of_app. right. left. }
  assert (Kahn.cnt E [] u ≠ 0%nat) as Hc.
  { intros Hz. apply Hq, queue0_spec. split; [done|].
    rewrite indegree0_spec, Hz. done. }
  unfold Kahn.cnt in Hc.
  destruct (filter (λ e, e.2 = u ∧ e.1 ∉ []) E) as [|[w b] l] eqn:Ef; [done|].
  assert ((w, b) ∈ filter (λ e, e.2 = u ∧ e.1 ∉ []) E) as Hin by (rewrite Ef; left).
  apply list_elem_of_filter in Hin as [[Hb _] Hin]. simpl in Hb. subst b.
  exists w. split; [|done]. by eapply relax_order_topo.
Qed.

(** What holds of the level map when the ids in [P] have been shifted. *)
Record Leveled (P : list string) (L : gmap string Z) : Prop := mkLeveled {
  lv_done : ∀ u, u ∈ P → is_Some (L !! u);
  lv_seed : ∀ q, q ∈ queue0 → is_Some (L !! q);
  lv_edge : ∀ u v, u ∈ P → (u, v) ∈ E →
            ∃ lu lv, L !! u = Some lu ∧ L !! v = Some lv ∧ lu + 1 ≤ lv
}.

Lemma leveled_step P u rest L :
  order = P ++ u :: rest → Leveled P L → Leveled (P ++ [u]) (relax L u).
Proof.
  intros Hs [Hdone Hseed Hedge].
  assert (is_Some (L !! u)) as [lu Hlu].
  { destruct (decide (u ∈ queue0)) as [Hq|Hq]; [by apply Hseed|].
    destruct (has_source _ _ _ Hs Hq) as (w & Hw & He).
    destruct (Hedge w u Hw He) as (? & lv & _ & ? & _). eauto. }
  assert (u ∉ targets_of outgoing u) as Hself.
  { rewrite target_edge. by eapply no_self_loop. }
  assert (relax L u !! u = Some lu) as Hu'.
  { unfold relax. by rewrite raise_all_other. }
  assert (∀ v l0, L !! v = Some l0 → ∃ l, relax L u !! v = Some l ∧ l0 ≤ l) as Hmono.
  { intros v l0. apply raise_all_mono. }
  split.
  - intros x [Hx| ->%list_elem_of_singleton]%elem_of_app; [|eauto].
    destruct (Hdone x Hx) as [l0 Hl0]. destruct (Hmono _ _ Hl0) as (l & ? & _). eauto.
  - intros q Hq. destruct (Hseed q Hq) as [l0 Hl0].
    destruct (Hmono _ _ Hl0) as (l & ? & _). eauto.
  - intros a b [Ha| ->%list_elem_of_singleton]%elem_of_app He.
    + destruct (Hedge a b Ha He) as (la & lb & Hla & Hlb & Hle).
      destruct (Hmono _ _ Hlb) as (lb' & Hlb' & Hle').
      exists la, lb'. split; [|split; [done|lia]].
      unfold relax. rewrite raise_all_other; [done|].
      rewrite target_edge. by eapply not_before.
    + assert (b ∈ targets_of outgoing u) as Hb by (by apply target_edge).
      destruct (raise_all_target (lev L u + 1) _ L b Hb) as (lb & Hlb & Hle).
      exists lu, lb. split; [done|]. split; [done|].
      unfold lev in Hle. rewrite Hlu in Hle. done.
Qed.

Lemma leveled_fold rest : ∀ P L,
  order = P ++ rest → Leveled P L → Leveled (P ++ rest) (foldl relax L rest).
Proof.
  induction rest as [|u rest IH]; intros P L Hs HL.
  - simpl. by rewrite app_nil_r.
  - cbn [foldl].
    replace (P ++ u :: rest) with ((P ++ [u]) ++ rest) by (by rewrite <- app_assoc).
    apply IH; [by rewrite <- app_assoc|]. by eapply leveled_step.
Qed.

(** The level map once the loop is over. *)
Theorem leveled_order : Leveled order (foldl relax (seed_levels queue0) order).
Proof.
  apply (leveled_fold order [] (seed_levels queue0)); [done|].
  split.
  - intros u Hu. by apply elem_of_nil in Hu.
  - intros q Hq. by apply seed_levels_seed.
  - intros u v Hu. by apply elem_of_nil in Hu.
Qed.

(** A bookkeeping that reads the level of the current id while it
    follows the edges computes the same levels: no edge leads from an
    id to itself. *)
Lemma relax_reading L u :
  u ∈ order →
  foldl (λ L' t, raise_level t (lev L' u + 1) L') L (targets_of outgoing u)
  = relax L u.
Proof.
  intros Hu. apply list_elem_of_split in Hu as (P & rest & Hs).
  assert (u ∉ targets_of outgoing u) as Hself.
  { rewrite target_edge. by eapply no_self_loop. }
  unfold relax. by apply raise_all_reading.
Qed.
End Core.
End Levels.

(** A graph over the ids [ids] is acyclic when its edges between those ids
    form no cycle. *)
Definition joins (ids : list string) (pairs : list (string * string))
    (a b : string) : Prop :=
  a ∈ ids ∧ b ∈ ids ∧ (a, b) ∈ pairs.

Definition acyclic_on (ids : list string) (pairs : list (string * string)) : Prop :=
  ∀ x, ¬ tc (joins ids pairs) x x.

Definition flow_pairs (edges : list FlowEdge) : list (string * string) :=
  map (λ e, (e_source e, e_target e)) edges.

Definition graph_pairs (edges : list GraphEdge) : list (string * string) :=
  map (λ e, (ge_from e, ge_to e)) edges.

Module RelayoutFacts.
Import QueueFacts LayoutFacts Levels.

Lemma tc_mono {A} (R1 R2 : relation A) x y :
  (∀ a b, R1 a b → R2 a b) → tc R1 x y → tc R2 x y.
Proof.
  intros H. induction 1 as [x y Hxy|x y z Hxy _ IH].
  - apply tc_once. by apply H.
  - eapply tc_l; [by apply H|done].
Qed.

Lemma foldl_ext_elem {A B} (f g : A → B → A) (l : list B) : ∀ x,
  (∀ x u, u ∈ l → f x u = g x u) → foldl f x l = foldl g x l.
Proof.
  induction l as [|u l IH]; intros x H; [done|].
  cbn [foldl]. rewrite H by left. apply IH. intros y v Hv. apply H. by right.
Qed.

Lemma map_of_nodes_is_Some (nodes : list FlowNode) k :
  is_Some (map_of (map (λ n, (n_id n, n)) nodes) !! k) ↔ k ∈ node_ids nodes.
Proof.
  rewrite map_of_is_Some. unfold node_ids. by rewrite map_map.
Qed.

Lemma map_of_default {A V} (f : A → string) (d : V) (l : list A) k :
  default d (map_of (map (λ a, (f a, d)) l) !! k) = d.
Proof.
  destruct (map_of _ !! k) as [v|] eqn:E; [|done].
  by apply map_of_lookup, list_elem_of_fmap in E as (a & [= -> ->] & _).
Qed.

Definition add_flow_edge (st : gmap string (list string) * gmap string Z)
    (e : FlowEdge) : gmap string (list string) * gmap string Z :=
  let '(outgoing, indegree) := st in
  (<[e_source e := default [] (outgoing !! e_source e) ++ [e_target e]]> outgoing,
   bump (e_target e) indegree).

Lemma add_flow_edges_spec (l : list FlowEdge) : ∀ out0 in0,
  (∀ u, default [] ((foldl add_flow_edge (out0, in0) l).1 !! u)
        = default [] (out0 !! u) ++ map snd (filter (λ e, e.1 = u) (flow_pairs l)))
  ∧ (∀ v, default 0 ((foldl add_flow_edge (out0, in0) l).2 !! v)
          = default 0 (in0 !! v)
            + Z.of_nat (length (filter (λ e, e.2 = v) (flow_pairs l)))).
Proof.
  induction l as [|e l IH]; intros out0 in0.
  - simpl. split; intros; [by rewrite app_nil_r|lia].
  - cbn [foldl add_flow_edge]. destruct (IH
      (<[e_source e := default [] (out0 !! e_source e) ++ [e_target e]]> out0)
      (bump (e_target e) in0)) as [IH1 IH2].
    split.
    + intros u. rewrite IH1.
      change (flow_pairs (e :: l)) with ((e_source e, e_target e) :: flow_pairs l).
      rewrite filter_cons. simpl.
      destruct (decide (e_source e = u)) as [->|Hne].
      * rewrite lookup_insert_eq. simpl. by rewrite <- app_assoc.
      * by rewrite lookup_insert_ne.
    + intros v. rewrite IH2, ValidatorFacts.bump_lookup.
      change (flow_pairs (e :: l)) with ((e_source e, e_target e) :: flow_pairs l).
      rewrite filter_cons. simpl.
      destruct (decide (e_target e = v)); simpl length; lia.
Qed.

Section Relayout.
Variables (nodes : list FlowNode) (edges : list FlowEdge).
Hypothesis ids_nodup : NoDup (node_ids nodes).
Hypothesis edges_acyclic : acyclic_on (node_ids nodes) (flow_pairs edges).

Definition ids := node_ids nodes.
Definition nodesById := map_of (map (λ n, (n_id n, n)) nodes).
Definition known := known_edges nodesById edges.
Definition pairs := flow_pairs known.
Definition outgoing := (relayout_maps nodes edges).1.
Definition indegree := (relayout_maps nodes edges).2.
Definition queue := relayout_queue nodes edges.

Lemma known_spec e :
  e ∈ known ↔ e ∈ edges ∧ e_source e ∈ ids ∧ e_target e ∈ ids.
Proof.
  unfold known, known_edges. rewrite list_elem_of_filter.
  unfold nodesById. rewrite !map_of_nodes_is_Some. tauto.
Qed.

Lemma pairs_spec a b : (a, b) ∈ pairs ↔ joins ids (flow_pairs edges) a b.
Proof.
  unfold pairs, flow_pairs, joins. rewrite !list_elem_of_fmap. split.
  - intros (e & [= -> ->] & (He & Hs & Ht)%known_spec). eauto.
  - intros (Ha & Hb & e & [= -> ->] & He). exists e. split; [done|].
    by apply known_spec.
Qed.

Lemma flow_pairs_closed p : p ∈ pairs → p.1 ∈ ids ∧ p.2 ∈ ids.
Proof. destruct p as [a b]. intros (? & ? & _)%pairs_spec. done. Qed.

Lemma flow_pairs_acyclic : Kahn.acyclic pairs.
Proof.
  intros x Hx. apply (edges_acyclic x). revert Hx. apply tc_mono.
  intros a b. apply pairs_spec.
Qed.

Lemma maps_eq :
  relayout_maps nodes edges
  = foldl add_flow_edge
      (map_of (map (λ n, (n_id n, [])) nodes), map_of (map (λ n, (n_id n, 0)) nodes))
      known.
Proof.
  unfold relayout_maps. fold nodesById. fold known.
  generalize (map_of (map (λ n, (n_id n, @nil string)) nodes),
              map_of (map (λ n, (n_id n, 0)) nodes)).
  induction known as [|e l IH]; intros st; [done|].
  cbn [foldl]. rewrite IH. by destruct st.
Qed.

Lemma outgoing_spec u :
  targets_of outgoing u = map snd (filter (λ e, e.1 = u) pairs).
Proof.
  unfold targets_of, outgoing. rewrite maps_eq.
  destruct (add_flow_edges_spec known
    (map_of (map (λ n, (n_id n, [])) nodes)) (map_of (map (λ n, (n_id n, 0)) nodes)))
    as [H _].
  rewrite H, (map_of_default n_id []). done.
Qed.

Lemma indegree_spec v :
  default 0 (indegree !! v) = Z.of_nat (Kahn.cnt pairs [] v).
Proof.
  unfold indegree. rewrite maps_eq.
  destruct (add_flow_edges_spec known
    (map_of (map (λ n, (n_id n, [])) nodes)) (map_of (map (λ n, (n_id n, 0)) nodes)))
    as [_ H].
  rewrite H, (map_of_default n_id 0), Z.add_0_l. unfold Kahn.cnt. do 2 f_equal.
  apply list_filter_iff. intros e. rewrite elem_of_nil. tauto.
Qed.

Lemma queue_nodup : NoDup queue.
Proof.
  unfold queue, relayout_queue. rewrite js_sort_perm. by apply NoDup_filter.
Qed.

Lemma queue_spec v : v ∈ queue ↔ v ∈ ids ∧ default 0 (indegree !! v) = 0.
Proof.
  unfold queue, relayout_queue. rewrite js_sort_perm, list_elem_of_filter.
  unfold indegree, ids. tauto.
Qed.

Definition order := Kahn.order outgoing queue indegree.

Lemma relayout_follow_fold u T : ∀ L M c,
  foldl (λ x t, relayout_follow u t x) (L, M, c) T = (raise_all (c + 1) L T, M, c).
Proof.
  induction T as [|t T IH]; intros L M c; [done|].
  cbn [foldl relayout_follow]. by rewrite IH.
Qed.

Lemma visit_levels x u :
  (visit outgoing relayout_shift relayout_follow x u).1.1 = relax outgoing x.1.1 u.
Proof.
  destruct x as [[L M] c]. unfold visit. cbn [relayout_shift].
  by rewrite relayout_follow_fold.
Qed.

Lemma fold_levels l : ∀ x,
  (foldl (visit outgoing relayout_shift relayout_follow) x l).1.1
  = foldl (relax outgoing) x.1.1 l.
Proof.
  induction l as [|u l IH]; intros x; [done|].
  cbn [foldl]. by rewrite IH, visit_levels.
Qed.

Lemma loop_levels :
  (relayout_loop nodes edges).1.1 = foldl (relax outgoing) (seed_levels queue) order.
Proof.
  unfold relayout_loop. fold queue. fold outgoing. fold indegree.
  by rewrite run_queue_trace, fold_levels.
Qed.

Lemma loop_leveled :
  Leveled pairs queue order (foldl (relax outgoing) (seed_levels queue) order).
Proof.
  exact (leveled_order ids pairs outgoing flow_pairs_closed outgoing_spec
           queue indegree indegree_spec queue_nodup queue_spec).
Qed.

Lemma relayout_order_all v : v ∈ ids → v ∈ order.
Proof.
  exact (Levels.relax_order_all ids pairs outgoing ids_nodup flow_pairs_closed outgoing_spec
           queue indegree indegree_spec queue_nodup queue_spec flow_pairs_acyclic v).
Qed.

Lemma relayout_levels_eq :
  relayout_levels nodes edges = foldl (relax outgoing) (seed_levels queue) order.
Proof.
  rewrite <- loop_levels. unfold relayout_levels.
  pose proof loop_levels as HL. pose proof loop_leveled as HLv.
  rewrite <- HL in HLv.
  destruct (relayout_loop nodes edges) as [[level maxLevel] c].
  cbn [fst snd] in *.
  assert (filter (λ id, level !! id = None) (node_ids nodes) = []) as ->.
  { destruct (filter _ (node_ids nodes)) as [|id l] eqn:Ef; [done|].
    assert (id ∈ filter (λ id, level !! id = None) (node_ids nodes)) as Hin
      by (rewrite Ef; left).
    apply list_elem_of_filter in Hin as [Hnone Hid].
    destruct (lv_done _ _ _ _ HLv id (relayout_order_all id Hid)) as [l' Hl]. congruence. }
  done.
Qed.

Theorem relayout_edge e :
  e ∈ edges → e_source e ∈ ids → e_target e ∈ ids →
  ∃ ls lt, relayout_levels nodes edges !! e_source e = Some ls
           ∧ relayout_levels nodes edges !! e_target e = Some lt
           ∧ ls + 1 ≤ lt.
Proof.
  intros He Hs Ht. rewrite relayout_levels_eq.
  apply (lv_edge _ _ _ _ loop_leveled).
  - by apply relayout_order_all.
  - apply pairs_spec. repeat split; try done.
    apply list_elem_of_fmap. eauto.
Qed.
End Relayout.
End RelayoutFacts.

Module ImportLayoutFacts.
Import QueueFacts LayoutFacts Levels RelayoutFacts.

Lemma layout_edges_spec (l : list GraphEdge) : ∀ ind out,
  (∀ e, e ∈ l → is_Some (out !! ge_from e)) →
  ∃ ind' out',
    layout_edges l (ind, out) = Returned (ind', out')
    ∧ (∀ u, default [] (out' !! u)
            = default [] (out !! u) ++ map snd (filter (λ e, e.1 = u) (graph_pairs l)))
    ∧ (∀ v, default 0 (ind' !! v)
            = default 0 (ind !! v)
              + Z.of_nat (length (filter (λ e, e.2 = v) (graph_pairs l)))).
Proof.
  induction l as [|e l IH]; intros ind out Hk.
  - exists ind, out. split; [done|]. split; intros; simpl; [by rewrite app_nil_r|lia].
  - cbn [layout_edges].
    destruct (Hk e ltac:(left)) as [targets Hts]. rewrite Hts.
    destruct (IH (bump (ge_to e) ind) (<[ge_from e := targets ++ [ge_to e]]> out))
      as (ind' & out' & E & Hout & Hin).
    { intros e' He'. destruct (decide (ge_from e = ge_from e')) as [->|Hne].
      - rewrite lookup_insert_eq. eauto.
      - rewrite lookup_insert_ne by done. apply Hk. by right. }
    exists ind', out'. split; [done|].
    change (graph_pairs (e :: l)) with ((ge_from e, ge_to e) :: graph_pairs l).
    split.
    + intros u. rewrite Hout, filter_cons. simpl.
      destruct (decide (ge_from e = u)) as [<-|Hne].
      * rewrite lookup_insert_eq, Hts. simpl. by rewrite <- app_assoc.
      * by rewrite lookup_insert_ne.
    + intros v. rewrite Hin, ValidatorFacts.bump_lookup, filter_cons. simpl.
      destruct (decide (ge_to e = v)); simpl length; lia.
Qed.

Section ImportLayout.
Variable g : Graph.
Definition ids := map gn_id (g_nodes g).
Definition pairs := graph_pairs (g_edges g).

Hypothesis ids_nodup : NoDup ids.
Hypothesis edges_ref : ∀ e, e ∈ g_edges g → ge_from e ∈ ids ∧ ge_to e ∈ ids.
Hypothesis edges_acyclic : acyclic_on ids pairs.

Lemma graph_pairs_closed p : p ∈ pairs → p.1 ∈ ids ∧ p.2 ∈ ids.
Proof.
  unfold pairs, graph_pairs. intros (e & -> & He)%list_elem_of_fmap.
  by apply edges_ref.
Qed.

Lemma graph_pairs_acyclic : Kahn.acyclic pairs.
Proof.
  intros x Hx. apply (edges_acyclic x). revert Hx. apply tc_mono.
  intros a b Hab. pose proof (graph_pairs_closed _ Hab) as [? ?]. by repeat split.
Qed.

Theorem layout_edge :
  ∃ level, layout_levels g = Returned level
           ∧ ∀ e, e ∈ g_edges g →
               ∃ ls lt, level !! ge_from e = Some ls ∧ level !! ge_to e = Some lt
                        ∧ ls + 1 ≤ lt.
Proof.
  unfold layout_levels. fold ids.
  destruct (layout_edges_spec (g_edges g)
              (map_of (map (λ id, (id, 0)) ids))
              (map_of (map (λ id, (id, [])) ids)))
    as (indegree & outgoing & -> & Hout & Hin).
  { intros e He. apply map_of_is_Some. rewrite map_map. simpl.
    rewrite map_id. by apply edges_ref. }
  cbn [out_bind]. eexists. split; [done|].
  set (queue := filter (λ id, default 0 (indegree !! id) = 0) ids).
  assert (∀ u, targets_of outgoing u = map snd (filter (λ e, e.1 = u) pairs))
    as outgoing_spec.
  { intros u. unfold targets_of. rewrite Hout.
    by rewrite (map_of_default (λ id : string, id) []). }
  assert (∀ v, default 0 (indegree !! v) = Z.of_nat (Kahn.cnt pairs [] v))
    as indegree_spec.
  { intros v. rewrite Hin, (map_of_default (λ id : string, id) 0), Z.add_0_l.
    unfold Kahn.cnt. do 2 f_equal.
    apply list_filter_iff. intros e. rewrite elem_of_nil. tauto. }
  assert (NoDup queue) as queue_nodup by (by apply NoDup_filter).
  assert (∀ v, v ∈ queue ↔ v ∈ ids ∧ default 0 (indegree !! v) = 0) as queue_spec.
  { intros v. unfold queue. rewrite list_elem_of_filter. tauto. }
  pose proof (leveled_order ids pairs outgoing graph_pairs_closed outgoing_spec
                queue indegree indegree_spec queue_nodup queue_spec) as HLv.
  pose proof (Levels.relax_order_all ids pairs outgoing ids_nodup graph_pairs_closed outgoing_spec
                queue indegree indegree_spec queue_nodup queue_spec graph_pairs_acyclic)
    as Hall.
  rewrite run_queue_trace.
  fold (Kahn.order outgoing queue indegree).
  rewrite (foldl_ext_elem _ (relax outgoing)).
  2:{ intros L u Hu. unfold visit.
      exact (relax_reading ids pairs outgoing graph_pairs_closed outgoing_spec
               queue indegree indegree_spec queue_nodup queue_spec L u Hu). }
  intros e He. apply (lv_edge _ _ _ _ HLv).
  - apply Hall. by apply edges_ref.
  - unfold pairs, graph_pairs. apply list_elem_of_fmap. eauto.
Qed.
End ImportLayout.
End ImportLayoutFacts.

(** C6, as stated, fails: no levels can rise along every edge of a cycle.
    On two nodes with an edge each way the re-layout gives the levels 1 and
    2, and the edge from the second node to the first goes down. *)
Lemma leveling_fails_on_cycle :
  let a := mkFlowNode "a" "promptNode" (mkPosition 0 0) (mkNodeData "system" "A" "" []) in
  let b := mkFlowNode "b" "promptNode" (mkPosition 0 100) (mkNodeData "user" "B" "" []) in
  let edges := [mkFlowEdge "e1" "a" "b" smoothstep arrowClosed;
                mkFlowEdge "e2" "b" "a" smoothstep arrowClosed] in
  relayout_levels [a; b] edges !! "b" = Some 2
  ∧ relayout_levels [a; b] edges !! "a" = Some 1
  ∧ ¬ (2 + 1 ≤ 1).
Proof. vm_compute. repeat split; congruence. Qed.

(** C6 (amended): leveling is a function of the nodes and the edges, so two
    runs on the same graph give the same levels; and when the node ids are
    pairwise distinct and the edges between nodes form no cycle, every edge
    between two nodes goes from a level to a strictly greater one, in the
    re-layout and (for a graph whose edges all join nodes) in the import
    layout. *)
Theorem leveling_deterministic_and_rising :
  (∀ nodes edges first second,
     first = relayout_levels nodes edges → second = relayout_levels nodes edges →
     first = second)
  ∧ (∀ g first second,
       first = layout_levels g → second = layout_levels g → first = second)
  ∧ (∀ nodes edges,
       NoDup (node_ids nodes) →
       acyclic_on (node_ids nodes) (flow_pairs edges) →
       ∀ e, e ∈ edges → e_source e ∈ node_ids nodes → e_target e ∈ node_ids nodes →
         ∃ ls lt, relayout_levels nodes edges !! e_source e = Some ls
                  ∧ relayout_levels nodes edges !! e_target e = Some lt
                  ∧ ls + 1 ≤ lt)
  ∧ (∀ g,
       NoDup (map gn_id (g_nodes g)) →
       (∀ e, e ∈ g_edges g →
          ge_from e ∈ map gn_id (g_nodes g) ∧ ge_to e ∈ map gn_id (g_nodes g)) →
       acyclic_on (map gn_id (g_nodes g)) (graph_pairs (g_edges g)) →
       ∃ level, layout_levels g = Returned level
                ∧ ∀ e, e ∈ g_edges g →
                    ∃ ls lt, level !! ge_from e = Some ls ∧ level !! ge_to e = Some lt
                             ∧ ls + 1 ≤ lt).
Proof.
  split; [congruence|]. split; [congruence|]. split.
  - intros nodes edges Hnd Hac e. by apply RelayoutFacts.relayout_edge.
  - intros g Hnd Href Hac. by apply ImportLayoutFacts.layout_edge.
Qed.

Lemma leveling_deterministic_and_rising_witness :
  let a := mkFlowNode "a" "promptNode" (mkPosition 0 0) (mkNodeData "system" "A" "" []) in
  let b := mkFlowNode "b" "promptNode" (mkPosition 0 100) (mkNodeData "user" "B" "" []) in
  let e := mkFlowEdge "e1" "a" "b" smoothstep arrowClosed in
  ∃ ls lt, relayout_levels [a; b] [e] !! "a" = Some ls
           ∧ relayout_levels [a; b] [e] !! "b" = Some lt
           ∧ ls + 1 ≤ lt.
Proof.
  intros a b e.
  refine (proj1 (proj2 (proj2 leveling_deterministic_and_rising)) [a; b] [e] _ _ e _ _ _).
  - simpl. constructor; [|constructor; [|constructor]]; set_solver.
  - intros x Hx.
    assert (∀ u v, joins (node_ids [a; b]) (flow_pairs [e]) u v → u = "a" ∧ v = "b")
      as Hj.
    { intros u v (_ & _ & Huv). simpl in Huv.
      apply list_elem_of_singleton in Huv. by inversion Huv. }
    inversion Hx as [? ? H|? y ? H Hy]; subst.
    + apply Hj in H as [-> [=]].
    + apply Hj in H as [-> ->].
      inversion Hy as [? ? H|? z ? H _]; subst; by apply Hj in H as [[=] _].
  - left.
  - simpl. set_solver.
  - simpl. set_solver.
Defined.

(** ** Content and list items *)

Module ContentFacts.
Import LayoutFacts.

(** A node as [layoutGraph] builds it from the node [gn] of the graph. *)
Definition built_from (gn : GraphNode) (n : FlowNode) : Prop :=
  n_id n = gn_id gn
  ∧ d_role (n_data n) = gn_role gn
  ∧ d_label (n_data n) = gn_label gn
  ∧ d_content (n_data n) = gn_content gn
  ∧ ∃ w, d_listItems (n_data n) = (normalizeListItems [] (gn_content gn) w).1.

Lemma layout_node_spec byId l lane id w n w' :
  layout_node byId l lane id w = (Returned n, w') →
  ∃ gn, byId !! id = Some gn ∧ built_from gn n.
Proof.
  unfold layout_node. destruct (byId !! id) as [gn|]; [|discriminate].
  destruct (normalizeListItems [] (gn_content gn) w) as [items w1] eqn:E.
  intros [= <- <-]. exists gn. split; [done|].
  repeat split; try done. exists w. by rewrite E.
Qed.

Lemma layout_lane_spec byId l ids : ∀ lane w ns w',
  layout_lane byId l lane ids w = (Returned ns, w') →
  Forall (λ n, ∃ id gn, byId !! id = Some gn ∧ built_from gn n) ns.
Proof.
  induction ids as [|id ids IH]; intros lane w ns w'.
  - intros [= <- <-]. constructor.
  - cbn [layout_lane].
    destruct (layout_node byId l lane id w) as [[n|e] w1] eqn:E1; [|discriminate].
    destruct (layout_lane byId l (S lane) ids w1) as [[ns'|e] w2] eqn:E2;
      [|discriminate].
    intros [= <- <-]. constructor; [|by eapply IH].
    apply layout_node_spec in E1 as (gn & ? & ?). eauto.
Qed.

Lemma layout_lanes_spec byId grouped : ∀ w ns w',
  layout_lanes byId grouped w = (Returned ns, w') →
  Forall (λ n, ∃ id gn, byId !! id = Some gn ∧ built_from gn n) ns.
Proof.
  induction grouped as [|[l ids] grouped IH]; intros w ns w'.
  - intros [= <- <-]. constructor.
  - cbn [layout_lanes].
    destruct (layout_lane byId l 0 ids w) as [[ns1|e] w1] eqn:E1; [|discriminate].
    destruct (layout_lanes byId grouped w1) as [[ns2|e] w2] eqn:E2; [|discriminate].
    intros [= <- <-]. apply Forall_app. split.
    + by eapply layout_lane_spec.
    + by eapply IH.
Qed.

Lemma layoutGraph_nodes g w rfNodes rfEdges w' n :
  layoutGraph g w = (Returned (rfNodes, rfEdges), w') → n ∈ rfNodes →
  ∃ gn, gn ∈ g_nodes g ∧ built_from gn n.
Proof.
  unfold layoutGraph. destruct (layout_levels g) as [level|e]; [|discriminate].
  destruct (layout_lanes _ _ w) as [[ns|e] w1] eqn:E; [|discriminate].
  intros [= <- <- <-] Hn.
  apply layout_lanes_spec in E. rewrite Forall_forall in E.
  destruct (E n Hn) as (id & gn & Hgn & Hb).
  exists gn. split; [|done].
  apply map_of_lookup, list_elem_of_fmap in Hgn as (gn' & [= -> ->] & ?). done.
Qed.

Lemma updated_node nodeId patch current n :
  n ∈ updateNodeData nodeId patch current → n_id n = nodeId →
  ∃ old, old ∈ current ∧ n_data n = apply_patch patch (n_data old).
Proof.
  unfold updateNodeData. intros (old & -> & Hold)%list_elem_of_fmap.
  destruct (String.eqb_spec (n_id old) nodeId) as [E|N]; [eauto|].
  intros E'. done.
Qed.
End ContentFacts.




(** ** Sequencer *)

Module WalkFacts.
Import LayoutFacts.

Lemma size_list_to_set_le (l : list string) :
  (size (list_to_set l : gset string) ≤ length l)%nat.
Proof.
  induction l as [|x l IH]; [by rewrite list_to_set_nil, size_empty|].
  rewrite list_to_set_cons, size_union_alt, size_singleton. simpl.
  pose proof (subseteq_size (list_to_set l ∖ {[x]}) (list_to_set l : gset string)
                ltac:(set_solver)). lia.
Qed.

Section Walk.
Variable nodeMap : gmap string FlowNode.
Variable outgoing : gmap string (list string).
(** The ids a walk can meet. *)
Variable C : gset string.

Hypothesis keyed : ∀ k n, nodeMap !! k = Some n → n_id n = k.
Hypothesis targets_in : ∀ id t, t ∈ default [] (outgoing !! id) → t ∈ C.

Definition todo (st : gset string * list FlowNode) : nat := size (C ∖ st.1).

Record Inv (st : gset string * list FlowNode) : Prop := mkInv {
  inv_nodup : NoDup (node_ids st.2);
  inv_visited : ∀ x, x ∈ node_ids st.2 → x ∈ st.1;
  inv_ordered : ∀ x, x ∈ st.1 → is_Some (nodeMap !! x) → x ∈ node_ids st.2;
  inv_known : ∀ x, x ∈ node_ids st.2 → is_Some (nodeMap !! x)
}.

(** What a call of [walk] on [id] from [st] achieves. *)
Definition walked (id : string) (st st' : gset string * list FlowNode) : Prop :=
  st.1 ⊆ st'.1 ∧ id ∈ st'.1 ∧ Inv st'.

Lemma todo_mono st st' : st.1 ⊆ st'.1 → (todo st' ≤ todo st)%nat.
Proof.
  intros H. unfold todo. apply (subseteq_size (C ∖ st'.1) (C ∖ st.1)). set_solver.
Qed.

Lemma todo_visit id visited ordered ordered' :
  id ∈ C → id ∉ visited →
  (todo ({[id]} ∪ visited, ordered') < todo (visited, ordered))%nat.
Proof.
  intros HC Hv. unfold todo. simpl.
  apply (subset_size (C ∖ ({[id]} ∪ visited)) (C ∖ visited)). set_solver.
Qed.

Lemma fold_walk depth :
  (∀ id st, id ∈ C → (todo st < depth)%nat → Inv st →
     ∃ st', walk nodeMap outgoing depth id st = Some st' ∧ walked id st st') →
  ∀ ids st, (∀ id, id ∈ ids → id ∈ C) → (todo st < depth)%nat → Inv st →
    ∃ st', foldl (λ acc id, acc ≫= walk nodeMap outgoing depth id) (Some st) ids
           = Some st'
           ∧ st.1 ⊆ st'.1 ∧ (∀ id, id ∈ ids → id ∈ st'.1) ∧ Inv st'.
Proof.
  intros Hw ids. induction ids as [|id ids IH]; intros st HC Ht HI.
  - exists st. split; [done|]. split; [done|]. split; [|done].
    intros id Hid. by apply elem_of_nil in Hid.
  - cbn [foldl mbind option_bind].
    destruct (Hw id st (HC id ltac:(left)) Ht HI) as (st1 & E1 & Hs1 & Hid1 & HI1).
    rewrite E1.
    destruct (IH st1) as (st' & E & Hs & Hall & HI').
    + intros x Hx. apply HC. by right.
    + pose proof (todo_mono st st1 Hs1). lia.
    + done.
    + exists st'. split; [done|]. split; [set_solver|]. split; [|done].
      intros x [->|Hx]%elem_of_cons; [set_solver|by apply Hall].
Qed.

Lemma walk_returns depth : ∀ id st,
  id ∈ C → (todo st < depth)%nat → Inv st →
  ∃ st', walk nodeMap outgoing depth id st = Some st' ∧ walked id st st'.
Proof.
  induction depth as [|depth IH]; intros id [visited ordered] HC Ht HI; [lia|].
  cbn [walk].
  destruct (bool_decide_reflect (id ∈ visited)) as [Hv|Hv].
  { exists (visited, ordered). split; [done|]. split; [done|]. by split. }
  destruct (nodeMap !! id) as [node|] eqn:En.
  - assert (Inv ({[id]} ∪ visited, ordered ++ [node])) as HI1.
    { destruct HI as [Hnd Hvis Hord Hkn]. simpl in *.
      pose proof (keyed _ _ En) as Hk.
      assert (node_ids (ordered ++ [node]) = node_ids ordered ++ [id]) as Eo.
      { unfold node_ids. rewrite map_app. simpl. by rewrite Hk. }
      split; simpl; rewrite Eo.
      - apply NoDup_app. split; [done|]. split; [|apply NoDup_singleton].
        intros x Hx ->%list_elem_of_singleton. by apply Hv, Hvis.
      - intros x [Hx|Hx]%elem_of_app; [apply Hvis in Hx; set_solver|].
        apply list_elem_of_singleton in Hx. set_solver.
      - intros x [->%elem_of_singleton|Hx]%elem_of_union His;
          apply elem_of_app; [right; by left|left; by apply Hord].
      - intros x [Hx| ->%list_elem_of_singleton]%elem_of_app; [by apply Hkn|].
        rewrite En. eauto. }
    destruct (fold_walk depth IH
                (js_sort (sortByCanvas nodeMap) (default [] (outgoing !! id)))
                ({[id]} ∪ visited, ordered ++ [node]))
      as (st' & E & Hs & _ & HI').
    + intros t Ht'. rewrite js_sort_perm in Ht'. by eapply targets_in.
    + pose proof (todo_visit id visited ordered (ordered ++ [node]) HC Hv). lia.
    + done.
    + exists st'. split; [done|]. simpl in Hs.
      split; [simpl; set_solver|]. split; [set_solver|done].
  - exists ({[id]} ∪ visited, ordered). split; [done|].
    destruct HI as [Hnd Hvis Hord Hkn]. simpl in *.
    split; [simpl; set_solver|]. split; [simpl; set_solver|].
    split; simpl; [done|set_solver| |done].
    intros x [->%elem_of_singleton|Hx]%elem_of_union His.
    + rewrite En in His. by destruct His.
    + by apply Hord.
Qed.

(** The calls of the sequencer return, and leave every id they were
    called on visited. *)
Lemma walk_all_returns depth ids :
  (size C < depth)%nat → (∀ id, id ∈ ids → id ∈ C) →
  ∃ st', walk_all nodeMap outgoing depth ids (∅, []) = Some st'
         ∧ (∀ id, id ∈ ids → id ∈ st'.1) ∧ Inv st'.
Proof.
  intros Hd HC. unfold walk_all.
  destruct (fold_walk depth (walk_returns depth) ids (∅, []))
    as (st' & E & _ & Hall & HI); try done.
  - unfold todo. simpl. replace (C ∖ ∅) with C by set_solver. done.
  - split; simpl; [constructor|set_solver| |].
    + intros x Hx. set_solver.
    + intros x Hx. by apply elem_of_nil in Hx.
  - eauto.
Qed.
End Walk.
End WalkFacts.

Module SequencerFacts.
Import LayoutFacts WalkFacts.

Lemma sequencer_targets (nodes : list FlowNode) (edges : list FlowEdge) id t :
  t ∈ default [] ((sequencer_maps nodes edges).1 !! id) → t ∈ map e_target edges.
Proof.
  unfold sequencer_maps.
  assert (∀ l (st : gmap string (list string) * gmap string Z),
    t ∈ default [] ((foldl (λ '(outgoing, indegree) e,
           (<[e_source e := default [] (outgoing !! e_source e) ++ [e_target e]]> outgoing,
            bump (e_target e) indegree)) st l).1 !! id) →
    t ∈ map e_target l ∨ t ∈ default [] (st.1 !! id)) as H.
  { induction l as [|e l IH]; intros [out ind] Ht; [by right|].
    cbn [foldl] in Ht. apply IH in Ht as [Ht|Ht]; [left; by right|].
    simpl in Ht. destruct (decide (e_source e = id)) as [Heq|Hne].
    - rewrite Heq, lookup_insert_eq in Ht. simpl in Ht.
      apply elem_of_app in Ht as [Ht|Ht]; [by right|].
      apply list_elem_of_singleton in Ht as ->. left. left.
    - rewrite lookup_insert_ne in Ht by done. by right. }
  intros Ht. apply H in Ht as [Ht|Ht]; [done|].
  simpl in Ht. rewrite lookup_empty in Ht. by apply elem_of_nil in Ht.
Qed.

Lemma visit_order_ids (nodes : list FlowNode) (edges : list FlowEdge) :
  NoDup (node_ids nodes) → node_ids (visit_order nodes edges) ≡ₚ node_ids nodes.
Proof.
  intros Hnd. unfold visit_order.
  set (nodeMap := map_of (map (λ n, (n_id n, n)) nodes)).
  destruct (sequencer_maps nodes edges) as [outgoing indegree] eqn:Em.
  set (C := list_to_set (node_ids nodes ++ map e_target edges) : gset string).
  set (starts := js_sort by_canvas
                   (filter (λ n, default 0 (indegree !! n_id n) = 0) nodes)).
  destruct (walk_all_returns nodeMap outgoing C) with
    (depth := S (length nodes + length edges))
    (ids := node_ids starts ++ node_ids nodes) as (st' & E & Hall & HI).
  - intros k n Hk. unfold nodeMap in Hk.
    by apply map_of_lookup, list_elem_of_fmap in Hk as (n' & [= -> ->] & _).
  - intros id t Ht. unfold C. apply elem_of_list_to_set, elem_of_app. right.
    apply (sequencer_targets nodes edges id). by rewrite Em.
  - pose proof (size_list_to_set_le (node_ids nodes ++ map e_target edges)) as H.
    rewrite length_app in H. unfold node_ids in H. rewrite !length_map in H.
    fold (node_ids nodes) in H. fold C in H. lia.
  - intros id Hid. unfold C. apply elem_of_list_to_set, elem_of_app. left.
    apply elem_of_app in Hid as [Hid|Hid]; [|done].
    unfold node_ids, starts in *. apply list_elem_of_fmap in Hid as (n & -> & Hn).
    rewrite js_sort_perm in Hn. apply list_elem_of_filter in Hn as [_ Hn].
    apply list_elem_of_fmap. eauto.
  - rewrite E. destruct st' as [visited ordered]. destruct HI as [H1 H2 H3 H4].
    simpl in *. apply NoDup_Permutation; [done..|].
    intros x. split.
    + intros Hx. apply H4 in Hx. unfold nodeMap in Hx.
      by apply RelayoutFacts.map_of_nodes_is_Some in Hx.
    + intros Hx. apply H3.
      * apply Hall, elem_of_app. by right.
      * by apply RelayoutFacts.map_of_nodes_is_Some.
Qed.
End SequencerFacts.

(** C4, as stated, fails on a node list that repeats an id: the walk keeps
    one visited mark per id, so the second node of that id is never pushed.
    Two nodes with the id a give a sequence of length one. *)
Lemma buildPromptOutput_skips_repeated_id :
  let a1 := mkFlowNode "a" "promptNode" (mkPosition 0 0) (mkNodeData "user" "A" "x" []) in
  let a2 := mkFlowNode "a" "promptNode" (mkPosition 0 100) (mkNodeData "user" "B" "y" []) in
  length (sequence (buildPromptOutput [a1; a2] [])) ≠ length [a1; a2].
Proof. vm_compute. discriminate. Qed.

(** C4 (amended): for every node list with pairwise distinct ids and every
    edge list (any edges: dangling, cyclic, disconnected), the sequence has
    as many steps as there are nodes, its ids are the ids of the nodes, each
    exactly once, and its steps are numbered from 1. *)
Theorem buildPromptOutput_covers (nodes : list FlowNode) (edges : list FlowEdge) :
  NoDup (node_ids nodes) →
  length (sequence (buildPromptOutput nodes edges)) = length nodes
  ∧ map s_id (sequence (buildPromptOutput nodes edges)) ≡ₚ node_ids nodes
  ∧ map s_step (sequence (buildPromptOutput nodes edges)) = seq 1 (length nodes).
Proof.
  intros Hnd. pose proof (SequencerFacts.visit_order_ids nodes edges Hnd) as Hp.
  assert (length (visit_order nodes edges) = length nodes) as Hlen.
  { apply Permutation_length in Hp. unfold node_ids in Hp.
    by rewrite !length_map in Hp. }
  unfold buildPromptOutput. destruct nodes as [|n nodes]; [done|].
  cbn [sequence]. split; [|split].
  - by rewrite length_imap.
  - rewrite <- Hp. unfold node_ids.
    generalize (visit_order (n :: nodes) edges). intros l.
    induction l as [|x l IH] using rev_ind; [done|].
    by rewrite imap_app, !map_app, IH.
  - rewrite <- Hlen. generalize (visit_order (n :: nodes) edges). intros l.
    induction l as [|x l IH] using rev_ind; [done|].
    rewrite imap_app, map_app, IH, length_app, seq_app. simpl.
    by rewrite Nat.add_0_r.
Qed.

Lemma buildPromptOutput_covers_witness :
  let a := mkFlowNode "a" "promptNode" (mkPosition 0 0) (mkNodeData "system" "A" "x" []) in
  let b := mkFlowNode "b" "promptNode" (mkPosition 0 100) (mkNodeData "user" "B" "y" []) in
  let edges := [mkFlowEdge "e1" "a" "b" smoothstep arrowClosed;
                mkFlowEdge "e2" "b" "a" smoothstep arrowClosed;
                mkFlowEdge "e3" "b" "zz" smoothstep arrowClosed] in
  length (sequence (buildPromptOutput [a; b] edges)) = length [a; b]
  ∧ map s_id (sequence (buildPromptOutput [a; b] edges)) ≡ₚ node_ids [a; b]
  ∧ map s_step (sequence (buildPromptOutput [a; b] edges)) = seq 1 (length [a; b]).
Proof.
  intros a b edges. apply buildPromptOutput_covers.
  simpl. constructor; [|constructor; [|constructor]]; set_solver.
Defined.

(** ** Text importer *)

Module ImporterFacts.
Import Js JsFacts.

Lemma span_app p s a b : span p s = (a, b) → s = a +:+ b.
Proof.
  revert a b. induction s as [|c s IH]; intros a b; simpl.
  - by intros [= <- <-].
  - destruct (p c); [|by intros [= <- <-]].
    destruct (span p s) as [a' b']. intros [= <- <-].
    rewrite app_cons. f_equal. by apply IH.
Qed.

Lemma span_rest p s a b : span p s = (a, b) →
  match b with "" => True | String c _ => p c = false end.
Proof.
  revert a b. induction s as [|c s IH]; intros a b; simpl.
  - by intros [= <- <-].
  - destruct (p c) eqn:E; [|by intros [= <- <-]].
    destruct (span p s) as [a' b']. intros [= <- <-]. by eapply IH.
Qed.

Lemma span_all p s a b : span p s = (a, b) → all_chars p a = true.
Proof.
  revert a b. induction s as [|c s IH]; intros a b; simpl.
  - by intros [= <- <-].
  - destruct (p c) eqn:E; [|by intros [= <- <-]].
    destruct (span p s) as [a' b']. intros [= <- <-]. simpl.
    rewrite E. by eapply IH.
Qed.

Lemma strip_prefix_app p s r : strip_prefix p s = Some r → s = p +:+ r.
Proof.
  revert s. induction p as [|a p IH]; intros [|b s]; simpl; try by intros [= <-].
  destruct (Ascii.eqb a b) eqn:E; [|done].
  apply Ascii.eqb_eq in E as ->. intros H. rewrite app_cons. f_equal. by apply IH.
Qed.

Lemma trimEnd_suffix a b : trimEnd (a +:+ b) = a +:+ b → trimEnd b = b.
Proof.
  induction a as [|c a IH]; [done|].
  rewrite app_cons. intros H. by apply IH, (trimEnd_cons_fixed c).
Qed.

Lemma trimEnd_ws w : all_chars is_whitespace w = true → trimEnd w = "".
Proof.
  induction w as [|c w IH]; [done|]. simpl.
  intros [-> Hw]%andb_true_iff. by rewrite IH.
Qed.

(** The text of a child line is tidy: the line has no white space at its
    end, and the white space before the capture is taken greedily. *)
Lemma match_child_tidy no line text :
  tidy line → match_child no line = Some text → tidy text.
Proof.
  intros (_ & _ & Hend). unfold match_child.
  destruct (strip_prefix no line) as [[|c r]|] eqn:Ep; [done| |done].
  destruct (Ascii.eqb c "."); [|done].
  destruct (span is_digit r) as [digits r1] eqn:Ed.
  destruct (is_empty digits); [done|].
  apply strip_prefix_app in Ep. apply span_app in Ed.
  rewrite Ep in Hend. apply trimEnd_suffix, trimEnd_cons_fixed in Hend.
  rewrite Ed in Hend. apply trimEnd_suffix in Hend.
  unfold ws_then_rest. destruct (span is_whitespace r1) as [w r2] eqn:Ew.
  pose proof (span_app _ _ _ _ Ew) as Ea.
  pose proof (span_rest _ _ _ _ Ew) as Er.
  pose proof (span_all _ _ _ _ Ew) as Hw.
  destruct r2 as [|d r2].
  - cbn [is_empty]. rewrite app_nil_r in Ea. subst r1.
    rewrite (trimEnd_ws w Hw) in Hend. by subst w.
  - cbn [is_empty].
    destruct ((1 <=? String.length w)%nat &&
              all_chars (λ c, negb (is_line_terminator c)) (String d r2)); [|done].
    intros [= <-]. rewrite Ea in Hend. apply trimEnd_suffix in Hend.
    by split; [|split].
Qed.

Lemma tidy_continued c line : tidy c → tidy line → tidy (c +:+ " " +:+ line).
Proof.
  intros (Hc & Hs & _) Hl. rewrite <- app_assoc. apply tidy_app; [| |done].
  - intros E. by apply app_eq_nil in E as [? _].
  - destruct c; [done|]. by rewrite app_cons.
Qed.

Lemma set_last_snoc x before c : set_last x (before ++ [c]) = before ++ [x].
Proof.
  unfold set_last. rewrite length_app. simpl.
  replace (pred (length before + 1)) with (length before + 0)%nat by lia.
  by rewrite insert_app_r.
Qed.

(** *** Roles are never empty *)

Lemma role_prefix_nonempty names s role rest :
  Forall (λ n, n ≠ "") names → role_prefix names s = Some (role, rest) → role ≠ "".
Proof.
  induction 1 as [|name names Hn _ IH]; simpl; [done|].
  destruct (strip_prefix_ci name s) eqn:E; [|done].
  intros [= <- _]. destruct name as [|a p]; [done|].
  destruct s as [|b s]; [done|]. done.
Qed.

Lemma toLowerCase_nonempty s : s ≠ "" → toLowerCase s ≠ "".
Proof. by destruct s. Qed.

Lemma parent_roles_nonempty : Forall (λ n, n ≠ "") parent_roles.
Proof. by repeat constructor. Qed.

Lemma block_roles_nonempty : Forall (λ n, n ≠ "") block_roles.
Proof. by repeat constructor. Qed.

Lemma line_roles_nonempty : Forall (λ n, n ≠ "") line_roles.
Proof. by repeat constructor. Qed.

Lemma match_parent_role line no role :
  match_parent line = Some (no, role) → role ≠ "".
Proof.
  unfold match_parent. destruct line as [|c r]; [done|].
  destruct (Ascii.eqb c "["); [|done].
  destruct (span is_digit r) as [digits r1].
  destruct (is_empty digits); [done|].
  destruct r1 as [|d r2]; [done|].
  destruct (Ascii.eqb d "]"); [|done].
  destruct (role_prefix parent_roles (trimStart r2)) as [[role' rest]|] eqn:E; [|done].
  destruct (is_empty (trimStart rest)); [|done].
  intros [= _ <-]. eapply role_prefix_nonempty; [apply parent_roles_nonempty|done].
Qed.

Lemma block_header_role s role rest :
  block_header s = Some (role, rest) → role ≠ "".
Proof.
  unfold block_header. destruct s as [|c r]; [done|].
  destruct (Ascii.eqb c "["); [|done].
  destruct (span is_digit r) as [digits r1].
  destruct (is_empty digits); [done|].
  destruct r1 as [|d r2]; [done|].
  destruct (Ascii.eqb d "]"); [|done].
  destruct (role_prefix block_roles (trimStart r2)) as [[role' rest']|] eqn:E; [|done].
  destruct (span is_whitespace rest') as [w r3].
  destruct (after_last_newline w); [|done].
  intros [= <- _]. eapply role_prefix_nonempty; [apply block_roles_nonempty|done].
Qed.

Lemma scan_blocks_roles s : ∀ skip, Forall (λ b, b.1 ≠ "") (scan_blocks skip s).
Proof.
  induction s as [|c s IH]; intros [|skip]; cbn [scan_blocks].
  - unfold block_at. simpl. constructor.
  - constructor.
  - unfold block_at.
    destruct (block_header (String c s)) as [[role rest]|] eqn:E; [|apply IH].
    constructor; [|apply IH]. by eapply toLowerCase_nonempty, block_header_role.
  - apply IH.
Qed.

Lemma match_role_line_role line role content :
  match_role_line line = Some (role, content) → role ≠ "".
Proof.
  unfold match_role_line.
  destruct (role_prefix line_roles line) as [[role' rest]|] eqn:E; [|done].
  destruct (trimStart rest) as [|c r]; [done|].
  destruct (Ascii.eqb c ":"); [|done].
  destruct (ws_then_rest 0 r); [|done].
  intros [= <- _].
  eapply toLowerCase_nonempty, role_prefix_nonempty; [apply line_roles_nonempty|done].
Qed.

Lemma capitalize_returns role : role ≠ "" → ∃ label, capitalize role = Returned label.
Proof. destruct role; [done|]. simpl. eauto. Qed.

Lemma out_imap_returns {A B} (f : nat → A → outcome B) l :
  Forall (λ a, ∀ index, ∃ b, f index a = Returned b) l →
  ∀ index, ∃ bs, out_imap f index l = Returned bs.
Proof.
  induction 1 as [|a l Ha _ IH]; intros index; simpl; [eauto|].
  destruct (Ha index) as [b ->]. destruct (IH (S index)) as [bs ->].
  simpl. eauto.
Qed.

(** *** The states of the parent and child loop *)

Definition good (p : ParentBlock) : Prop :=
  pb_role p ≠ "" ∧ Forall tidy (children p).

Definition good_state (st : list ParentBlock * option ParentBlock) : Prop :=
  Forall good st.1 ∧ ∀ p, st.2 = Some p → good p.

Lemma parent_child_line_good st line :
  good_state st → good_state (parent_child_line st line).
Proof.
  destruct st as [closed current]. intros [Hc Ho]. simpl in Hc, Ho.
  unfold parent_child_line.
  destruct (truthy (trim line)) eqn:Et; [|done]. cbn [negb].
  apply truthy_true, tidy_trim in Et.
  destruct (match_parent (trim line)) as [[no role]|] eqn:Em.
  - split; simpl.
    + destruct current as [p|]; [|done]. apply Forall_app. split; [done|].
      constructor; [by apply Ho|done].
    + intros p [= <-]. split; simpl; [|done].
      by eapply toLowerCase_nonempty, match_parent_role.
  - destruct current as [p|]; [|done].
    destruct (Ho p eq_refl) as [Hr Hch].
    destruct (match_child (parentNo p) (trim line)) as [text|] eqn:Ec.
    + split; simpl; [done|]. intros ? [= <-]. split; simpl; [done|].
      apply Forall_app. split; [done|]. constructor; [|done].
      pose proof (match_child_tidy _ _ _ Et Ec) as Ht.
      by rewrite (trim_tidy _ Ht).
    + destruct (last (children p)) as [c|] eqn:El; [|done].
      split; simpl; [done|]. intros ? [= <-]. split; simpl; [done|].
      unfold set_last. apply Forall_insert; [done|].
      assert (tidy c) as Hc'.
      { apply last_Some in El as [before Eb]. rewrite Eb in Hch.
        apply Forall_app in Hch as [_ Hch]. by inversion Hch. }
      pose proof (tidy_continued _ _ Hc' Et) as Ht.
      by rewrite (trim_tidy _ Ht).
Qed.

Lemma parent_child_lines_good lines st :
  good_state st → good_state (foldl parent_child_line st lines).
Proof.
  revert st. induction lines as [|l lines IH]; intros st Hst; [done|].
  simpl. by apply IH, parent_child_line_good.
Qed.

Lemma start_good : good_state ([], None).
Proof. by split. Qed.

Lemma parent_child_blocks_good lines : Forall good (parent_child_blocks lines).
Proof.
  unfold parent_child_blocks.
  pose proof (parent_child_lines_good lines _ start_good) as H.
  destruct (foldl parent_child_line ([], None) lines) as [closed [p|]];
    destruct H as [Hc Ho]; simpl in *; [|done].
  apply Forall_app. split; [done|]. constructor; [by apply Ho|done].
Qed.

Lemma parent_nodes_return blocks :
  Forall good blocks → ∃ nodes, out_imap parent_node 0 blocks = Returned nodes.
Proof.
  intros H. apply out_imap_returns. eapply Forall_impl; [exact H|].
  intros p [Hr _] index. unfold parent_node.
  destruct (capitalize_returns _ Hr) as [label ->]. simpl. eauto.
Qed.

Lemma role_nodes_return (items : list (string * string)) :
  Forall (λ b, b.1 ≠ "") items → ∃ nodes, out_imap role_node 0 items = Returned nodes.
Proof.
  intros H. apply out_imap_returns. eapply Forall_impl; [exact H|].
  intros p Hr index. unfold role_node.
  destruct (capitalize_returns _ Hr) as [label ->]. simpl. eauto.
Qed.

Lemma role_lines_roles lines : Forall (λ b, b.1 ≠ "") (omap match_role_line lines).
Proof.
  induction lines as [|l lines IH]; [done|]. simpl.
  destruct (match_role_line l) as [[role content]|] eqn:E; [|done].
  constructor; [|done]. by eapply match_role_line_role.
Qed.

Lemma out_imap_nonempty {A B} (f : nat → A → outcome B) a l index bs :
  out_imap f index (a :: l) = Returned bs → bs ≠ [].
Proof.
  cbn [out_imap]. destruct (f index a) as [b|e]; [|discriminate].
  cbn [out_bind]. destruct (out_imap f (S index) l) as [bs'|e]; [|discriminate].
  by intros [= <-].
Qed.

(** A graph as the functions of the importer accept and build it: an
    object whose [nodes] and [edges] are arrays. *)
Definition graph_shaped (g : jsval) : Prop :=
  is_array (prop g "nodes") = true ∧ is_array (prop g "edges") = true.

Lemma chained_graph_shaped nodes :
  graph_shaped (js_of_graph {| g_nodes := nodes; g_edges := chain_edges nodes |}).
Proof. by split. Qed.

Lemma parsePromptTextToGraph_graph JSON_parse text :
  trim text ≠ "" →
  ∃ g, parsePromptTextToGraph JSON_parse text = Returned (ParseGraph g)
       ∧ graph_shaped g
       ∧ (g = extractJsonObject JSON_parse (trim text)
          ∨ ∃ nodes, nodes ≠ []
                     ∧ g = js_of_graph {| g_nodes := nodes;
                                          g_edges := chain_edges nodes |}).
Proof.
  intros Ht. unfold parsePromptTextToGraph.
  apply truthy_true in Ht. rewrite Ht. cbn [negb].
  destruct (js_truthy _ && _ && _) eqn:Ed.
  { eexists. split; [done|]. split; [|by left].
    apply andb_true_iff in Ed as [[_ ?]%andb_true_iff ?]. by split. }
  case_bool_decide as Hp.
  { destruct (parent_nodes_return _ (parent_child_blocks_good (split_lines (trim text))))
      as [nodes E]. rewrite E. cbn [out_bind]. eexists. split; [done|].
    split; [apply chained_graph_shaped|]. right. exists nodes. split; [|done].
    destruct (parent_child_blocks (split_lines (trim text))) as [|p ps]; [done|].
    by eapply out_imap_nonempty. }
  case_bool_decide as Ho.
  { eexists. split; [done|]. split; [apply chained_graph_shaped|].
    right. eexists. split; [|done].
    intros E. apply (f_equal length) in E. rewrite length_imap in E.
    by destruct (foldl outline_line ([], "") (content_lines (trim text))).1. }
  match goal with |- ∃ g, out_bind (out_imap role_node 0 ?items) _ = _ ∧ _ =>
    assert (items ≠ []) as Hne by (repeat case_bool_decide; done);
    destruct (role_nodes_return items) as [nodes E] end.
  { repeat case_bool_decide.
    - apply Forall_forall. intros b [_ Hb]%list_elem_of_filter. revert b Hb.
      apply Forall_forall, scan_blocks_roles.
    - apply role_lines_roles.
    - by repeat constructor.
    - by repeat constructor. }
  rewrite E. cbn [out_bind]. eexists. split; [done|].
  split; [apply chained_graph_shaped|]. right. exists nodes. split; [|done].
  match type of E with out_imap _ _ ?items = _ =>
    destruct items as [|b bs]; [done|] end.
  by eapply out_imap_nonempty.
Qed.
End ImporterFacts.

(** C5: the importer answers the error Prompt text is empty exactly when
    the text trims to the empty string, and on every other text it returns
    a graph: no other error and no exception, whatever JSON.parse does.  The
    graph is an object whose nodes and edges are arrays: either the value
    parsed from the text as JSON, or at least one node built from the text
    with the edges that chain the nodes in their order. *)
Theorem parsePromptTextToGraph_error_iff_empty
    (JSON_parse : string → option jsval) (text : string) :
  (parsePromptTextToGraph JSON_parse text = Returned (ParseError "Prompt text is empty.")
   ↔ Js.trim text = "")
  ∧ (Js.trim text ≠ "" →
     ∃ g, parsePromptTextToGraph JSON_parse text = Returned (ParseGraph g)
          ∧ is_array (prop g "nodes") = true
          ∧ is_array (prop g "edges") = true
          ∧ (g = extractJsonObject JSON_parse (Js.trim text)
             ∨ ∃ nodes, nodes ≠ []
                        ∧ g = js_of_graph {| g_nodes := nodes;
                                             g_edges := chain_edges nodes |})).
Proof.
  split; [split|].
  - intros H. destruct (decide (Js.trim text = "")) as [|Hne]; [done|].
    destruct (ImporterFacts.parsePromptTextToGraph_graph JSON_parse text Hne)
      as (g & Hg & _).
    congruence.
  - intros H. unfold parsePromptTextToGraph. by rewrite H.
  - intros Hne.
    destruct (ImporterFacts.parsePromptTextToGraph_graph JSON_parse text Hne)
      as (g & Hg & [Hn He] & Hshape).
    by exists g.
Qed.

Lemma parsePromptTextToGraph_error_iff_empty_witness :
  ∃ g, parsePromptTextToGraph (λ _, None) "  hello " = Returned (ParseGraph g)
       ∧ is_array (prop g "nodes") = true
       ∧ is_array (prop g "edges") = true
       ∧ (g = extractJsonObject (λ _, None) (Js.trim "  hello ")
          ∨ ∃ nodes, nodes ≠ []
                     ∧ g = js_of_graph {| g_nodes := nodes;
                                          g_edges := chain_edges nodes |}).
Proof.
  apply (proj2 (parsePromptTextToGraph_error_iff_empty (λ _, None) "  hello ")).
  vm_compute. discriminate.
Defined.

(** C7, as stated, fails while the open parent has no child yet: the line
    is not appended to anything, it is dropped.  The text of a parent line
    followed by the line hello imports as one node without content. *)
Lemma continuation_without_child_is_dropped :
  let parent := {| parentNo := "1"; pb_role := "system"; children := [] |} in
  foldl parent_child_line ([], None) ["[1] SYSTEM"] = ([], Some parent)
  ∧ Js.trim "hello" = "hello"
  ∧ match_parent "hello" = None
  ∧ match_child "1" "hello" = None
  ∧ foldl parent_child_line ([], None) ["[1] SYSTEM"; "hello"] = ([], Some parent)
  ∧ parsePromptTextToGraph (λ _, None) ("[1] SYSTEM" +:+ Js.nl +:+ "hello")
    = Returned (chained [{| gn_id := "import-1"; gn_role := "system";
                            gn_label := "System"; gn_content := "No content" |}]).
Proof. vm_compute. repeat split. Qed.

(** C7 (amended): after any lines that leave a parent open, a line that is
    not blank and matches neither the parent pattern nor the child pattern
    of the open parent is, when the parent has a child, appended without
    its surrounding white space to the text of the last child, after one
    space; when the parent has no child the line changes nothing. *)
Theorem continuation_line (rawLines : list string) (line : string)
    (closed : list ParentBlock) (p : ParentBlock) :
  foldl parent_child_line ([], None) rawLines = (closed, Some p) →
  Js.trim line ≠ "" →
  match_parent (Js.trim line) = None →
  match_child (parentNo p) (Js.trim line) = None →
  (children p = [] →
   foldl parent_child_line ([], None) (rawLines ++ [line]) = (closed, Some p))
  ∧ (∀ before lastChild, children p = before ++ [lastChild] →
     foldl parent_child_line ([], None) (rawLines ++ [line])
     = (closed, Some {| parentNo := parentNo p; pb_role := pb_role p;
                        children := before ++ [lastChild +:+ " " +:+ Js.trim line] |})).
Proof.
  intros Hst Hne Hp Hc. rewrite foldl_app, Hst. cbn [foldl].
  unfold parent_child_line. apply JsFacts.truthy_true in Hne as Ht.
  rewrite Ht, Hp, Hc. cbn [negb]. split.
  - by intros ->.
  - intros before lastChild E. rewrite E, last_snoc, ImporterFacts.set_last_snoc.
    pose proof (ImporterFacts.parent_child_lines_good rawLines _ ImporterFacts.start_good)
      as [_ Hgood].
    rewrite Hst in Hgood. destruct (Hgood p eq_refl) as [_ Hch].
    rewrite E in Hch. apply Forall_app in Hch as [_ Hch].
    apply Forall_inv in Hch.
    by rewrite (JsFacts.trim_tidy _
                  (ImporterFacts.tidy_continued _ _ Hch (JsFacts.tidy_trim _ Hne))).
Qed.

Lemma continuation_line_witness :
  foldl parent_child_line ([], None)
    (["[1] SYSTEM"; "1.1 Be concise."] ++ ["  and brief. "])
  = ([], Some {| parentNo := "1"; pb_role := "system";
                 children := [] ++ ["Be concise." +:+ " " +:+ Js.trim "  and brief. "] |}).
Proof.
  refine (proj2 (continuation_line ["[1] SYSTEM"; "1.1 Be concise."] "  and brief. " []
                   {| parentNo := "1"; pb_role := "system"; children := ["Be concise."] |}
                   _ _ _ _) [] "Be concise." _).
  - vm_compute. reflexivity.
  - vm_compute. discriminate.
  - vm_compute. reflexivity.
  - vm_compute. reflexivity.
  - reflexivity.
Defined.

(** ** The import scenario *)

Definition scenario_text : string :=
  Js.join Js.nl ["[1] SYSTEM"; "1.1 Be concise."; "[2] USER"; "2.1 Ask a question."].

Definition scenario_nodes : list GraphNode :=
  [{| gn_id := "import-1"; gn_role := "system"; gn_label := "System";
      gn_content := "1. Be concise." |};
   {| gn_id := "import-2"; gn_role := "user"; gn_label := "User";
      gn_content := "1. Ask a question." |}].

(** C8: the text of the scenario is not JSON, so JSON.parse throws on it;
    the importer then returns the graph of two nodes, system with content
    1. Be concise. and user with content 1. Ask a question., and the one
    edge from the first to the second. *)
Theorem import_scenario (JSON_parse : string → option jsval) :
  JSON_parse scenario_text = None →
  parsePromptTextToGraph JSON_parse scenario_text
  = Returned (ParseGraph (js_of_graph
                {| g_nodes := scenario_nodes;
                   g_edges := [{| ge_from := "import-1"; ge_to := "import-2" |}] |})).
Proof.
  intros H. unfold parsePromptTextToGraph.
  assert (Js.trim scenario_text = scenario_text) as -> by (vm_compute; reflexivity).
  assert (extractJsonObject JSON_parse scenario_text = JNull) as ->.
  { unfold extractJsonObject.
    assert (Js.trim scenario_text = scenario_text) as -> by (vm_compute; reflexivity).
    rewrite H. vm_compute. reflexivity. }
  vm_compute. reflexivity.
Qed.

Lemma import_scenario_witness :
  parsePromptTextToGraph (λ _, None) scenario_text
  = Returned (ParseGraph (js_of_graph
                {| g_nodes := scenario_nodes;
                   g_edges := [{| ge_from := "import-1"; ge_to := "import-2" |}] |})).
Proof. apply (import_scenario (λ _, None)). reflexivity. Defined.

(** ** The list model and the list editor *)

(** A list as the editor shows it: at least one row, every row with an id
    and a level from 1 to 3. *)
Definition editable (items : list ListItem) : Prop :=
  items ≠ [] ∧ Forall (λ it, li_id it ≠ "" ∧ 1 ≤ li_level it ≤ 3) items.

Module EditorFacts.
Import Js JsFacts.

Lemma clamp_level_range level : 1 ≤ clamp_level level ≤ 3.
Proof. unfold clamp_level. destruct level as [[| |]|]; lia. Qed.

Lemma clamp_level_fixed l : 1 ≤ l ≤ 3 → clamp_level (Some l) = l.
Proof. unfold clamp_level. destruct l; lia. Qed.

Lemma clamp_level_succ n :
  clamp_level (Some (Z.of_nat (S n))) = Z.max 1 (Z.min 3 (Z.of_nat (S n))).
Proof. unfold clamp_level. destruct (Z.of_nat (S n)) eqn:E; [lia|done..]. Qed.

Lemma level_of_as_clamp it :
  level_of it = Z.to_nat (clamp_level (Some (li_level it))).
Proof. unfold level_of, clamp_level. destruct (li_level it); lia. Qed.

Lemma gen_map_Forall {A B} (f : A → Gen B) (P : B → Prop) :
  (∀ a w, P (f a w).1) → ∀ l w, Forall P (gen_map f l w).1.
Proof.
  intros Hf. induction l as [|a l IH]; intros w; [constructor|].
  simpl. unfold gen_bind, gen_ret.
  specialize (Hf a w). destruct (f a w) as [b w1].
  specialize (IH w1). destruct (gen_map f l w1) as [bs w2].
  simpl in *. by constructor.
Qed.

Lemma gen_map_length {A B} (f : A → Gen B) l :
  ∀ w, length (gen_map f l w).1 = length l.
Proof.
  induction l as [|a l IH]; intros w; [done|].
  simpl. unfold gen_bind, gen_ret. destruct (f a w) as [b w1].
  specialize (IH w1). destruct (gen_map f l w1) as [bs w2]. simpl in *. by rewrite IH.
Qed.

Lemma gen_map_ext {A B} (f g : A → Gen B) :
  (∀ a w, f a w = g a w) → ∀ l w, gen_map f l w = gen_map g l w.
Proof.
  intros Hfg. induction l as [|a l IH]; intros w; [done|].
  simpl. unfold gen_bind. rewrite Hfg. destruct (g a w) as [b w1]. by rewrite IH.
Qed.

Lemma gen_map_nonempty {A B} (f : A → Gen B) a l w : (gen_map f (a :: l) w).1 ≠ [].
Proof.
  intros E. pose proof (gen_map_length f (a :: l) w) as H. rewrite E in H. done.
Qed.

Definition row_ok (it : ListItem) : Prop := li_id it ≠ "" ∧ 1 ≤ li_level it ≤ 3.

Lemma createListItem_ok text level w : row_ok (createListItem text level w).1.
Proof.
  unfold createListItem, fresh_item_id, gen_bind, gen_ret, draw. simpl.
  split; [done|apply clamp_level_range].
Qed.

Lemma normalize_raw_ok item w : row_ok (normalize_raw item w).1.
Proof.
  destruct item as [s|id text level]; [apply createListItem_ok|].
  unfold normalize_raw, createListItem, fresh_item_id, gen_bind, gen_ret, draw.
  destruct id as [i|]; [destruct (truthy i) eqn:E|]; simpl;
    (split; [|apply clamp_level_range]); try done.
  by apply truthy_true.
Qed.

Lemma item_of_line_ok line w : row_ok (item_of_line line w).1.
Proof.
  unfold item_of_line. destruct (match_numbered "." line) as [[num text]|];
    apply createListItem_ok.
Qed.

Lemma normalize_raw_fixes it w :
  row_ok it → normalize_raw (raw_of_item it) w = (it, w).
Proof.
  intros [Hid Hl]. unfold normalize_raw, raw_of_item, gen_bind, gen_ret.
  apply truthy_true in Hid. rewrite Hid. simpl.
  rewrite clamp_level_fixed by done. by destruct it.
Qed.

Lemma gen_map_fixes items w :
  Forall row_ok items → gen_map normalize_raw (map raw_of_item items) w = (items, w).
Proof.
  induction 1 as [|it items Hit _ IH]; [done|].
  cbn [map gen_map]. unfold gen_bind, gen_ret.
  rewrite normalize_raw_fixes by done. by rewrite IH.
Qed.

Definition line_of (token : string) (it : ListItem) : string :=
  let text := trim (li_text it) in
  if truthy text then token +:+ " " +:+ text else "".

Lemma render_items_tokens items : ∀ c,
  render_items c items = zip_with line_of (PromptNode.display_tokens c items) items.
Proof.
  induction items as [|it items IH]; intros c; [done|].
  simpl. rewrite <- level_of_as_clamp. f_equal. apply IH.
Qed.

Lemma join_nonempty sep x l : x ≠ "" → join sep (x :: l) ≠ "".
Proof.
  intros Hx. destruct l as [|y l]; [done|].
  rewrite join_cons. intros E. by apply app_eq_nil in E as [? _].
Qed.

Lemma line_nonempty token text : token +:+ " " +:+ text ≠ "".
Proof.
  intros E. apply app_eq_nil in E as [_ E].
  change (" " +:+ text) with (String " " text) in E. discriminate E.
Qed.

Lemma rendered_blank items :
  ListFacts.rendered items = "" ↔ Forall (λ it, trim (li_text it) = "") items.
Proof.
  unfold ListFacts.rendered. generalize [0; 0; 0]%nat. 
  induction items as [|it items IH]; intros c; [by split|].
  cbn [render_items]. destruct (truthy (trim (li_text it))) eqn:E.
  - rewrite filter_cons_True.
    2:{ apply truthy_true, line_nonempty. }
    split.
    + intros H. exfalso. revert H. apply join_nonempty, line_nonempty.
    + intros H. apply Forall_inv in H. apply truthy_true in E. done.
  - rewrite filter_cons_False by done. rewrite IH.
    split; [|by intros H; apply Forall_inv_tail in H].
    intros H. constructor; [|done].
    unfold truthy in E. apply negb_false_iff, is_empty_true in E. done.
Qed.

Lemma render_flat items : ∀ n,
  Forall (λ it, li_level it ≤ 1) items →
  render_items [n; 0; 0]%nat items
  = imap (λ index it, line_of (of_nat (S (n + index))) it) items.
Proof.
  induction items as [|it items IH]; intros n H; [done|].
  inversion H as [|? ? Hit Hrest]; subst.
  cbn [render_items]. rewrite imap_cons.
  assert (level_of it = 1%nat) as -> by (unfold level_of; lia).
  change (bump_counters 1 [n; 0; 0]%nat) with [S n; 0; 0]%nat.
  rewrite IH by done. unfold line_of, token_of. cbn [take map join].
  rewrite Nat.add_0_r. f_equal.
  apply imap_ext. intros i x _. simpl. by rewrite Nat.add_succ_r.
Qed.
End EditorFacts.


(** X2: the component's copy of [normalizeListItems] and the one of the
    application agree on every input, draw for draw, a value that is not an
    array counting as no items. *)
Theorem PromptNode_normalizeListItems_agrees (items : option (list RawItem))
    (fallbackContent : string) (w : Entropy) :
  PromptNode.normalizeListItems items fallbackContent w
  = normalizeListItems (default [] items) fallbackContent w.
Proof.
  assert (PromptNode.normalizeListItems None fallbackContent w
          = normalizeListItems [] fallbackContent w) as Hnone.
  { unfold PromptNode.normalizeListItems, normalizeListItems.
    destruct (Js.truthy fallbackContent) eqn:E.
    - destruct (content_lines fallbackContent) as [|l lines]; [done|].
      apply EditorFacts.gen_map_ext. intros line w'. unfold item_of_line.
      destruct (Js.match_numbered "." line) as [[num text]|]; [|done].
      unfold createListItem, fresh_item_id, PromptNode.makeItemId, gen_bind, gen_ret.
      by rewrite EditorFacts.clamp_level_succ.
    - unfold Js.truthy in E. apply negb_false_iff, JsFacts.is_empty_true in E.
      subst. done. }
  destruct items as [[|a items]|]; [exact Hnone| |exact Hnone].
  unfold PromptNode.normalizeListItems, normalizeListItems. simpl default.
  apply EditorFacts.gen_map_ext. intros [s|id text level] w'; [done|].
  unfold normalize_raw. destruct id as [i|]; [destruct (Js.truthy i)|]; done.
Qed.

(** X3: normalising a list the editor can show changes nothing: every item
    keeps its id, text and level, and no new id is drawn. *)
Theorem normalizeListItems_fixes_editable (items : list ListItem)
    (fallbackContent : string) (w : Entropy) :
  editable items →
  normalizeListItems (map raw_of_item items) fallbackContent w = (items, w).
Proof.
  intros [Hne Hok]. unfold normalizeListItems.
  destruct items as [|a items]; [done|].
  change (map raw_of_item (a :: items)) with (raw_of_item a :: map raw_of_item items).
  cbv iota. change (raw_of_item a :: map raw_of_item items)
    with (map raw_of_item (a :: items)).
  by apply EditorFacts.gen_map_fixes.
Qed.

Lemma normalizeListItems_fixes_editable_witness :
  let items := [mkListItem "li-1" "Be concise." 1; mkListItem "li-2" "" 3] in
  normalizeListItems (map raw_of_item items) "ignored" (λ k, Js.of_nat k)
  = (items, λ k, Js.of_nat k).
Proof.
  intros items. apply normalizeListItems_fixes_editable.
  split; [done|]. repeat constructor; simpl; done || lia.
Defined.

(** X4: the content of a node is made of the rows of its editor: each row
    with a text that is not blank gives the line of its displayed number, a
    space and its trimmed text; the numbers are those [buildDisplayTokens]
    shows beside the rows. *)
Theorem display_tokens_match_content (items : list ListItem) (w : Entropy) :
  (formatNumberedList (map raw_of_item items) w).1
  = Js.join Js.nl
      (filter (λ l, Js.truthy l = true)
         (zip_with (λ token it,
                      if Js.truthy (Js.trim (li_text it))
                      then token +:+ " " +:+ Js.trim (li_text it) else "")
                   (PromptNode.buildDisplayTokens items) items)).
Proof.
  rewrite ListFacts.formatNumberedList_rendered. unfold ListFacts.rendered.
  by rewrite EditorFacts.render_items_tokens.
Qed.

(** X5: the rendering is empty exactly when every text is blank. *)
Theorem formatNumberedList_blank_iff (items : list ListItem) (w : Entropy) :
  (formatNumberedList (map raw_of_item items) w).1 = ""
  ↔ Forall (λ it, Js.trim (li_text it) = "") items.
Proof.
  rewrite ListFacts.formatNumberedList_rendered. apply EditorFacts.rendered_blank.
Qed.

(** X6: in a list without nesting the k-th item is numbered k, blank items
    counted: the rendering is the lines [k text] of the items that are not
    blank. *)
Theorem formatNumberedList_flat (items : list ListItem) (w : Entropy) :
  Forall (λ it, li_level it ≤ 1) items →
  (formatNumberedList (map raw_of_item items) w).1
  = Js.join Js.nl
      (filter (λ l, Js.truthy l = true)
         (imap (λ index it,
                  if Js.truthy (Js.trim (li_text it))
                  then Js.of_nat (S index) +:+ " " +:+ Js.trim (li_text it) else "")
               items)).
Proof.
  intros H. rewrite ListFacts.formatNumberedList_rendered. unfold ListFacts.rendered.
  by rewrite (EditorFacts.render_flat items 0 H).
Qed.

Lemma formatNumberedList_flat_witness :
  let items := [mkListItem "a" "first" 1; mkListItem "b" " " 1; mkListItem "c" "third" 1] in
  (formatNumberedList (map raw_of_item items) (λ k, Js.of_nat k)).1
  = Js.join Js.nl ["1 first"; "3 third"].
Proof.
  intros items.
  refine (eq_trans (formatNumberedList_flat items (λ k, Js.of_nat k) _) _).
  - repeat constructor; simpl; lia.
  - reflexivity.
Defined.

(** X7: every control of a row of the editor hands on a list the editor
    can show: editing the text, indenting, outdenting, removing the row and
    adding one
    keep the list non-empty, the ids non-empty and the levels from 1 to 3;
    removing the only row leaves one blank row. *)
Theorem editor_controls_keep_list_editable (items : list ListItem) (index : nat)
    (value : string) (w : Entropy) :
  editable items → (index < length items)%nat →
  editable (PromptNode.edit_text index value items)
  ∧ editable (PromptNode.outdent index items)
  ∧ editable (PromptNode.indent index items)
  ∧ editable (PromptNode.remove_item index items w).1
  ∧ editable (PromptNode.add_item items w).1
  ∧ (length items = 1%nat → index = 0%nat →
     ∃ id, (PromptNode.remove_item index items w).1 = [mkListItem id "" 1]).
Proof.
  intros [Hne Hok] _.
  assert (∀ f : ListItem → ListItem,
            (∀ it, EditorFacts.row_ok it → EditorFacts.row_ok (f it)) →
            editable (alter f index items)) as Halter.
  { intros f Hf. split.
    - intros E. apply (f_equal length) in E. rewrite length_alter in E.
      by destruct items.
    - apply Forall_alter; [done|]. intros it _. apply Hf. }
  assert (∀ w', EditorFacts.row_ok (PromptNode.blank_item w').1) as Hblank.
  { intros w'. split; simpl; [done|lia]. }
  split; [|split; [|split; [|split; [|split]]]].
  - apply Halter. intros it [? ?]. by split.
  - apply Halter. intros it [? ?]. split; simpl; [done|lia].
  - apply Halter. intros it [? ?]. split; simpl; [done|lia].
  - unfold PromptNode.remove_item.
    pose proof (Forall_delete _ items index Hok) as Hd.
    destruct (delete index items) as [|x next]; [|by split].
    split; [done|]. constructor; [apply Hblank|constructor].
  - unfold PromptNode.add_item, gen_bind, gen_ret.
    pose proof (Hblank w) as Hb. destruct (PromptNode.blank_item w) as [it w'].
    split; [by destruct items|]. apply Forall_app. split; [done|].
    by constructor.
  - intros Hlen ->. destruct items as [|x [|y items]]; try done.
    simpl. eauto.
Qed.

Lemma editor_controls_keep_list_editable_witness :
  let items := [mkListItem "li-1" "Be concise." 1] in
  editable (PromptNode.indent 0 items).
Proof.
  intros items.
  refine (proj1 (proj2 (proj2
            (editor_controls_keep_list_editable items 0 "" (λ k, Js.of_nat k) _ _)))).
  - split; [done|]. repeat constructor; simpl; done || lia.
  - simpl. lia.
Defined.

(** X8: outdenting undoes indenting and indenting undoes outdenting, except
    at the ends of the range: at level 3 indenting does nothing and at
    level 1 outdenting does nothing. *)
Theorem indent_and_outdent (items : list ListItem) (index : nat) (it : ListItem) :
  items !! index = Some it →
  1 ≤ li_level it ≤ 3 →
  (li_level it < 3 → PromptNode.outdent index (PromptNode.indent index items) = items)
  ∧ (1 < li_level it → PromptNode.indent index (PromptNode.outdent index items) = items)
  ∧ (li_level it = 3 → PromptNode.indent index items = items)
  ∧ (li_level it = 1 → PromptNode.outdent index items = items).
Proof.
  intros Hit Hl.
  assert (∀ f : ListItem → ListItem, f it = it → alter f index items = items) as Hfix.
  { intros f Hf. apply list_eq. intros i. rewrite list_lookup_alter.
    case_decide; [subst i|done]. rewrite Hit. simpl. by rewrite Hf. }
  unfold PromptNode.outdent, PromptNode.indent.
  split; [|split; [|split]]; intros H.
  - rewrite list_alter_alter_eq. apply Hfix. destruct it as [id text level].
    simpl in *. f_equal. lia.
  - rewrite list_alter_alter_eq. apply Hfix. destruct it as [id text level].
    simpl in *. f_equal. lia.
  - apply Hfix. destruct it as [id text level]. simpl in *. f_equal. lia.
  - apply Hfix. destruct it as [id text level]. simpl in *. f_equal. lia.
Qed.

Lemma indent_and_outdent_witness :
  let items := [mkListItem "li-1" "Be concise." 1; mkListItem "li-2" "Be kind." 2] in
  PromptNode.outdent 1 (PromptNode.indent 1 items) = items.
Proof.
  intros items.
  refine (proj1 (indent_and_outdent items 1 (mkListItem "li-2" "Be kind." 2) _ _) _).
  - reflexivity.
  - simpl. lia.
  - simpl. lia.
Defined.

(** ** Sequencer, for every node list *)

Module SequencerFacts2.
Import LayoutFacts WalkFacts.

Section Values.
Variable nodeMap : gmap string FlowNode.
Variable outgoing : gmap string (list string).

(** Every node the walk pushes is the node the map holds for its id. *)
Definition held (st : gset string * list FlowNode) : Prop :=
  ∀ n, n ∈ st.2 → ∃ k, nodeMap !! k = Some n.

Lemma fold_held depth :
  (∀ id st st', walk nodeMap outgoing depth id st = Some st' → held st → held st') →
  ∀ ids st st',
    foldl (λ acc id, acc ≫= walk nodeMap outgoing depth id) (Some st) ids = Some st' →
    held st → held st'.
Proof.
  intros Hw ids. induction ids as [|id ids IH]; intros st st' E Hst.
  - by injection E as <-.
  - cbn [foldl] in E. simpl in E.
    destruct (walk nodeMap outgoing depth id st) as [st1|] eqn:E1.
    + eapply IH; [exact E|]. by eapply Hw.
    + exfalso. clear -E. induction ids as [|x ids IH]; [done|]. by apply IH.
Qed.

Lemma walk_held depth : ∀ id st st',
  walk nodeMap outgoing depth id st = Some st' → held st → held st'.
Proof.
  induction depth as [|depth IH]; intros id [visited ordered] st'; [done|].
  cbn [walk]. case_bool_decide; [by intros [= <-]|].
  destruct (nodeMap !! id) as [node|] eqn:En.
  - intros E Hst. eapply (fold_held depth IH); [exact E|].
    intros n [Hn| ->%list_elem_of_singleton]%elem_of_app; [by apply Hst|eauto].
  - intros [= <-] Hst. exact Hst.
Qed.
End Values.

Lemma visit_order_spec (nodes : list FlowNode) (edges : list FlowEdge) :
  NoDup (node_ids (visit_order nodes edges))
  ∧ (∀ id, id ∈ node_ids (visit_order nodes edges) ↔ id ∈ node_ids nodes)
  ∧ (∀ n, n ∈ visit_order nodes edges → n ∈ nodes).
Proof.
  unfold visit_order.
  set (nodeMap := map_of (map (λ n, (n_id n, n)) nodes)).
  destruct (sequencer_maps nodes edges) as [outgoing indegree] eqn:Em.
  set (C := list_to_set (node_ids nodes ++ map e_target edges) : gset string).
  set (starts := js_sort by_canvas
                   (filter (λ n, default 0 (indegree !! n_id n) = 0) nodes)).
  destruct (walk_all_returns nodeMap outgoing C) with
    (depth := S (length nodes + length edges))
    (ids := node_ids starts ++ node_ids nodes) as (st' & E & Hall & HI).
  - intros k n Hk. unfold nodeMap in Hk.
    by apply map_of_lookup, list_elem_of_fmap in Hk as (n' & [= -> ->] & _).
  - intros id t Ht. unfold C. apply elem_of_list_to_set, elem_of_app. right.
    apply (SequencerFacts.sequencer_targets nodes edges id). by rewrite Em.
  - pose proof (size_list_to_set_le (node_ids nodes ++ map e_target edges)) as H.
    rewrite length_app in H. unfold node_ids in H. rewrite !length_map in H.
    fold (node_ids nodes) in H. fold C in H. lia.
  - intros id Hid. unfold C. apply elem_of_list_to_set, elem_of_app. left.
    apply elem_of_app in Hid as [Hid|Hid]; [|done].
    unfold node_ids, starts in *. apply list_elem_of_fmap in Hid as (n & -> & Hn).
    rewrite js_sort_perm in Hn. apply list_elem_of_filter in Hn as [_ Hn].
    apply list_elem_of_fmap. eauto.
  - pose proof (fold_held nodeMap outgoing _ (walk_held nodeMap outgoing _) _ _ _ E)
      as Hheld.
    rewrite E. destruct st' as [visited ordered]. destruct HI as [H1 H2 H3 H4].
    simpl in *. split; [done|]. split.
    + intros x. split.
      * intros Hx. apply H4 in Hx. unfold nodeMap in Hx.
        by apply RelayoutFacts.map_of_nodes_is_Some in Hx.
      * intros Hx. apply H3.
        -- apply Hall, elem_of_app. by right.
        -- by apply RelayoutFacts.map_of_nodes_is_Some.
    + intros n Hn. destruct (Hheld ltac:(by intros ? ?%elem_of_nil) n Hn) as [k Hk].
      unfold nodeMap in Hk.
      by apply map_of_lookup, list_elem_of_fmap in Hk as (n' & [= -> ->] & ?).
Qed.

Lemma imap_step_ids (l : list FlowNode) :
  map s_id (imap (λ index node,
                    {| s_step := S index;
                       s_id := n_id node;
                       s_role := d_role (n_data node);
                       s_label := d_label (n_data node);
                       s_content := d_content (n_data node) |}) l)
  = node_ids l.
Proof.
  unfold node_ids. induction l as [|x l IH] using rev_ind; [done|].
  by rewrite imap_app, !map_app, IH.
Qed.

Lemma trim_bracket rest : Js.trim (String "[" rest) ≠ "".
Proof.
  unfold Js.trim. cbn [Js.trimEnd].
  change (Js.is_whitespace "[") with false. cbn [andb]. cbv iota.
  cbn [Js.trimStart]. by change (Js.is_whitespace "[") with false.
Qed.
End SequencerFacts2.

(** X9: for every node list and edge list, repeated ids and edges of any
    kind included, the sequence lists every id of the node list exactly
    once, is never longer than the node list, numbers its steps from 1, and
    shows under each id the role, label and content of a node of the list
    with that id. *)
Theorem buildPromptOutput_lists_each_id_once (nodes : list FlowNode)
    (edges : list FlowEdge) :
  let steps := sequence (buildPromptOutput nodes edges) in
  NoDup (map s_id steps)
  ∧ (∀ id, id ∈ map s_id steps ↔ id ∈ node_ids nodes)
  ∧ (length steps ≤ length nodes)%nat
  ∧ map s_step steps = seq 1 (length steps)
  ∧ (∀ s, s ∈ steps →
       ∃ n, n ∈ nodes ∧ s_id s = n_id n ∧ s_role s = d_role (n_data n)
            ∧ s_label s = d_label (n_data n) ∧ s_content s = d_content (n_data n)).
Proof.
  intros steps.
  destruct (SequencerFacts2.visit_order_spec nodes edges) as (Hnd & Hiff & Hin).
  unfold steps, buildPromptOutput. destruct nodes as [|n0 nodes].
  { simpl. split; [constructor|]. split; [done|]. split; [done|]. split; [done|].
    by intros s ?%elem_of_nil. }
  cbn [sequence]. rewrite SequencerFacts2.imap_step_ids, length_imap.
  split; [done|]. split; [done|]. split; [|split].
  - assert (node_ids (visit_order (n0 :: nodes) edges) ⊆+ node_ids (n0 :: nodes)) as H.
    { apply NoDup_submseteq; [done|]. intros x. apply Hiff. }
    apply submseteq_length in H. unfold node_ids in H. by rewrite !length_map in H.
  - generalize (visit_order (n0 :: nodes) edges). intros l.
    induction l as [|x l IH] using rev_ind; [done|].
    rewrite imap_app, map_app, IH, length_app, seq_app. simpl.
    by rewrite Nat.add_0_r.
  - intros s Hs. apply elem_of_lookup_imap in Hs as (i & n & -> & Hn).
    exists n. split; [|done]. apply Hin. by eapply list_elem_of_lookup_2.
Qed.

(** X10: the text offered for copying and download is the structured
    prompt whenever the canvas has a node, and the notice that there are no
    steps exactly when it has none. *)
Theorem getPromptContent_notice_iff_empty (nodes : list FlowNode)
    (edges : list FlowEdge) :
  (getPromptContent (buildPromptOutput nodes edges) = "No prompt steps yet."
   ↔ nodes = [])
  ∧ (nodes ≠ [] →
     getPromptContent (buildPromptOutput nodes edges)
     = structuredPrompt (buildPromptOutput nodes edges)
     ∧ ∃ rest, structuredPrompt (buildPromptOutput nodes edges) = "[1] " +:+ rest).
Proof.
  assert (nodes ≠ [] →
          ∃ rest, structuredPrompt (buildPromptOutput nodes edges) = "[1] " +:+ rest)
    as Hhead.
  { intros Hne. destruct nodes as [|n0 nodes]; [done|].
    destruct (SequencerFacts2.visit_order_spec (n0 :: nodes) edges) as (_ & Hiff & _).
    unfold buildPromptOutput. cbn [structuredPrompt].
    destruct (visit_order (n0 :: nodes) edges) as [|v l] eqn:E.
    { exfalso. assert (n_id n0 ∈ node_ids []) as H by (apply Hiff; left).
      by apply elem_of_nil in H. }
    rewrite imap_cons. cbn [map]. unfold step_text at 1. cbn [s_step s_role s_content].
    destruct (map step_text _) as [|y ys].
    - simpl. eexists. reflexivity.
    - rewrite JsFacts.join_cons. eexists. reflexivity. }
  assert (nodes ≠ [] →
          getPromptContent (buildPromptOutput nodes edges)
          = structuredPrompt (buildPromptOutput nodes edges)) as Hsame.
  { intros Hne. destruct (Hhead Hne) as [rest E]. unfold getPromptContent.
    rewrite E.
    assert (Js.truthy (Js.trim ("[1] " +:+ rest)) = true) as ->; [|done].
    apply JsFacts.truthy_true, SequencerFacts2.trim_bracket. }
  split; [split|].
  - intros H. destruct (decide (nodes = [])) as [|Hne]; [done|].
    rewrite (Hsame Hne) in H. destruct (Hhead Hne) as [rest E].
    rewrite E in H. discriminate H.
  - intros ->. reflexivity.
  - intros Hne. split; [by apply Hsame|by apply Hhead].
Qed.

Lemma getPromptContent_notice_iff_empty_witness :
  let a := mkFlowNode "a" "promptNode" (mkPosition 0 0)
             (mkNodeData "system" "System" "1 Be concise." []) in
  getPromptContent (buildPromptOutput [a] [])
  = structuredPrompt (buildPromptOutput [a] []).
Proof.
  intros a.
  refine (proj1 (proj2 (getPromptContent_notice_iff_empty [a] []) _)).
  discriminate.
Defined.

(** X11: removing the selected node takes away that node and every edge
    that starts or ends at it, keeps every other node and edge, and clears
    the selection; when every edge joined two nodes before, every edge
    still does.  With nothing selected the canvas is left as it is. *)
Theorem removeSelectedNode_leaves_no_dangling_edge (st : Canvas) (id : string) :
  c_selectedNodeId st = Some id → id ≠ "" →
  let st' := removeSelectedNode st in
  c_selectedNodeId st' = None
  ∧ (id ∉ node_ids (c_nodes st'))
  ∧ (∀ n, n ∈ c_nodes st' ↔ n ∈ c_nodes st ∧ n_id n ≠ id)
  ∧ (∀ e, e ∈ c_edges st' ↔ e ∈ c_edges st ∧ e_source e ≠ id ∧ e_target e ≠ id)
  ∧ ((∀ e, e ∈ c_edges st →
        e_source e ∈ node_ids (c_nodes st) ∧ e_target e ∈ node_ids (c_nodes st)) →
     ∀ e, e ∈ c_edges st' →
       e_source e ∈ node_ids (c_nodes st') ∧ e_target e ∈ node_ids (c_nodes st')).
Proof.
  intros Hsel Hid st'. unfold st', removeSelectedNode. rewrite Hsel.
  apply JsFacts.truthy_true in Hid. rewrite Hid. cbn [negb].
  cbn [c_nodes c_edges c_selectedNodeId].
  assert (∀ x, x ∈ node_ids (filter (λ n, n_id n ≠ id) (c_nodes st))
               ↔ x ∈ node_ids (c_nodes st) ∧ x ≠ id) as Hids.
  { intros x. unfold node_ids. rewrite !list_elem_of_fmap. split.
    - intros (n & -> & [? ?]%list_elem_of_filter). eauto.
    - intros [(n & -> & Hn) Hne]. exists n. split; [done|].
      by apply list_elem_of_filter. }
  split; [done|]. split; [by intros [_ ?]%Hids|]. split; [|split].
  - intros n. rewrite list_elem_of_filter. tauto.
  - intros e. rewrite list_elem_of_filter. tauto.
  - intros Href e [[Hs Ht] He]%list_elem_of_filter.
    destruct (Href e He). split; by apply Hids.
Qed.

Lemma removeSelectedNode_leaves_no_dangling_edge_witness :
  let a := mkFlowNode "a" "promptNode" (mkPosition 0 0) (mkNodeData "system" "A" "" []) in
  let b := mkFlowNode "b" "promptNode" (mkPosition 0 100) (mkNodeData "user" "B" "" []) in
  let st := mkCanvas [a; b] [mkFlowEdge "e1" "a" "b" smoothstep arrowClosed] (Some "b") in
  c_selectedNodeId (removeSelectedNode st) = None.
Proof.
  intros a b st.
  refine (proj1 (removeSelectedNode_leaves_no_dangling_edge st "b" _ _)).
  - reflexivity.
  - discriminate.
Defined.

(** X12: [updateNodeList] touches nothing but the data of the nodes with
    the given id: the nodes keep their number, order, ids, types and
    positions, every node with another id is left as it is, and a node with
    the given id keeps its role and label and gets the normalised list. *)
Theorem updateNodeList_frame (nodeId : string) (listItems : list RawItem)
    (current : list FlowNode) (w : Entropy) :
  Forall2 (λ before after,
             n_id after = n_id before ∧ n_type after = n_type before
             ∧ n_position after = n_position before
             ∧ (n_id before ≠ nodeId → after = before)
             ∧ (n_id before = nodeId →
                d_role (n_data after) = d_role (n_data before)
                ∧ d_label (n_data after) = d_label (n_data before)
                ∧ d_listItems (n_data after) = (normalizeListItems listItems "" w).1))
          current (updateNodeList nodeId listItems current w).1.
Proof.
  unfold updateNodeList, gen_bind, gen_ret.
  destruct (normalizeListItems listItems "" w) as [safeItems w1].
  destruct (formatNumberedList (map raw_of_item safeItems) w1) as [content w2].
  cbn [fst]. unfold updateNodeData.
  induction current as [|n current IH]; constructor; [|exact IH].
  destruct (String.eqb_spec (n_id n) nodeId) as [E|N]; simpl.
  - repeat split; done.
  - repeat split; done.
Qed.

(** ** Levels, groups and lanes *)

Module GroupFacts.
Import LayoutFacts.

Lemma group_push_new l id grouped :
  l ∉ map fst grouped → group_push l id grouped = grouped ++ [(l, [id])].
Proof.
  induction grouped as [|[l' ids] grouped IH]; intros Hl; [done|].
  simpl in *. destruct (Z.eqb_spec l l') as [->|Hne]; [set_solver|].
  rewrite IH; [done|set_solver].
Qed.

Lemma group_push_old l id grouped :
  l ∈ map fst grouped → NoDup (map fst grouped) →
  group_push l id grouped
  = map (λ g, if decide (g.1 = l) then (g.1, g.2 ++ [id]) else g) grouped.
Proof.
  induction grouped as [|[l' ids] grouped IH]; intros Hl Hnd.
  { by apply elem_of_nil in Hl. }
  simpl in *. inversion Hnd as [|? ? Hl' Hrest]; subst.
  destruct (Z.eqb_spec l l') as [->|Hne].
  - rewrite decide_True by done. f_equal.
    symmetry. etrans; [|apply map_id]. apply map_ext_in. intros [k g] Hg. simpl.
    rewrite decide_False; [done|]. intros ->. apply Hl'.
    apply list_elem_of_fmap. exists (l', g). split; [done|]. by apply list_elem_of_In.
  - rewrite decide_False by done. f_equal. apply IH; [set_solver|done].
Qed.

Lemma imap_index {A B} (f : nat → B) (l : list A) :
  imap (λ i _, f i) l = map f (seq 0 (length l)).
Proof.
  induction l as [|x l IH] using rev_ind; [done|].
  rewrite imap_app, IH, length_app, seq_app, map_app. simpl.
  by rewrite Nat.add_0_r.
Qed.

Lemma map_imap {A B C} (f : B → C) (g : nat → A → B) (l : list A) :
  map f (imap g l) = imap (λ i x, f (g i x)) l.
Proof. exact (fmap_imap g f l). Qed.

Section Groups.
Variable level : gmap string Z.

Definition lev (id : string) : Z := default 0 (level !! id).

(** What [grouped] holds after the ids [ids]: one group for every level
    met, with the ids of that level in the order of [ids]. *)
Definition groups_of (ids : list string) (grouped : list (Z * list string)) : Prop :=
  NoDup (map fst grouped)
  ∧ Forall (λ g, g.2 ≠ [] ∧ g.2 = filter (λ id, lev id = g.1) ids) grouped
  ∧ ∀ id, id ∈ ids → lev id ∈ map fst grouped.

Lemma filter_snoc_level l ids id :
  filter (λ x, lev x = l) (ids ++ [id])
  = filter (λ x, lev x = l) ids ++ (if decide (lev id = l) then [id] else []).
Proof.
  rewrite filter_app, filter_cons, filter_nil.
  by destruct (decide (lev id = l)).
Qed.

Lemma group_push_spec ids id grouped :
  groups_of ids grouped → groups_of (ids ++ [id]) (group_push (lev id) id grouped).
Proof.
  intros (Hnd & Hall & Hcov).
  destruct (decide (lev id ∈ map fst grouped)) as [Hin|Hnin].
  - rewrite group_push_old by done.
    assert (map fst (map (λ g : Z * list string,
                            if decide (g.1 = lev id) then (g.1, g.2 ++ [id]) else g)
                         grouped) = map fst grouped) as Hkeys.
    { rewrite map_map. apply map_ext. intros [k g]. simpl. by case_decide. }
    split; [by rewrite Hkeys|]. split.
    + apply Forall_fmap. eapply Forall_impl; [exact Hall|].
      intros [k g] [Hne Hg]. simpl in *. rewrite filter_snoc_level.
      case_decide as Hk; simpl.
      * subst k. rewrite decide_True by done. split; [by destruct g|by rewrite <- Hg].
      * rewrite decide_False by done. rewrite app_nil_r. done.
    + rewrite Hkeys. intros x [Hx| ->%list_elem_of_singleton]%elem_of_app; auto.
  - rewrite group_push_new by done. split; [|split].
    + rewrite map_app. simpl. apply NoDup_app. split; [done|].
      split; [|apply NoDup_singleton].
      intros k Hk ->%list_elem_of_singleton. done.
    + apply Forall_app. split.
      * apply Forall_forall. intros [k g] Hg.
        rewrite Forall_forall in Hall. destruct (Hall _ Hg) as [Hne Heq].
        simpl in *. rewrite filter_snoc_level, decide_False, app_nil_r; [done|].
        intros E. apply Hnin. rewrite E. apply list_elem_of_fmap.
        by exists (k, g).
      * constructor; [|constructor]. simpl. split; [done|].
        rewrite filter_snoc_level, decide_True by done.
        destruct (filter (λ x, lev x = lev id) ids) as [|x l] eqn:E; [done|].
        exfalso. assert (x ∈ filter (λ x, lev x = lev id) ids) as Hx
          by (rewrite E; left).
        apply list_elem_of_filter in Hx as [Hx1 Hx2].
        apply Hnin. rewrite <- Hx1. by apply Hcov.
    + intros x Hx. rewrite map_app, elem_of_app. simpl.
      apply elem_of_app in Hx as [Hx| ->%list_elem_of_singleton].
      * left. by apply Hcov.
      * right. left.
Qed.

Lemma group_by_level_spec ids : groups_of ids (group_by_level level ids).
Proof.
  unfold group_by_level. induction ids as [|id ids IH] using rev_ind.
  - split; [constructor|]. split; [constructor|]. by intros ? ?%elem_of_nil.
  - rewrite foldl_app. simpl. by apply group_push_spec.
Qed.

(** The plan of a layout: every id with its level and its lane. *)
Definition plan (grouped : list (Z * list string)) : list (string * Z * nat) :=
  mjoin (map (λ g, imap (λ lane id, (id, g.1, lane)) g.2) grouped).

Lemma plan_elem grouped id l lane :
  (id, l, lane) ∈ plan grouped ↔ ∃ g, (l, g) ∈ grouped ∧ g !! lane = Some id.
Proof.
  unfold plan. rewrite list_elem_of_join. split.
  - intros (x & Hx & (g & -> & Hg)%list_elem_of_fmap).
    apply elem_of_lookup_imap in Hx as (i & y & [= -> -> ->] & Hy).
    exists g.2. split; [by destruct g|done].
  - intros (g & Hg & Hlane). exists (imap (λ lane id, (id, l, lane)) g). split.
    + apply elem_of_lookup_imap. eauto.
    + apply list_elem_of_fmap. by exists (l, g).
Qed.

Lemma plan_perm g1 g2 : g1 ≡ₚ g2 → plan g1 ≡ₚ plan g2.
Proof. intros H. unfold plan. by rewrite H. Qed.

Lemma plan_ids grouped :
  map (λ p, p.1.1) (plan grouped) = mjoin (map snd grouped).
Proof.
  unfold plan. induction grouped as [|[l g] grouped IH]; [done|].
  simpl. rewrite map_app, IH. f_equal.
  clear. induction g as [|x g IH] using rev_ind; [done|].
  by rewrite imap_app, map_app, IH.
Qed.

Lemma groups_ids ids grouped :
  groups_of ids grouped → mjoin (map snd grouped) ≡ₚ ids.
Proof.
  intros (Hnd & Hall & Hcov). revert ids Hall Hcov.
  induction grouped as [|[l g] grouped IH]; intros ids Hall Hcov.
  - destruct ids as [|x ids]; [done|]. specialize (Hcov x ltac:(left)).
    by apply elem_of_nil in Hcov.
  - simpl in *. inversion Hnd as [|? ? Hl Hrest]; subst.
    inversion Hall as [|? ? [Hne Hg] Hall']; subst. simpl in *.
    rewrite (IH Hrest (filter (λ id, lev id ≠ l) ids)).
    + rewrite Hg. clear. induction ids as [|x ids IH]; [done|].
      rewrite !filter_cons. destruct (decide (lev x = l)); simpl.
      * rewrite decide_False by tauto. by rewrite IH.
      * rewrite decide_True by done. rewrite <- Permutation_middle. by rewrite IH.
    + apply Forall_forall. intros [k h] Hh. rewrite Forall_forall in Hall'.
      destruct (Hall' _ Hh) as [Hne' Hh']. simpl in *. split; [done|].
      rewrite Hh'. rewrite list_filter_filter. apply list_filter_iff.
      intros x. split; [|tauto]. intros ->. split; [done|]. intros ->.
      apply Hl. apply list_elem_of_fmap. by exists (l, h).
    + intros x [Hx1 Hx2]%list_elem_of_filter. specialize (Hcov x Hx2).
      apply elem_of_cons in Hcov as [?|?]; done.
Qed.

Lemma plan_level ids grouped id l lane :
  groups_of ids grouped → (id, l, lane) ∈ plan grouped → id ∈ ids ∧ lev id = l.
Proof.
  intros (_ & Hall & _) (g & Hg & Hlane)%plan_elem.
  rewrite Forall_forall in Hall. destruct (Hall _ Hg) as [_ E]. simpl in E.
  apply list_elem_of_lookup_2 in Hlane. rewrite E in Hlane.
  apply list_elem_of_filter in Hlane. tauto.
Qed.

Lemma plan_slots grouped :
  NoDup (map fst grouped) → NoDup (map (λ p, (p.1.2, p.2)) (plan grouped)).
Proof.
  unfold plan. induction grouped as [|[l g] grouped IH]; intros Hnd; [constructor|].
  simpl in *. inversion Hnd as [|? ? Hl Hrest]; subst.
  rewrite map_app. apply NoDup_app. split; [|split; [|by apply IH]].
  - rewrite map_imap. simpl.
    rewrite (imap_index (λ lane, (l, lane))).
    apply NoDup_fmap_2; [intros a b [=]; done|apply NoDup_seq].
  - intros [k lane] Hk1 Hk2. fold (plan grouped) in Hk2.
    apply list_elem_of_fmap in Hk1 as ([[id1 l1] lane1] & [= -> ->] & H1).
    apply elem_of_lookup_imap in H1 as (i & y & [= -> -> ->] & _).
    apply list_elem_of_fmap in Hk2 as ([[id2 l2] lane2] & [= -> ->] & H2).
    apply plan_elem in H2 as (g2 & Hg2 & _).
    apply Hl. apply list_elem_of_fmap. by exists (l2, g2).
Qed.

Lemma groups_of_perm ids g1 g2 : g1 ≡ₚ g2 → groups_of ids g1 → groups_of ids g2.
Proof.
  intros Hp (Hnd & Hall & Hcov). split; [|split].
  - by rewrite <- Hp.
  - by rewrite <- Hp.
  - intros id Hid. rewrite <- Hp. by apply Hcov.
Qed.

Lemma sorted_groups_spec ids :
  groups_of ids (sorted_groups (group_by_level level ids)).
Proof.
  eapply groups_of_perm; [|apply group_by_level_spec].
  unfold sorted_groups. symmetry. apply js_sort_perm.
Qed.

Lemma plan_covers ids grouped id :
  groups_of ids grouped → id ∈ ids → ∃ l lane, (id, l, lane) ∈ plan grouped.
Proof.
  intros Hg Hid. pose proof (groups_ids ids grouped Hg) as Hp.
  rewrite <- Hp, <- plan_ids in Hid.
  apply list_elem_of_fmap in Hid as ([[id' l] lane] & -> & H). eauto.
Qed.
End Groups.
End GroupFacts.

(** ** The import layout *)

Module ImportLayoutFacts2.
Import LayoutFacts GroupFacts.

Definition slot (l : Z) (lane : nat) : Position :=
  {| pos_x := 120 + Z.of_nat lane * 320; pos_y := 100 + l * 220 |}.

Lemma slot_inj l1 lane1 l2 lane2 :
  slot l1 lane1 = slot l2 lane2 → l1 = l2 ∧ lane1 = lane2.
Proof. unfold slot. intros [= H1 H2]. lia. Qed.

(** The node [n] built for the entry [p] of the plan. *)
Definition placed (byId : gmap string GraphNode) (p : string * Z * nat) (n : FlowNode)
  : Prop :=
  ∃ gn, byId !! p.1.1 = Some gn ∧ ContentFacts.built_from gn n
        ∧ n_type n = "promptNode" ∧ n_position n = slot p.1.2 p.2.

Lemma layout_lane_plan byId l ids : ∀ lane w,
  (∀ id, id ∈ ids → is_Some (byId !! id)) →
  ∃ ns w', layout_lane byId l lane ids w = (Returned ns, w')
           ∧ Forall2 (placed byId) (imap (λ i id, (id, l, (lane + i)%nat)) ids) ns.
Proof.
  induction ids as [|id ids IH]; intros lane w Hk.
  - exists [], w. split; [done|constructor].
  - cbn [layout_lane]. unfold layout_node.
    destruct (Hk id ltac:(left)) as [gn Hgn]. rewrite Hgn.
    destruct (normalizeListItems [] (gn_content gn) w) as [items w1] eqn:E.
    destruct (IH (S lane) w1) as (ns & w2 & -> & Hns).
    { intros x Hx. apply Hk. by right. }
    eexists _, w2. split; [done|]. rewrite imap_cons. constructor.
    + exists gn. simpl. rewrite Nat.add_0_r. split; [done|]. split; [|done].
      repeat split; try done. exists w. by rewrite E.
    + erewrite imap_ext; [exact Hns|]. intros i x _. simpl. f_equal. lia.
Qed.

Lemma layout_lanes_plan byId grouped : ∀ w,
  (∀ id, id ∈ mjoin (map snd grouped) → is_Some (byId !! id)) →
  ∃ ns w', layout_lanes byId grouped w = (Returned ns, w')
           ∧ Forall2 (placed byId) (plan grouped) ns.
Proof.
  induction grouped as [|[l ids] grouped IH]; intros w Hk.
  - exists [], w. split; [done|constructor].
  - cbn [layout_lanes].
    destruct (layout_lane_plan byId l ids 0 w) as (ns1 & w1 & -> & H1).
    { intros id Hid. apply Hk. simpl. apply elem_of_app. by left. }
    destruct (IH w1) as (ns2 & w2 & -> & H2).
    { intros id Hid. apply Hk. simpl. apply elem_of_app. by right. }
    eexists _, w2. split; [done|]. unfold plan. simpl.
    apply Forall2_app; [exact H1|exact H2].
Qed.

Lemma layout_edges_returned l : ∀ ind out st',
  layout_edges l (ind, out) = Returned st' →
  ∀ e, e ∈ l → is_Some (out !! ge_from e).
Proof.
  induction l as [|e l IH]; intros ind out st' E e' He'.
  { by apply elem_of_nil in He'. }
  cbn [layout_edges] in E.
  destruct (out !! ge_from e) as [targets|] eqn:Et; [|discriminate].
  apply elem_of_cons in He' as [->|He']; [by rewrite Et|].
  pose proof (IH _ _ _ E e' He') as H.
  destruct (decide (ge_from e = ge_from e')) as [<-|Hne]; [by rewrite Et|].
  by rewrite lookup_insert_ne in H.
Qed.

Lemma map_of_lookup_nodup {V} (entries : list (string * V)) k v :
  NoDup (map fst entries) → (k, v) ∈ entries → map_of entries !! k = Some v.
Proof.
  unfold map_of. intros Hnd Hin.
  induction entries as [|[k' v'] entries IH] using rev_ind.
  { by apply elem_of_nil in Hin. }
  rewrite foldl_app. simpl. rewrite map_app in Hnd. simpl in Hnd.
  apply NoDup_app in Hnd as (Hnd & Hdis & _).
  apply elem_of_app in Hin as [Hin|Hin].
  - rewrite lookup_insert_ne; [by apply IH|].
    intros <-. apply (Hdis k'); [|left]. apply list_elem_of_fmap. by exists (k', v).
  - apply list_elem_of_singleton in Hin as [= -> ->]. by rewrite lookup_insert_eq.
Qed.

Section Graph.
Variable g : Graph.
Definition ids : list string := map gn_id (g_nodes g).
Definition byId : gmap string GraphNode := map_of (map (λ n, (gn_id n, n)) (g_nodes g)).

Lemma byId_is_Some id : is_Some (byId !! id) ↔ id ∈ ids.
Proof.
  unfold byId, ids. rewrite map_of_is_Some, map_map. simpl. done.
Qed.

Lemma byId_keyed id gn : byId !! id = Some gn → gn_id gn = id ∧ gn ∈ g_nodes g.
Proof.
  unfold byId. intros H.
  by apply map_of_lookup, list_elem_of_fmap in H as (gn' & [= -> ->] & ?).
Qed.

Lemma layout_levels_returns :
  (∀ e, e ∈ g_edges g → ge_from e ∈ ids) → ∃ level, layout_levels g = Returned level.
Proof.
  intros Href. unfold layout_levels. fold ids.
  destruct (ImportLayoutFacts.layout_edges_spec (g_edges g)
              (map_of (map (λ id, (id, 0)) ids))
              (map_of (map (λ id, (id, [])) ids)))
    as (indegree & outgoing & -> & _).
  { intros e He. apply map_of_is_Some. rewrite map_map. simpl.
    rewrite map_id. by apply Href. }
  cbn [out_bind]. eauto.
Qed.

Lemma layout_levels_returned level :
  layout_levels g = Returned level → ∀ e, e ∈ g_edges g → ge_from e ∈ ids.
Proof.
  unfold layout_levels. fold ids.
  destruct (layout_edges _ _) as [[ind out]|msg] eqn:E; [|discriminate].
  intros _ e He. apply layout_edges_returned with (e := e) in E; [|done].
  apply map_of_is_Some in E. by rewrite map_map, map_id in E.
Qed.

(** What [layoutGraph] returns when it returns. *)
Lemma layoutGraph_plan w :
  (∀ e, e ∈ g_edges g → ge_from e ∈ ids) →
  ∃ level rfNodes w',
    layout_levels g = Returned level
    ∧ layoutGraph g w = (Returned (rfNodes, imap layout_edge (g_edges g)), w')
    ∧ Forall2 (placed byId) (plan (sorted_groups (group_by_level level ids))) rfNodes.
Proof.
  intros Href. destruct (layout_levels_returns Href) as [level El].
  unfold layoutGraph. rewrite El. fold ids. fold byId.
  pose proof (sorted_groups_spec level ids) as Hg.
  destruct (layout_lanes_plan byId (sorted_groups (group_by_level level ids)) w)
    as (ns & w' & -> & Hns).
  { intros id Hid. apply byId_is_Some. by rewrite (groups_ids level ids _ Hg) in Hid. }
  by exists level, ns, w'.
Qed.

Lemma layoutGraph_returned w rfNodes rfEdges w' :
  layoutGraph g w = (Returned (rfNodes, rfEdges), w') →
  (∀ e, e ∈ g_edges g → ge_from e ∈ ids)
  ∧ ∃ level,
      layout_levels g = Returned level
      ∧ rfEdges = imap layout_edge (g_edges g)
      ∧ Forall2 (placed byId) (plan (sorted_groups (group_by_level level ids))) rfNodes.
Proof.
  intros E.
  assert (∀ e, e ∈ g_edges g → ge_from e ∈ ids) as Href.
  { unfold layoutGraph in E. destruct (layout_levels g) as [level|msg] eqn:El.
    - by apply layout_levels_returned with level.
    - discriminate. }
  split; [done|].
  destruct (layoutGraph_plan w Href) as (level & ns & w1 & El & E' & Hns).
  rewrite E in E'. injection E' as -> -> ->. eauto.
Qed.
End Graph.
End ImportLayoutFacts2.

(** X13: [layoutGraph] returns exactly when every edge starts at the id of
    a node of the graph; with an edge that starts anywhere else it throws
    (the push onto a missing list of targets), before any item id is
    drawn.  An edge may end anywhere. *)
Theorem layoutGraph_returns_iff (g : Graph) (w : Entropy) :
  ((∃ rfNodes rfEdges w', layoutGraph g w = (Returned (rfNodes, rfEdges), w'))
   ↔ ∀ e, e ∈ g_edges g → ge_from e ∈ map gn_id (g_nodes g))
  ∧ ((∃ e, e ∈ g_edges g ∧ ge_from e ∉ map gn_id (g_nodes g)) →
     ∃ error, layoutGraph g w = (Threw error, w)).
Proof.
  split; [split|].
  - intros (rfNodes & rfEdges & w' & E).
    by apply ImportLayoutFacts2.layoutGraph_returned in E as [? _].
  - intros Href.
    destruct (ImportLayoutFacts2.layoutGraph_plan g w Href) as (? & ns & w' & _ & E & _).
    eauto.
  - intros (e & He & Hne). unfold layoutGraph.
    destruct (layout_levels g) as [level|msg] eqn:El; [|eauto].
    exfalso. apply Hne. by eapply ImportLayoutFacts2.layout_levels_returned.
Qed.

Lemma layoutGraph_returns_iff_witness :
  let g := {| g_nodes := [mkGraphNode "a" "system" "System" "x"];
              g_edges := [mkGraphEdge "ghost" "a"] |} in
  ∃ error, layoutGraph g (λ k, Js.of_nat k) = (Threw error, λ k, Js.of_nat k).
Proof.
  intros g. apply (proj2 (layoutGraph_returns_iff g (λ k, Js.of_nat k))).
  exists (mkGraphEdge "ghost" "a"). split; [left|].
  simpl. intros H. apply list_elem_of_singleton in H. discriminate H.
Defined.

(** X14: what [layoutGraph] returns is the graph it was given: the flow
    nodes are the graph's nodes in some order, each with the id, role,
    label and content of its graph node and the type promptNode, and the
    flow edges are the graph's edges in their order, each from its source
    to its target. *)
Theorem layoutGraph_keeps_graph (g : Graph) (w w' : Entropy)
    (rfNodes : list FlowNode) (rfEdges : list FlowEdge) :
  layoutGraph g w = (Returned (rfNodes, rfEdges), w') →
  map n_id rfNodes ≡ₚ map gn_id (g_nodes g)
  ∧ (NoDup (map gn_id (g_nodes g)) →
     map (λ n, mkGraphNode (n_id n) (d_role (n_data n)) (d_label (n_data n))
                           (d_content (n_data n))) rfNodes
     ≡ₚ g_nodes g)
  ∧ Forall (λ n, n_type n = "promptNode") rfNodes
  ∧ map (λ e, mkGraphEdge (e_source e) (e_target e)) rfEdges = g_edges g
  ∧ Forall (λ e, e_type e = "smoothstep") rfEdges.
Proof.
  intros E.
  apply ImportLayoutFacts2.layoutGraph_returned in E as (Href & level & El & -> & Hns).
  pose proof (GroupFacts.sorted_groups_spec level (ImportLayoutFacts2.ids g)) as Hg.
  pose proof (GroupFacts.groups_ids level _ _ Hg) as Hperm.
  rewrite <- GroupFacts.plan_ids in Hperm.
  set (pl := GroupFacts.plan (sorted_groups (group_by_level level (ImportLayoutFacts2.ids g))))
    in *.
  assert (map n_id rfNodes = map (λ p, p.1.1) pl) as Hids.
  { clear -Hns. induction Hns as [|p n pl ns (gn & Hgn & Hb & _) _ IH]; [done|].
    simpl. rewrite IH. f_equal.
    destruct Hb as (-> & _). by apply ImportLayoutFacts2.byId_keyed in Hgn as [? _]. }
  split; [by rewrite Hids|]. split; [|split; [|split]].
  - intros Hnd.
    assert (map (λ n, mkGraphNode (n_id n) (d_role (n_data n)) (d_label (n_data n))
                                  (d_content (n_data n))) rfNodes
            = omap (λ p, ImportLayoutFacts2.byId g !! p.1.1) pl) as ->.
    { clear -Hns. induction Hns as [|p n pl ns (gn & Hgn & Hb & _) _ IH]; [done|].
      csimpl. rewrite Hgn, IH. csimpl. f_equal.
      destruct Hb as (-> & -> & -> & -> & _). by destruct gn. }
    assert (omap (λ p, ImportLayoutFacts2.byId g !! p.1.1) pl
            = omap (λ id, ImportLayoutFacts2.byId g !! id) (map (λ p, p.1.1) pl)) as ->.
    { generalize pl. intros l. induction l as [|p l IH]; [done|].
      csimpl. by rewrite IH. }
    rewrite Hperm. unfold ImportLayoutFacts2.ids.
    assert (∀ l, (∀ gn, gn ∈ l → ImportLayoutFacts2.byId g !! gn_id gn = Some gn) →
                 omap (λ id, ImportLayoutFacts2.byId g !! id) (map gn_id l) = l) as H.
    { induction l as [|gn l IH]; intros Hl; [done|]. csimpl.
      rewrite (Hl gn) by left. csimpl. f_equal. apply IH. intros x Hx. apply Hl. by right. }
    rewrite H; [done|]. intros gn Hgn.
    apply ImportLayoutFacts2.map_of_lookup_nodup.
    + by rewrite map_map.
    + apply list_elem_of_fmap. eauto.
  - clear -Hns. induction Hns as [|p n pl ns (gn & _ & _ & Ht & _) _ IH]; by constructor.
  - generalize (g_edges g). intros l.
    induction l as [|e l IH] using rev_ind; [done|].
    rewrite imap_app, map_app, IH. simpl. by destruct e.
  - apply Forall_forall. intros e (i & x & -> & _)%elem_of_lookup_imap. done.
Qed.

Lemma layoutGraph_keeps_graph_witness :
  let g := {| g_nodes := [mkGraphNode "b" "user" "User" "1. Ask.";
                          mkGraphNode "a" "system" "System" "1. Be concise."];
              g_edges := [mkGraphEdge "a" "b"] |} in
  ∃ rfNodes rfEdges w',
    layoutGraph g (λ k, Js.of_nat k) = (Returned (rfNodes, rfEdges), w')
    ∧ map n_id rfNodes ≡ₚ map gn_id (g_nodes g)
    ∧ map (λ e, mkGraphEdge (e_source e) (e_target e)) rfEdges = g_edges g.
Proof.
  intros g. eexists _, _, _. split; [vm_compute; reflexivity|].
  assert (NoDup (map gn_id (g_nodes g))) as Hnd.
  { simpl. constructor; [|constructor; [|constructor]]; set_solver. }
  split.
  - refine (proj1 (layoutGraph_keeps_graph g (λ k, Js.of_nat k) _ _ _ _)).
    vm_compute. reflexivity.
  - refine (proj1 (proj2 (proj2 (proj2
              (layoutGraph_keeps_graph g (λ k, Js.of_nat k) _ _ _ _))))).
    vm_compute. reflexivity.
Defined.

Module ImportLayoutFacts3.

(** Where [layoutGraph] puts the nodes: in distinct places, every node on
    the row of its level. *)
Lemma layoutGraph_places (g : Graph) (w w' : Entropy)
    (rfNodes : list FlowNode) (rfEdges : list FlowEdge) :
  layoutGraph g w = (Returned (rfNodes, rfEdges), w') →
  NoDup (map n_position rfNodes)
  ∧ ∃ level, layout_levels g = Returned level
      ∧ Forall (λ n, ∃ lane : nat,
                  n_position n
                  = {| pos_x := 120 + Z.of_nat lane * 320;
                       pos_y := 100 + default 0 (level !! n_id n) * 220 |}) rfNodes.
Proof.
  intros E.
  apply ImportLayoutFacts2.layoutGraph_returned in E as (Href & level & El & -> & Hns).
  pose proof (GroupFacts.sorted_groups_spec level (ImportLayoutFacts2.ids g)) as Hg.
  set (pl := GroupFacts.plan (sorted_groups (group_by_level level (ImportLayoutFacts2.ids g))))
    in *.
  split.
  - assert (map n_position rfNodes
            = map (λ s, ImportLayoutFacts2.slot s.1 s.2) (map (λ p, (p.1.2, p.2)) pl)) as ->.
    { clear -Hns. induction Hns as [|p n pl ns (gn & _ & _ & _ & Hp) _ IH]; [done|].
      simpl. by rewrite IH, Hp. }
    apply NoDup_fmap_2.
    + intros [l1 k1] [l2 k2] H. simpl in H.
      apply ImportLayoutFacts2.slot_inj in H as [H1 H2]. by rewrite H1, H2.
    + apply GroupFacts.plan_slots. by destruct Hg.
  - exists level. split; [done|].
    assert (∀ p, p ∈ pl → GroupFacts.lev level p.1.1 = p.1.2) as Hlev.
    { intros [[id l] lane] Hp. by eapply GroupFacts.plan_level. }
    clear -Hns Hlev. induction Hns as [|p n pl ns (gn & Hgn & Hb & _ & Hp) _ IH];
      constructor.
    + exists p.2. rewrite Hp. unfold ImportLayoutFacts2.slot.
      destruct Hb as (-> & _). apply ImportLayoutFacts2.byId_keyed in Hgn as [-> _].
      pose proof (Hlev p ltac:(left)) as H. unfold GroupFacts.lev in H.
      by rewrite H.
    + apply IH. intros q Hq. apply Hlev. by right.
Qed.
End ImportLayoutFacts3.

(** X15: [layoutGraph] gives every node a place of its own, whatever the
    graph: the node in lane k of level l stands at x = 120 + 320 k and
    y = 100 + 220 l, and no two nodes stand at the same place. *)
Theorem layoutGraph_no_overlap (g : Graph) (w w' : Entropy)
    (rfNodes : list FlowNode) (rfEdges : list FlowEdge) :
  layoutGraph g w = (Returned (rfNodes, rfEdges), w') →
  NoDup (map n_position rfNodes)
  ∧ ∃ level, layout_levels g = Returned level
      ∧ Forall (λ n, ∃ lane : nat,
                  n_position n
                  = {| pos_x := 120 + Z.of_nat lane * 320;
                       pos_y := 100 + default 0 (level !! n_id n) * 220 |}) rfNodes.
Proof. apply ImportLayoutFacts3.layoutGraph_places. Qed.

Lemma layoutGraph_no_overlap_witness :
  let g := {| g_nodes := [mkGraphNode "a" "system" "System" "x";
                          mkGraphNode "a" "user" "User" "y"];
              g_edges := [] |} in
  ∃ rfNodes rfEdges w',
    layoutGraph g (λ k, Js.of_nat k) = (Returned (rfNodes, rfEdges), w')
    ∧ length rfNodes = 2%nat
    ∧ NoDup (map n_position rfNodes).
Proof.
  intros g. eexists _, _, _. split; [vm_compute; reflexivity|]. split; [reflexivity|].
  refine (proj1 (layoutGraph_no_overlap g (λ k, Js.of_nat k) _ _ _ _)).
  vm_compute. reflexivity.
Defined.

(** X16: in the import layout of a graph with distinct ids and edges
    between its nodes that form no cycle, every edge points down the
    canvas: the node at its target stands at least one row (220) below the
    node at its source. *)
Theorem layoutGraph_edges_point_down (g : Graph) (w w' : Entropy)
    (rfNodes : list FlowNode) (rfEdges : list FlowEdge) :
  NoDup (map gn_id (g_nodes g)) →
  (∀ e, e ∈ g_edges g →
     ge_from e ∈ map gn_id (g_nodes g) ∧ ge_to e ∈ map gn_id (g_nodes g)) →
  acyclic_on (map gn_id (g_nodes g)) (graph_pairs (g_edges g)) →
  layoutGraph g w = (Returned (rfNodes, rfEdges), w') →
  ∀ e s t, e ∈ rfEdges → s ∈ rfNodes → t ∈ rfNodes →
    n_id s = e_source e → n_id t = e_target e →
    pos_y (n_position s) + 220 ≤ pos_y (n_position t).
Proof.
  intros Hnd Href Hac E e s t He Hs Ht Es Et.
  destruct (ImportLayoutFacts3.layoutGraph_places g _ _ _ _ E) as (_ & level & El & Hrows).
  destruct (ImportLayoutFacts.layout_edge g Hnd Href Hac) as (level' & El' & Hedges).
  rewrite El in El'. injection El' as <-.
  apply ImportLayoutFacts2.layoutGraph_returned in E as (_ & _ & _ & -> & _).
  apply elem_of_lookup_imap in He as (i & ge & -> & Hge).
  apply list_elem_of_lookup_2 in Hge.
  destruct (Hedges ge Hge) as (ls & lt & Hls & Hlt & Hle).
  rewrite Forall_forall in Hrows.
  destruct (Hrows s Hs) as [ks ->]. destruct (Hrows t Ht) as [kt ->].
  simpl in *. rewrite Es, Et, Hls, Hlt. simpl. lia.
Qed.

Lemma layoutGraph_edges_point_down_witness :
  let g := {| g_nodes := [mkGraphNode "b" "user" "User" "1. Ask.";
                          mkGraphNode "a" "system" "System" "1. Be concise."];
              g_edges := [mkGraphEdge "a" "b"] |} in
  ∃ s t rfEdges w',
    layoutGraph g (λ k, Js.of_nat k) = (Returned ([s; t], rfEdges), w')
    ∧ n_id s = "a" ∧ n_id t = "b"
    ∧ pos_y (n_position s) + 220 ≤ pos_y (n_position t).
Proof.
  intros g. eexists _, _, _, _. split; [vm_compute; reflexivity|].
  split; [reflexivity|]. split; [reflexivity|].
  refine (layoutGraph_edges_point_down g (λ k, Js.of_nat k) _ _ _ _ _ _ _
            (layout_edge 0 (mkGraphEdge "a" "b")) _ _ _ _ _ _ _).
  - simpl. constructor; [|constructor; [|constructor]]; set_solver.
  - intros x ->%list_elem_of_singleton. simpl. set_solver.
  - intros x Hx.
    assert (∀ u v, joins (map gn_id (g_nodes g)) (graph_pairs (g_edges g)) u v
                   → u = "a" ∧ v = "b") as Hj.
    { intros u v (_ & _ & Huv). simpl in Huv.
      apply list_elem_of_singleton in Huv. by inversion Huv. }
    inversion Hx as [? ? H|? y ? H Hy]; subst.
    + apply Hj in H as [-> [=]].
    + apply Hj in H as [-> ->].
      inversion Hy as [? ? H|? z ? H _]; subst; by apply Hj in H as [[=] _].
  - vm_compute. reflexivity.
  - left.
  - left.
  - right. left.
  - reflexivity.
  - reflexivity.
Defined.

(** ** The validator on graphs of any size *)

(** What the validator wants of a node, of an edge over the ids [ids], and
    of the graph. *)
Definition node_accepted (n : GraphNode) : Prop :=
  gn_id n ≠ "" ∧ gn_role n ∈ validRoles ∧ Js.trim (gn_content n) ≠ "".

Definition edge_accepted (ids : list string) (e : GraphEdge) : Prop :=
  ge_from e ∈ ids ∧ ge_to e ∈ ids ∧ ge_from e ≠ ge_to e.

Definition touched (edges : list GraphEdge) (id : string) : Prop :=
  ∃ e, e ∈ edges ∧ (ge_from e = id ∨ ge_to e = id).

Definition valid_graph (g : Graph) : Prop :=
  let ids := map gn_id (g_nodes g) in
  g_nodes g ≠ []
  ∧ Forall node_accepted (g_nodes g)
  ∧ NoDup ids
  ∧ Forall (edge_accepted ids) (g_edges g)
  ∧ ((1 < length (g_nodes g))%nat → ∀ id, id ∈ ids → touched (g_edges g) id)
  ∧ acyclic_on ids (graph_pairs (g_edges g)).

Module GraphValidation.
Import ValidatorFacts.

Lemma prop_nodes g : prop (js_of_graph g) "nodes" = JArr (map js_of_node (g_nodes g)).
Proof. reflexivity. Qed.

Lemma prop_edges g : prop (js_of_graph g) "edges" = JArr (map js_of_edge (g_edges g)).
Proof. reflexivity. Qed.

Lemma id_of_node n : id_of (js_of_node n) = gn_id n.
Proof. reflexivity. Qed.

Lemma ids_of_nodes l : map id_of (map js_of_node l) = map gn_id l.
Proof. rewrite map_map. apply map_ext. intros n. apply id_of_node. Qed.

Lemma pairs_of_edges l : map pair_of (map js_of_edge l) = graph_pairs l.
Proof. unfold graph_pairs. rewrite map_map. by apply map_ext. Qed.

Lemma node_okb_node n : node_okb (js_of_node n) = true ↔ node_accepted n.
Proof.
  unfold node_okb, node_accepted.
  change (prop (js_of_node n) "id") with (JStr (gn_id n)).
  change (prop (js_of_node n) "role") with (JStr (gn_role n)).
  change (prop (js_of_node n) "label") with (JStr (gn_label n)).
  change (prop (js_of_node n) "content") with (JStr (gn_content n)).
  cbn [role_ok is_string_type content_ok].
  rewrite !andb_true_iff, bool_decide_eq_true, !JsFacts.truthy_true. tauto.
Qed.

Lemma nodes_okb l :
  Forall (λ n, node_okb n = true) (map js_of_node l) ↔ Forall node_accepted l.
Proof.
  rewrite Forall_fmap. apply Forall_proper; [|done]. intros n. apply node_okb_node.
Qed.

Lemma edge_okb_edge (S : gset string) e :
  edge_okb S (js_of_edge e) = true
  ↔ ge_from e ≠ "" ∧ ge_to e ≠ "" ∧ ge_from e ∈ S ∧ ge_to e ∈ S ∧ ge_from e ≠ ge_to e.
Proof.
  unfold edge_okb.
  change (prop (js_of_edge e) "from") with (JStr (ge_from e)).
  change (prop (js_of_edge e) "to") with (JStr (ge_to e)).
  rewrite !andb_true_iff, !bool_decide_eq_true, !JsFacts.truthy_true,
    negb_true_iff, String.eqb_neq. tauto.
Qed.

Section Graph.
Variable g : Graph.
Definition ids : list string := map gn_id (g_nodes g).
Definition nodes : list jsval := map js_of_node (g_nodes g).
Definition edges : list jsval := map js_of_edge (g_edges g).

Hypothesis nodes_accepted : Forall node_accepted (g_nodes g).
Hypothesis ids_nodup : NoDup ids.

Lemma nodes_ok : Forall (λ n, node_okb n = true) nodes.
Proof. by apply nodes_okb. Qed.

Lemma nodes_nodup : NoDup (map id_of nodes).
Proof. unfold nodes. by rewrite ids_of_nodes. Qed.

Definition t1 : Tally := foldl add_node empty_tally (map id_of nodes).

Lemma t1_spec a : a ∈ t_nodeIds t1 ↔ a ∈ ids.
Proof.
  unfold t1. rewrite (ValidatorProof2.t1_ids nodes nodes_ok nodes_nodup).
  unfold nodes. by rewrite ids_of_nodes.
Qed.

Lemma graph_ids_nonempty a : a ∈ ids → a ≠ "".
Proof.
  unfold ids. intros (n & -> & Hn)%list_elem_of_fmap.
  rewrite Forall_forall in nodes_accepted. by destruct (nodes_accepted n Hn).
Qed.

Lemma edges_ok :
  Forall (λ e, edge_okb (t_nodeIds t1) e = true) edges
  ↔ Forall (edge_accepted ids) (g_edges g).
Proof.
  unfold edges. rewrite Forall_fmap. apply Forall_proper; [|done].
  intros e. simpl. rewrite edge_okb_edge, !t1_spec. unfold edge_accepted.
  split; [tauto|]. intros (Hf & Ht & Hne).
  repeat split; try done; by apply graph_ids_nonempty.
Qed.

Hypothesis edges_accepted : Forall (edge_accepted ids) (g_edges g).

Lemma no_orphans_spec :
  no_orphans nodes edges ↔ ∀ id, id ∈ ids → touched (g_edges g) id.
Proof.
  unfold no_orphans, nodes, edges, ids, touched. split.
  - intros H id (n & -> & Hn)%list_elem_of_fmap.
    destruct (H (js_of_node n)) as (e' & (e & -> & He)%list_elem_of_fmap & Hsame).
    { apply list_elem_of_fmap. eauto. }
    exists e. split; [done|].
    destruct Hsame as [[=]|[=]]; [by left|by right].
  - intros H n' (n & -> & Hn)%list_elem_of_fmap.
    destruct (H (gn_id n)) as (e & He & Hsame).
    { apply list_elem_of_fmap. eauto. }
    exists (js_of_edge e). split; [apply list_elem_of_fmap; eauto|].
    destruct Hsame as [E|E]; [left|right];
      change (JStr (ge_from e) = JStr (gn_id n)) || change (JStr (ge_to e) = JStr (gn_id n));
      by rewrite E.
Qed.

Lemma graph_acyclic_spec : acyclic edges ↔ acyclic_on ids (graph_pairs (g_edges g)).
Proof.
  rewrite (ValidatorProof.acyclic_spec nodes (t_nodeIds t1)).
  2:{ intros a. rewrite t1_spec. unfold nodes. by rewrite ids_of_nodes. }
  2:{ by apply edges_ok. }
  unfold edges. rewrite pairs_of_edges. unfold Kahn.acyclic, acyclic_on.
  assert (∀ a b, Kahn.edge (graph_pairs (g_edges g)) a b
                 ↔ joins ids (graph_pairs (g_edges g)) a b) as Hsame.
  { intros a b. unfold Kahn.edge, joins. split; [|tauto]. intros Hab.
    split; [|split; [|done]];
      apply list_elem_of_fmap in Hab as (e & [= -> ->] & He);
      rewrite Forall_forall in edges_accepted;
      by destruct (edges_accepted e He) as (? & ? & _). }
  split; intros H x Hx; apply (H x); revert Hx; apply RelayoutFacts.tc_mono;
    intros a b; apply Hsame.
Qed.
End Graph.

Lemma accepts_iff g : validateGeneratedGraph (js_of_graph g) = None ↔ valid_graph g.
Proof.
  unfold validateGeneratedGraph, valid_graph.
  change (js_truthy (js_of_graph g)) with true.
  change (is_object_type (js_of_graph g)) with true. cbn [negb orb].
  rewrite prop_nodes, prop_edges. fold (nodes g) (edges g) (ids g).
  case_bool_decide as Hnil.
  { split; [discriminate|]. intros (Hne & _). exfalso. apply Hne.
    unfold nodes in Hnil. by destruct (g_nodes g). }
  assert (g_nodes g ≠ []) as Hne.
  { intros E. apply Hnil. unfold nodes. by rewrite E. }
  destruct (check_nodes (nodes g) empty_tally) as [msg|t1'] eqn:E1.
  { split; [discriminate|]. intros (_ & Hna & Hnd & _). exfalso.
    pose proof (proj2 (check_nodes_inr (nodes g) empty_tally _)
                  (conj (nodes_ok g Hna)
                     (conj (nodes_nodup g Hnd)
                        (conj (λ id _, not_elem_of_empty (C := gset string) id) eq_refl))))
      as E.
    congruence. }
  apply check_nodes_inr in E1 as (Hok & Hnd & _ & ->).
  apply nodes_okb in Hok. unfold nodes in Hnd. rewrite ids_of_nodes in Hnd.
  fold (ids g) in Hnd. fold (nodes g). fold (t1 g).
  destruct (check_edges (edges g) (t1 g)) as [msg|t] eqn:E2.
  { split; [discriminate|]. intros (_ & _ & _ & Hea & _). exfalso.
    pose proof (proj2 (check_edges_inr (edges g) (t1 g) _)
                  (conj (proj2 (edges_ok g Hok Hnd) Hea) eq_refl)) as E.
    congruence. }
  apply check_edges_inr in E2 as (Heok & ->).
  pose proof (proj1 (edges_ok g Hok Hnd) Heok) as Hea.
  pose proof (ValidatorProof2.orphan_spec (nodes g) (edges g)
                (nodes_ok g Hok) (nodes_nodup g Hnd) Heok) as Hos.
  pose proof (ValidatorProof2.visited_spec (nodes g) (edges g)
                (nodes_ok g Hok) (nodes_nodup g Hnd) Heok) as Hvs.
  rewrite (no_orphans_spec g) in Hos. rewrite (graph_acyclic_spec g Hok Hnd Hea) in Hvs.
  fold (t1 g) in Hos, Hvs.
  assert (length (nodes g) = length (g_nodes g)) as Hlen by apply length_map.
  destruct (1 <? length (nodes g))%nat eqn:Elt.
  - apply Nat.ltb_lt in Elt.
    destruct (find _ (nodes g)) as [n|] eqn:Ef.
    { split; [discriminate|]. intros (_ & _ & _ & _ & Ho & _).
      exfalso. assert (Some n = None) as H; [|discriminate H].
      apply Hos, Ho. lia. }
    case_bool_decide as Hv.
    + split; [intros _|done]. repeat split; try done.
      * intros _. by apply Hos.
      * by apply Hvs.
    + split; [discriminate|]. intros (_ & _ & _ & _ & _ & Hac). by apply Hvs in Hac.
  - apply Nat.ltb_ge in Elt.
    case_bool_decide as Hv.
    + split; [intros _|done]. repeat split; try done.
      * intros Hlt. lia.
      * by apply Hvs.
    + split; [discriminate|]. intros (_ & _ & _ & _ & _ & Hac). by apply Hvs in Hac.
Qed.
End GraphValidation.



(** ** Chains *)

Module ChainFacts.

Lemma chain_pairs nodes a b :
  (a, b) ∈ graph_pairs (chain_edges nodes)
  ↔ ∃ i, map gn_id nodes !! i = Some a ∧ map gn_id nodes !! S i = Some b.
Proof.
  induction nodes as [|x l IH].
  - split; [by intros ?%elem_of_nil|]. by intros (i & H & _).
  - destruct l as [|y l].
    + split; [by intros ?%elem_of_nil|]. by intros (i & _ & H).
    + change (graph_pairs (chain_edges (x :: y :: l)))
        with ((gn_id x, gn_id y) :: graph_pairs (chain_edges (y :: l))).
      rewrite elem_of_cons, IH. split.
      * intros [[= -> ->]|(i & H1 & H2)]; [by exists 0%nat|by exists (S i)].
      * intros ([|i] & H1 & H2).
        -- left. simpl in H1, H2. congruence.
        -- right. by exists i.
Qed.

Lemma chain_edges_length nodes : length (chain_edges nodes) = pred (length nodes).
Proof.
  induction nodes as [|x l IH]; [done|]. destruct l as [|y l]; [done|].
  change (chain_edges (x :: y :: l))
    with ({| ge_from := gn_id x; ge_to := gn_id y |} :: chain_edges (y :: l)).
  simpl length in *. by rewrite IH.
Qed.

Section Chain.
Variable nodes : list GraphNode.
Definition ids : list string := map gn_id nodes.
Hypothesis ids_nodup : NoDup ids.

Definition before (a b : string) : Prop :=
  ∃ i j, (i < j)%nat ∧ ids !! i = Some a ∧ ids !! j = Some b.

Lemma chain_before a b : joins ids (graph_pairs (chain_edges nodes)) a b → before a b.
Proof.
  intros (_ & _ & (i & H1 & H2)%chain_pairs). exists i, (S i). split; [lia|done].
Qed.

Lemma before_trans a b c : before a b → before b c → before a c.
Proof.
  intros (i & j & Hij & Hi & Hj) (j' & k & Hjk & Hj' & Hk).
  assert (j = j') as <- by (by eapply NoDup_lookup).
  exists i, k. split; [lia|done].
Qed.

Lemma chain_acyclic : acyclic_on ids (graph_pairs (chain_edges nodes)).
Proof.
  assert (∀ a b, tc (joins ids (graph_pairs (chain_edges nodes))) a b → before a b)
    as Htc.
  { intros a b Hab. induction Hab as [a b H|a b c H _ IH]; [by apply chain_before|].
    eapply before_trans; [by apply chain_before|done]. }
  intros x Hx. destruct (Htc x x Hx) as (i & j & Hij & Hi & Hj).
  assert (i = j) by (by eapply NoDup_lookup). lia.
Qed.

Lemma chain_edges_accepted : Forall (edge_accepted ids) (chain_edges nodes).
Proof.
  apply Forall_forall. intros e He.
  assert ((ge_from e, ge_to e) ∈ graph_pairs (chain_edges nodes)) as Hp.
  { unfold graph_pairs. apply list_elem_of_fmap. eauto. }
  apply chain_pairs in Hp as (i & H1 & H2). fold ids in H1, H2.
  split; [by eapply list_elem_of_lookup_2|]. split; [by eapply list_elem_of_lookup_2|].
  intros E. rewrite E in H1.
  assert (i = S i) by (by eapply NoDup_lookup). lia.
Qed.

Lemma chain_touches id :
  (1 < length nodes)%nat → id ∈ ids → touched (chain_edges nodes) id.
Proof.
  intros Hlen (i & Hi)%list_elem_of_lookup_1.
  pose proof (lookup_lt_Some _ _ _ Hi) as Hlt. unfold ids in Hlt.
  rewrite length_map in Hlt.
  assert (∀ a b, (a, b) ∈ graph_pairs (chain_edges nodes) →
                 ∃ e, e ∈ chain_edges nodes ∧ ge_from e = a ∧ ge_to e = b) as Hedge.
  { intros a b (e & [= -> ->] & He)%list_elem_of_fmap. eauto. }
  destruct (decide (S i < length nodes)%nat) as [Hs|Hs].
  - destruct (lookup_lt_is_Some_2 ids (S i)) as [b Hb].
    { unfold ids. by rewrite length_map. }
    destruct (Hedge id b) as (e & He & Hf & _); [apply chain_pairs; eauto|].
    exists e. split; [done|by left].
  - destruct i as [|i]; [lia|].
    destruct (lookup_lt_is_Some_2 ids i) as [a Ha].
    { unfold ids. rewrite length_map. lia. }
    destruct (Hedge a id) as (e & He & _ & Ht); [apply chain_pairs; eauto|].
    exists e. split; [done|by right].
Qed.

Lemma chain_valid :
  valid_graph {| g_nodes := nodes; g_edges := chain_edges nodes |}
  ↔ nodes ≠ [] ∧ Forall node_accepted nodes.
Proof.
  unfold valid_graph. cbn [g_nodes g_edges]. fold ids. split.
  - intros (? & ? & _). done.
  - intros [Hne Hok]. split; [done|]. split; [done|]. split; [done|].
    split; [apply chain_edges_accepted|]. split; [|apply chain_acyclic].
    intros Hlen id Hid. by apply chain_touches.
Qed.
End Chain.
End ChainFacts.

(** ** What the importer builds *)

Module ImportValidFacts.
Import Js JsFacts ImporterFacts.

Definition allRoles : list string := ["system"; "user"; "assistant"; "condition"].

(** The node at index [k] of an imported graph. *)
Definition imported_node (roles : list string) (k : nat) (n : GraphNode) : Prop :=
  gn_id n = import_id k ∧ gn_role n ∈ roles ∧ trim (gn_content n) ≠ "".

Definition imported (roles : list string) (nodes : list GraphNode) : Prop :=
  ∀ k n, nodes !! k = Some n → imported_node roles k n.

Lemma to_uint_nonnil n : Nat.to_uint n ≠ Decimal.Nil.
Proof.
  intros E. pose proof (Unsigned.of_to n) as H. rewrite E in H. simpl in H.
  subst n. discriminate E.
Qed.

Lemma of_nat_inj n m : of_nat n = of_nat m → n = m.
Proof.
  unfold of_nat. intros H.
  apply (f_equal NilZero.uint_of_string) in H.
  rewrite !NilZero.usu in H by apply to_uint_nonnil.
  injection H as H. by apply Unsigned.to_uint_inj.
Qed.

Lemma import_id_inj i j : import_id i = import_id j → i = j.
Proof.
  unfold import_id. intros H.
  change ("import-" +:+ of_nat (S i)) with
    (String "i" (String "m" (String "p" (String "o" (String "r" (String "t"
       (String "-" (of_nat (S i))))))))) in H.
  change ("import-" +:+ of_nat (S j)) with
    (String "i" (String "m" (String "p" (String "o" (String "r" (String "t"
       (String "-" (of_nat (S j))))))))) in H.
  injection H as H. apply of_nat_inj in H. lia.
Qed.

Lemma imported_ids roles nodes :
  imported roles nodes → NoDup (map gn_id nodes).
Proof.
  intros Hi. apply NoDup_alt. intros i j x Hxi Hxj.
  change (map gn_id nodes) with (gn_id <$> nodes) in Hxi, Hxj.
  apply list_lookup_fmap_Some in Hxi as (a & -> & Ha).
  apply list_lookup_fmap_Some in Hxj as (b & Hab & Hb).
  destruct (Hi _ _ Ha) as (Ea & _). destruct (Hi _ _ Hb) as (Eb & _).
  apply import_id_inj. congruence.
Qed.

Lemma imported_accepted roles nodes :
  imported roles nodes →
  Forall node_accepted nodes ↔ Forall (λ n, gn_role n ∈ validRoles) nodes.
Proof.
  intros Hi. rewrite !Forall_forall. split.
  - intros H n Hn. by destruct (H n Hn) as (_ & ? & _).
  - intros H n Hn. pose proof Hn as (k & Hk)%list_elem_of_lookup_1.
    destruct (Hi _ _ Hk) as (Eid & _ & Hc). split; [|by split; [apply H|]].
    rewrite Eid. discriminate.
Qed.

Lemma imported_valid roles nodes :
  nodes ≠ [] → imported roles nodes →
  valid_graph {| g_nodes := nodes; g_edges := chain_edges nodes |}
  ↔ Forall (λ n, gn_role n ∈ validRoles) nodes.
Proof.
  intros Hne Hi.
  rewrite (ChainFacts.chain_valid nodes (imported_ids roles nodes Hi)).
  rewrite (imported_accepted roles nodes Hi). tauto.
Qed.

(** *** Nodes by index *)

Lemma out_imap_lookup {A B} (f : nat → A → outcome B) l : ∀ index bs,
  out_imap f index l = Returned bs →
  ∀ k b, bs !! k = Some b → ∃ a, l !! k = Some a ∧ f (index + k)%nat a = Returned b.
Proof.
  induction l as [|a l IH]; intros index bs E k b Hk.
  - injection E as <-. done.
  - cbn [out_imap] in E. destruct (f index a) as [b0|e] eqn:Ef; [|discriminate].
    cbn [out_bind] in E.
    destruct (out_imap f (S index) l) as [bs'|e] eqn:El; [|discriminate].
    injection E as <-. destruct k as [|k].
    + injection Hk as <-. exists a. by rewrite Nat.add_0_r.
    + destruct (IH _ _ El k b Hk) as (a' & Ha' & Hf). exists a'. split; [done|].
      by rewrite Nat.add_succ_r.
Qed.

(** *** Contents are not blank *)

Lemma trim_head c s : is_whitespace c = false → trim (String c s) ≠ "".
Proof.
  intros Hc. unfold trim. cbn [trimEnd]. rewrite Hc. cbn [andb].
  cbn [trimStart]. by rewrite Hc.
Qed.

Lemma trim_clean s : s ≠ "" → starts_clean s → trim s ≠ "".
Proof. destruct s as [|c s]; [done|]. intros _ Hc. by apply trim_head. Qed.

Lemma trim_app_clean s t : s ≠ "" → starts_clean s → trim (s +:+ t) ≠ "".
Proof.
  destruct s as [|c s]; [done|]. intros _ Hc. rewrite app_cons. by apply trim_head.
Qed.

Lemma tidy_not_blank s : tidy s → trim s ≠ "".
Proof. intros (Hne & Hc & _). by apply trim_clean. Qed.

Lemma trim_of_trim s : trim s ≠ "" → trim (trim s) ≠ "".
Proof. by rewrite trim_idem. Qed.

Lemma content_lines_tidy raw : Forall tidy (content_lines raw).
Proof.
  unfold content_lines. apply Forall_forall.
  intros l [Hl (x & -> & _)%list_elem_of_fmap]%list_elem_of_filter.
  by apply tidy_trim, truthy_true.
Qed.

(** *** Roles *)

Lemma strip_prefix_ci_lower p : ∀ s r,
  strip_prefix_ci p s = Some r →
  toLowerCase (String.substring 0 (String.length p) s) = toLowerCase p.
Proof.
  induction p as [|a p IH]; intros s r H.
  - by destruct s.
  - destruct s as [|b s]; [done|]. cbn [strip_prefix_ci] in H.
    destruct (Ascii.eqb (lower_char a) (lower_char b)) eqn:E; [|done].
    apply Ascii.eqb_eq in E. cbn [String.length String.substring toLowerCase].
    rewrite (IH _ _ H). by rewrite E.
Qed.

Lemma strip_prefix_ci_app p : ∀ s r,
  strip_prefix_ci p s = Some r → s = String.substring 0 (String.length p) s +:+ r.
Proof.
  induction p as [|a p IH]; intros s r H.
  - destruct s; by injection H as <-.
  - destruct s as [|b s]; [done|]. cbn [strip_prefix_ci] in H.
    destruct (Ascii.eqb (lower_char a) (lower_char b)); [|done].
    cbn [String.length String.substring]. rewrite app_cons. f_equal. by apply IH.
Qed.

Lemma role_prefix_lower names s role rest :
  role_prefix names s = Some (role, rest) →
  toLowerCase role ∈ map toLowerCase names ∧ s = role +:+ rest.
Proof.
  induction names as [|name names IH]; [done|]. cbn [role_prefix].
  destruct (strip_prefix_ci name s) as [r|] eqn:E.
  - intros [= <- <-]. split.
    + cbn [map]. rewrite (strip_prefix_ci_lower _ _ _ E). left.
    + by apply strip_prefix_ci_app.
  - intros H. destruct (IH H) as [? ?]. split; [by right|done].
Qed.

Lemma match_parent_valid line no role :
  match_parent line = Some (no, role) → toLowerCase role ∈ validRoles.
Proof.
  unfold match_parent. destruct line as [|c r]; [done|].
  destruct (Ascii.eqb c "["); [|done].
  destruct (span is_digit r) as [digits r1].
  destruct (is_empty digits); [done|].
  destruct r1 as [|d r2]; [done|].
  destruct (Ascii.eqb d "]"); [|done].
  destruct (role_prefix parent_roles (trimStart r2)) as [[role' rest]|] eqn:E; [|done].
  destruct (is_empty (trimStart rest)); [|done].
  intros [= _ <-]. by apply role_prefix_lower in E as [E _].
Qed.

Lemma block_header_all s role rest :
  block_header s = Some (role, rest) → toLowerCase role ∈ allRoles.
Proof.
  unfold block_header. destruct s as [|c r]; [done|].
  destruct (Ascii.eqb c "["); [|done].
  destruct (span is_digit r) as [digits r1].
  destruct (is_empty digits); [done|].
  destruct r1 as [|d r2]; [done|].
  destruct (Ascii.eqb d "]"); [|done].
  destruct (role_prefix block_roles (trimStart r2)) as [[role' rest']|] eqn:E; [|done].
  destruct (span is_whitespace rest') as [w r3].
  destruct (after_last_newline w); [|done].
  intros [= <- _]. by apply role_prefix_lower in E as [E _].
Qed.

Lemma scan_blocks_all s : ∀ skip,
  Forall (λ b, b.1 ∈ allRoles ∧ ∃ body, b.2 = trim body) (scan_blocks skip s).
Proof.
  induction s as [|c s IH]; intros [|skip]; cbn [scan_blocks].
  - unfold block_at. simpl. constructor.
  - constructor.
  - unfold block_at.
    destruct (block_header (String c s)) as [[role rest]|] eqn:E; [|apply IH].
    constructor; [|apply IH]. split; [by eapply block_header_all|]. simpl. eauto.
  - apply IH.
Qed.

Lemma trimStart_suffix s : ∃ w, s = w +:+ trimStart s.
Proof.
  induction s as [|c s [w IH]]; [by exists ""|]. simpl.
  destruct (is_whitespace c); [|by exists ""].
  exists (String c w). rewrite app_cons. by f_equal.
Qed.

Lemma match_role_line_spec line role content :
  tidy line → match_role_line line = Some (role, content) →
  role ∈ allRoles ∧ trim content ≠ "".
Proof.
  intros (_ & _ & Hend). unfold match_role_line.
  destruct (role_prefix line_roles line) as [[role' rest]|] eqn:E; [|done].
  apply role_prefix_lower in E as [Hrole Hline].
  destruct (trimStart_suffix rest) as [w0 Hrest].
  destruct (trimStart rest) as [|c r]; [done|].
  destruct (Ascii.eqb c ":"); [|done].
  destruct (ws_then_rest 0 r) as [text|] eqn:Et; [|done].
  intros [= <- <-]. split; [done|]. apply trim_of_trim.
  rewrite Hline, Hrest in Hend.
  apply trimEnd_suffix, trimEnd_suffix, trimEnd_cons_fixed in Hend.
  unfold ws_then_rest in Et. destruct (span is_whitespace r) as [w r2] eqn:Ew.
  pose proof (span_app _ _ _ _ Ew) as Ea.
  pose proof (span_rest _ _ _ _ Ew) as Er.
  pose proof (span_all _ _ _ _ Ew) as Hw.
  destruct r2 as [|d r2].
  - cbn [is_empty] in Et. rewrite app_nil_r in Ea. subst r.
    rewrite (trimEnd_ws w Hw) in Hend. subst w. done.
  - cbn [is_empty] in Et.
    destruct ((0 <=? String.length w)%nat &&
              all_chars (λ c, negb (is_line_terminator c)) (String d r2)); [|done].
    injection Et as <-. by apply trim_head.
Qed.

(** *** The parent and child dialect *)

Definition fine (p : ParentBlock) : Prop :=
  pb_role p ∈ validRoles ∧ Forall tidy (children p).

Lemma parent_child_line_roles st line :
  (Forall (λ p, pb_role p ∈ validRoles) st.1
   ∧ ∀ p, st.2 = Some p → pb_role p ∈ validRoles) →
  Forall (λ p, pb_role p ∈ validRoles) (parent_child_line st line).1
  ∧ ∀ p, (parent_child_line st line).2 = Some p → pb_role p ∈ validRoles.
Proof.
  destruct st as [closed current]. intros [Hc Ho]. simpl in Hc, Ho.
  unfold parent_child_line.
  destruct (truthy (trim line)); [|done]. cbn [negb].
  destruct (match_parent (trim line)) as [[no role]|] eqn:Em.
  - split; simpl.
    + destruct current as [p|]; [|done]. apply Forall_app. split; [done|].
      constructor; [by apply Ho|done].
    + intros p [= <-]. simpl. by eapply match_parent_valid.
  - destruct current as [p|]; [|done].
    pose proof (Ho p eq_refl) as Hr.
    destruct (match_child (parentNo p) (trim line)) as [text|].
    + split; simpl; [done|]. by intros ? [= <-].
    + destruct (last (children p)) as [c|]; [|done].
      split; simpl; [done|]. by intros ? [= <-].
Qed.

Lemma parent_child_blocks_fine lines : Forall fine (parent_child_blocks lines).
Proof.
  assert (Forall (λ p, pb_role p ∈ validRoles) (parent_child_blocks lines)) as Hroles.
  { unfold parent_child_blocks.
    assert (∀ st,
      (Forall (λ p, pb_role p ∈ validRoles) st.1
       ∧ ∀ p, st.2 = Some p → pb_role p ∈ validRoles) →
      Forall (λ p, pb_role p ∈ validRoles) (foldl parent_child_line st lines).1
      ∧ ∀ p, (foldl parent_child_line st lines).2 = Some p → pb_role p ∈ validRoles)
      as H.
    { induction lines as [|l lines IH]; intros st Hst; [done|].
      simpl. by apply IH, parent_child_line_roles. }
    destruct (H ([], None)) as [Hc Ho]; [by split|].
    destruct (foldl parent_child_line ([], None) lines) as [closed [p|]];
      simpl in *; [|done].
    apply Forall_app. split; [done|]. constructor; [by apply Ho|done]. }
  pose proof (parent_child_blocks_good lines) as Hgood.
  rewrite Forall_forall in Hgood, Hroles. apply Forall_forall. intros p Hp.
  split; [by apply Hroles|]. by destruct (Hgood p Hp).
Qed.

Lemma parent_node_imported index p n :
  fine p → parent_node index p = Returned n → imported_node validRoles index n.
Proof.
  intros [Hr Hch]. unfold parent_node.
  destruct (capitalize (pb_role p)) as [label|e]; [|discriminate].
  cbn [out_bind]. intros [= <-]. split; [done|]. split; [done|]. simpl.
  destruct (children p) as [|c cs]; [by vm_compute|].
  rewrite imap_cons.
  change (of_nat 1 +:+ ". " +:+ c) with (String "1" (". " +:+ c)).
  destruct (imap _ cs) as [|y ys].
  - by apply trim_head.
  - rewrite join_cons, app_cons. by apply trim_head.
Qed.

Lemma parent_nodes_imported lines nodes :
  out_imap parent_node 0 (parent_child_blocks lines) = Returned nodes →
  imported validRoles nodes.
Proof.
  intros E k n Hk. destruct (out_imap_lookup _ _ _ _ E k n Hk) as (p & Hp & Hf).
  apply (parent_node_imported _ p); [|done].
  pose proof (parent_child_blocks_fine lines) as H. rewrite Forall_forall in H.
  apply H. by eapply list_elem_of_lookup_2.
Qed.

(** *** The outline dialect *)

Definition outlined (o : OutlineNode) : Prop :=
  on_role o = "user" ∧ trim (on_content o) ≠ "".

Lemma outline_line_spec st line :
  tidy line →
  (Forall outlined st.1 ∧ (st.2 = "" ∨ tidy st.2)) →
  Forall outlined (outline_line st line).1
  ∧ ((outline_line st line).2 = "" ∨ tidy (outline_line st line).2).
Proof.
  destruct st as [out section]. intros Hl [Ho Hs]. simpl in Ho, Hs.
  unfold outline_line.
  destruct (match_numbered ".)" line) as [[stepNo text]|]; [|by split; [|right]].
  destruct (truthy (trim text)) eqn:Et; [|done]. cbn [negb].
  split; [|done]. simpl. apply Forall_app. split; [done|].
  constructor; [|constructor]. split; [done|]. simpl.
  apply truthy_true in Et.
  destruct (truthy section) eqn:Es.
  - destruct Hs as [->|(Hne & Hc & _)]; [done|]. by apply trim_app_clean.
  - by apply trim_of_trim.
Qed.

Lemma outline_nodes_spec lines :
  Forall tidy lines → Forall outlined (foldl outline_line ([], "") lines).1.
Proof.
  assert (∀ st, Forall tidy lines →
            (Forall outlined st.1 ∧ (st.2 = "" ∨ tidy st.2)) →
            Forall outlined (foldl outline_line st lines).1
            ∧ ((foldl outline_line st lines).2 = ""
               ∨ tidy (foldl outline_line st lines).2)) as H.
  { induction lines as [|l lines IH]; intros st Hl Hst; [done|].
    inversion Hl; subst. simpl. apply IH; [done|]. by apply outline_line_spec. }
  intros Hl. apply H; [done|]. split; [constructor|by left].
Qed.

Lemma outline_imported (outlineNodes : list OutlineNode) :
  Forall outlined outlineNodes →
  imported validRoles
    (imap (λ index item,
             {| gn_id := import_id index; gn_role := on_role item;
                gn_label := on_label item; gn_content := on_content item |})
          outlineNodes).
Proof.
  intros Ho k n Hk. apply list_lookup_imap_Some in Hk as (o & Hok & ->).
  rewrite Forall_forall in Ho. destruct (Ho o) as [Hr Hc].
  { by eapply list_elem_of_lookup_2. }
  split; [done|]. split; [|done]. simpl. rewrite Hr. set_solver.
Qed.

(** *** The block and role line dialects *)

Lemma role_nodes_imported (items : list (string * string)) nodes :
  Forall (λ b, b.1 ∈ allRoles ∧ trim b.2 ≠ "") items →
  out_imap role_node 0 items = Returned nodes → imported allRoles nodes.
Proof.
  intros Hi E k n Hk. destruct (out_imap_lookup _ _ _ _ E k n Hk) as (b & Hb & Hf).
  rewrite Forall_forall in Hi. destruct (Hi b) as [Hr Hc].
  { by eapply list_elem_of_lookup_2. }
  unfold role_node in Hf. destruct (capitalize b.1) as [label|e]; [|discriminate].
  cbn [out_bind] in Hf. injection Hf as <-. by split.
Qed.

Lemma parsed_blocks_spec raw :
  Forall (λ b, b.1 ∈ allRoles ∧ trim b.2 ≠ "")
         (filter (λ b, truthy b.2 = true) (scan_blocks 0 raw)).
Proof.
  apply Forall_forall. intros b [Ht Hb]%list_elem_of_filter.
  pose proof (scan_blocks_all raw 0) as H. rewrite Forall_forall in H.
  destruct (H b Hb) as [Hr [body E]]. split; [done|].
  rewrite E. apply trim_of_trim. rewrite <- E. by apply truthy_true.
Qed.

Lemma role_lines_spec lines :
  Forall tidy lines →
  Forall (λ b, b.1 ∈ allRoles ∧ trim b.2 ≠ "") (omap match_role_line lines).
Proof.
  induction 1 as [|l lines Hl _ IH]; [constructor|]. csimpl.
  destruct (match_role_line l) as [[role content]|] eqn:E; [|done].
  csimpl. constructor; [|done]. by eapply match_role_line_spec.
Qed.
End ImportValidFacts.

Module ImportPipelineFacts.
Import Js JsFacts ImporterFacts ImportValidFacts.

Lemma valid_in_all roles : roles = validRoles → ∀ r : string, r ∈ roles → r ∈ allRoles.
Proof. intros -> r Hr. unfold validRoles, allRoles in *. set_solver. Qed.

Lemma imported_mono (roles roles' : list string) nodes :
  (∀ r : string, r ∈ roles → r ∈ roles') → imported roles nodes → imported roles' nodes.
Proof.
  intros Hsub Hi k n Hk. destruct (Hi k n Hk) as (? & ? & ?).
  split; [done|]. split; [by apply Hsub|done].
Qed.

Lemma all_but_condition (r : string) : r ∈ allRoles → r ∈ validRoles ↔ r ≠ "condition".
Proof.
  unfold allRoles, validRoles. intros Hr. split.
  - intros H ->. set_solver.
  - intros Hne. set_solver.
Qed.

(** The nodes the importer builds from a text that is not read as JSON. *)
Lemma parsePromptTextToGraph_nodes JSON_parse text :
  trim text ≠ "" →
  js_truthy (extractJsonObject JSON_parse (trim text))
  && is_array (prop (extractJsonObject JSON_parse (trim text)) "nodes")
  && is_array (prop (extractJsonObject JSON_parse (trim text)) "edges") = false →
  ∃ nodes, parsePromptTextToGraph JSON_parse text = Returned (chained nodes)
           ∧ nodes ≠ [] ∧ imported allRoles nodes.
Proof.
  intros Ht Hd. unfold parsePromptTextToGraph.
  pose proof Ht as Htr%truthy_true. rewrite Htr. cbn [negb]. rewrite Hd.
  case_bool_decide as Hp.
  { destruct (parent_nodes_return _ (parent_child_blocks_good (split_lines (trim text))))
      as [nodes E]. rewrite E. cbn [out_bind]. exists nodes. split; [done|]. split.
    - destruct (parent_child_blocks (split_lines (trim text))) as [|p ps]; [done|].
      by eapply out_imap_nonempty.
    - apply (imported_mono validRoles); [by apply valid_in_all|].
      by eapply parent_nodes_imported. }
  case_bool_decide as Ho.
  { eexists. split; [done|]. split.
    - intros E. apply (f_equal length) in E. rewrite length_imap in E.
      by destruct (foldl outline_line ([], "") (content_lines (trim text))).1.
    - apply (imported_mono validRoles); [by apply valid_in_all|].
      apply outline_imported, outline_nodes_spec, content_lines_tidy. }
  match goal with |- ∃ nodes, out_bind (out_imap role_node 0 ?items) _ = _ ∧ _ =>
    assert (items ≠ []) as Hne by (repeat case_bool_decide; done);
    assert (Forall (λ b, b.1 ∈ allRoles ∧ trim b.2 ≠ "") items) as Hitems;
    [|destruct (role_nodes_return items) as [nodes E]] end.
  { repeat case_bool_decide.
    - apply parsed_blocks_spec.
    - apply role_lines_spec, content_lines_tidy.
    - constructor; [|constructor]. split; [unfold allRoles; set_solver|].
      simpl. by rewrite trim_idem.
    - constructor; [|constructor]. split; [unfold allRoles; set_solver|].
      simpl. by rewrite trim_idem. }
  { repeat case_bool_decide.
    - apply Forall_forall. intros b [_ Hb]%list_elem_of_filter. revert b Hb.
      apply Forall_forall, scan_blocks_roles.
    - apply role_lines_roles.
    - by repeat constructor.
    - by repeat constructor. }
  rewrite E. cbn [out_bind]. exists nodes. split; [done|]. split.
  - match type of E with out_imap _ _ ?items = _ =>
      destruct items as [|b bs]; [done|] end.
    by eapply out_imap_nonempty.
  - by eapply role_nodes_imported.
Qed.

Lemma layoutGraph_ids (g : Graph) (w w' : Entropy)
    (rfNodes : list FlowNode) (rfEdges : list FlowEdge) :
  layoutGraph g w = (Returned (rfNodes, rfEdges), w') →
  map n_id rfNodes ≡ₚ map gn_id (g_nodes g).
Proof.
  intros E.
  apply ImportLayoutFacts2.layoutGraph_returned in E as (Href & level & El & -> & Hns).
  pose proof (GroupFacts.sorted_groups_spec level (ImportLayoutFacts2.ids g)) as Hg.
  pose proof (GroupFacts.groups_ids level _ _ Hg) as Hperm.
  rewrite <- GroupFacts.plan_ids in Hperm.
  set (pl := GroupFacts.plan (sorted_groups (group_by_level level (ImportLayoutFacts2.ids g))))
    in *.
  assert (map n_id rfNodes = map (λ p, p.1.1) pl) as ->; [|done].
  clear -Hns. induction Hns as [|p n pl ns (gn & Hgn & Hb & _) _ IH]; [done|].
  simpl. rewrite IH. f_equal.
  destruct Hb as (-> & _). by apply ImportLayoutFacts2.byId_keyed in Hgn as [? _].
Qed.
End ImportPipelineFacts.

(** X19: a text that is not read as JSON is imported as a chain of nodes
    with the ids import-1, import-2, ..., and the validator accepts the
    imported graph exactly when no node has the role condition, the one
    role the block and role line patterns read and the validator refuses. *)
Theorem imported_text_accepted_unless_condition
    (JSON_parse : string → option jsval) (text : string) :
  Js.trim text ≠ "" →
  js_truthy (extractJsonObject JSON_parse (Js.trim text))
  && is_array (prop (extractJsonObject JSON_parse (Js.trim text)) "nodes")
  && is_array (prop (extractJsonObject JSON_parse (Js.trim text)) "edges") = false →
  ∃ nodes,
    parsePromptTextToGraph JSON_parse text
    = Returned (ParseGraph (js_of_graph {| g_nodes := nodes;
                                           g_edges := chain_edges nodes |}))
    ∧ map gn_id nodes = map import_id (seq 0 (length nodes))
    ∧ (validateGeneratedGraph
         (js_of_graph {| g_nodes := nodes; g_edges := chain_edges nodes |}) = None
       ↔ ∀ n, n ∈ nodes → gn_role n ≠ "condition").
Proof.
  intros Ht Hd.
  destruct (ImportPipelineFacts.parsePromptTextToGraph_nodes JSON_parse text Ht Hd)
    as (nodes & E & Hne & Hi).
  exists nodes. split; [exact E|]. split.
  - apply list_eq. intros k. change (map gn_id nodes) with (gn_id <$> nodes).
    change (map import_id (seq 0 (length nodes)))
      with (import_id <$> seq 0 (length nodes)).
    rewrite !list_lookup_fmap. destruct (nodes !! k) as [n|] eqn:Hk.
    + rewrite (lookup_seq_lt 0 (length nodes) k); [|by eapply lookup_lt_Some].
      simpl. f_equal. by destruct (Hi k n Hk).
    + rewrite lookup_seq_ge; [done|]. by apply lookup_ge_None.
  - rewrite GraphValidation.accepts_iff.
    rewrite (ImportValidFacts.imported_valid _ nodes Hne Hi).
    rewrite Forall_forall. split.
    + intros H n Hn. apply ImportPipelineFacts.all_but_condition; [|by apply H].
      apply list_elem_of_lookup_1 in Hn as [k Hk]. by destruct (Hi k n Hk) as (_ & ? & _).
    + intros H n Hn. apply ImportPipelineFacts.all_but_condition; [|by apply H].
      apply list_elem_of_lookup_1 in Hn as [k Hk]. by destruct (Hi k n Hk) as (_ & ? & _).
Qed.

Lemma imported_text_accepted_unless_condition_witness :
  ∃ nodes,
    parsePromptTextToGraph (λ _, None) "condition: the user is angry"
    = Returned (ParseGraph (js_of_graph {| g_nodes := nodes;
                                           g_edges := chain_edges nodes |}))
    ∧ map gn_id nodes = map import_id (seq 0 (length nodes))
    ∧ (validateGeneratedGraph
         (js_of_graph {| g_nodes := nodes; g_edges := chain_edges nodes |}) = None
       ↔ ∀ n, n ∈ nodes → gn_role n ≠ "condition").
Proof.
  apply (imported_text_accepted_unless_condition (λ _, None)
           "condition: the user is angry").
  - vm_compute. discriminate.
  - vm_compute. reflexivity.
Defined.

(** X20: a graph the validator accepts is laid out: [layoutGraph] does
    not throw on it, it returns one flow node for every node of the graph,
    so that there is a first node to select, and every edge points down the
    canvas by at least one row. *)
Theorem accepted_graph_is_laid_out (g : Graph) (w : Entropy) :
  validateGeneratedGraph (js_of_graph g) = None →
  ∃ rfNodes rfEdges w',
    layoutGraph g w = (Returned (rfNodes, rfEdges), w')
    ∧ rfNodes ≠ []
    ∧ map n_id rfNodes ≡ₚ map gn_id (g_nodes g)
    ∧ ∀ e s t, e ∈ rfEdges → s ∈ rfNodes → t ∈ rfNodes →
        n_id s = e_source e → n_id t = e_target e →
        pos_y (n_position s) + 220 ≤ pos_y (n_position t).
Proof.
  intros (Hne & _ & Hnd & He & _ & Hac)%GraphValidation.accepts_iff.
  rewrite Forall_forall in He.
  assert (∀ e, e ∈ g_edges g →
            ge_from e ∈ map gn_id (g_nodes g) ∧ ge_to e ∈ map gn_id (g_nodes g)) as Href.
  { intros e Hin. by destruct (He e Hin) as (? & ? & _). }
  destruct (ImportLayoutFacts2.layoutGraph_plan g w) as (level0 & rfNodes & w' & _ & E & _).
  { intros e Hin. by destruct (Href e Hin). }
  exists rfNodes, (imap layout_edge (g_edges g)), w'. split; [exact E|].
  pose proof (ImportPipelineFacts.layoutGraph_ids g _ _ _ _ E) as Hids.
  split; [|split; [done|]].
  { intros ->. apply Permutation_nil_l in Hids. by destruct (g_nodes g). }
  intros e s t Hin Hs Htt Es Et.
  destruct (ImportLayoutFacts3.layoutGraph_places g _ _ _ _ E) as (_ & level & El & Hrows).
  destruct (ImportLayoutFacts.layout_edge g Hnd Href Hac) as (level' & El' & Hedges).
  rewrite El in El'. injection El' as <-.
  apply elem_of_lookup_imap in Hin as (i & ge & -> & Hge).
  apply list_elem_of_lookup_2 in Hge.
  destruct (Hedges ge Hge) as (ls & lt & Hls & Hlt & Hle).
  rewrite Forall_forall in Hrows.
  destruct (Hrows s Hs) as [ks ->]. destruct (Hrows t Htt) as [kt ->].
  simpl in *. rewrite Es, Et, Hls, Hlt. simpl. lia.
Qed.

Lemma accepted_graph_is_laid_out_witness :
  let g := {| g_nodes := [mkGraphNode "b" "user" "User" "1. Ask.";
                          mkGraphNode "a" "system" "System" "1. Be concise."];
              g_edges := [mkGraphEdge "a" "b"] |} in
  ∃ rfNodes rfEdges w',
    layoutGraph g (λ k, Js.of_nat k) = (Returned (rfNodes, rfEdges), w')
    ∧ rfNodes ≠ []
    ∧ map n_id rfNodes ≡ₚ map gn_id (g_nodes g)
    ∧ ∀ e s t, e ∈ rfEdges → s ∈ rfNodes → t ∈ rfNodes →
        n_id s = e_source e → n_id t = e_target e →
        pos_y (n_position s) + 220 ≤ pos_y (n_position t).
Proof.
  intros g. apply (accepted_graph_is_laid_out g (λ k, Js.of_nat k)).
  vm_compute. reflexivity.
Defined.
